(** * Instance-segmentation postprocessing: model_utils.py

    A shallow embedding of
    [demos/python_demos/instance_segmentation_demo/instance_segmentation_demo/model_utils.py]
    and the properties its specification states about it.

    Numbers.  The postprocessors are modelled over exact rationals [Q]:
    every arithmetic expression of the source is transcribed operator by
    operator, without the rounding of float64, its infinities and its NaN.
    Properties for which these matter are stated over one of two finer
    models of the same source lines: IEEE 754 binary64 itself (Rocq's
    primitive floats, [sanitize_coordinates_f64], [expand_box_f64]), or
    rationals with an explicit rounding operator after every operation
    ([expand_box_fl]).  Properties of the exact model carry bounds on the
    magnitude of their inputs where float64 would otherwise overflow.
    Integer arrays (indices, pixel coordinates, uint8 masks) are [nat] or [Z].

    Arrays.  One-dimensional numpy arrays are lists; an N x 4 array of boxes
    is a list of [Box] rows; a general n-dimensional array (needed for the
    reshape / repeat / transpose pipeline of [crop_mask]) is a shape together
    with its row-major data.

    Effects.  Python exceptions are a [result]; arrays that the
    postprocessors receive, update in place or return live in a store, and
    the postprocessors are computations over that store. *)

From Stdlib Require Import Floats.
From Stdlib Require Import List Arith ZArith QArith Qminmax Qround Qabs Lia Lqa.
From Stdlib Require Import Bool Permutation Sorted.
From Stdlib Require String.
Import String.StringSyntax.
Delimit Scope string_scope with string.
From Equations Require Import Equations.
Import ListNotations.
Set Warnings "-inexact-float".

Local Open Scope Q_scope.

(** ** Boxes *)

(** A box is a length-4 array [(x1, y1, x2, y2)]: [box[0]], [box[1]],
    [box[2]], [box[3]]. *)
Record Box : Type := mkBox { b0 : Q; b1 : Q; b2 : Q; b3 : Q }.


Definition box_width (b : Box) : Q := b2 b - b0 b.
Definition box_height (b : Box) : Q := b3 b - b1 b.
Definition box_center_x (b : Box) : Q := (b2 b + b0 b) * (1 # 2).
Definition box_center_y (b : Box) : Q := (b3 b + b1 b) * (1 # 2).

(** ** Geometry utilities *)

(** [expand_box(box, scale)], lines 24-36.  [box_exp] is a fresh array
    ([np.zeros(box.shape)]) whose four slots are then assigned; [box] is only
    read. *)
Definition expand_box (box : Box) (scale : Q) : Box :=
  let w_half := (b2 box - b0 box) * (1 # 2) in
  let h_half := (b3 box - b1 box) * (1 # 2) in
  let x_c := (b2 box + b0 box) * (1 # 2) in
  let y_c := (b3 box + b1 box) * (1 # 2) in
  let w_half := w_half * scale in
  let h_half := h_half * scale in
  {| b0 := x_c - w_half;
     b2 := x_c + w_half;
     b1 := y_c - h_half;
     b3 := y_c + h_half |}.

(** [np.clip(a, a_min, a_max)] is [minimum(a_max, maximum(a, a_min))]; when
    [a_min > a_max] every value becomes [a_max]. *)
Definition np_clip (a a_min a_max : Q) : Q := Qmin a_max (Qmax a a_min).

(** [sanitize_coordinates(_x1, _x2, img_size, shift=0, padding=0)], lines
    164-170.  [_x1] and [_x2] are arrays; every operation is elementwise. *)
Definition sanitize_coordinates
    (_x1 _x2 : list Q) (img_size shift padding : Q) : list Q * list Q :=
  let _x1 := map (fun v => (v + shift / 2) * img_size) _x1 in
  let _x2 := map (fun v => (v + shift / 2) * img_size) _x2 in
  let x1 := map (fun v => np_clip (v - padding) 0 img_size) _x1 in
  let x2 := map (fun v => np_clip (v + padding) 0 img_size) _x2 in
  (x1, x2).

(** ** The geometry utilities on float64 *)

(** [np.maximum] and [np.minimum] on float64: a NaN argument is returned,
    otherwise the larger (smaller) one, the first when they are equal. *)
Definition f64_maximum (a b : float) : float :=
  if is_nan a then a else if is_nan b then b
  else if (a <? b)%float then b else a.

Definition f64_minimum (a b : float) : float :=
  if is_nan a then a else if is_nan b then b
  else if (b <? a)%float then b else a.

(** [np.clip(a, a_min, a_max)] on float64. *)
Definition f64_clip (a a_min a_max : float) : float :=
  f64_minimum a_max (f64_maximum a a_min).

(** [sanitize_coordinates], lines 164-170, on float64 arrays. *)
Definition sanitize_coordinates_f64
    (_x1 _x2 : list float) (img_size shift padding : float)
  : list float * list float :=
  let _x1 := map (fun v => ((v + shift / 2) * img_size)%float) _x1 in
  let _x2 := map (fun v => ((v + shift / 2) * img_size)%float) _x2 in
  let x1 := map (fun v => f64_clip (v - padding) 0 img_size) _x1 in
  let x2 := map (fun v => f64_clip (v + padding) 0 img_size) _x2 in
  (x1, x2).

(** What [np.clip(t, 0, img_size)] gives as [r]: NaN for a NaN [t], a value
    of [[0, img_size]] otherwise. *)
Definition in_range_or_nan (t r img_size : float) : Prop :=
  if is_nan t then is_nan r = true
  else (0 <=? r)%float = true /\ (r <=? img_size)%float = true.

(** A box of float64 coordinates. *)
Record Box64 : Type := mkBox64 { f0 : float; f1 : float; f2 : float; f3 : float }.

(** [expand_box], lines 24-36, on float64. *)
Definition expand_box_f64 (box : Box64) (scale : float) : Box64 :=
  let w_half := ((f2 box - f0 box) * 0.5)%float in
  let h_half := ((f3 box - f1 box) * 0.5)%float in
  let x_c := ((f2 box + f0 box) * 0.5)%float in
  let y_c := ((f3 box + f1 box) * 0.5)%float in
  let w_half := (w_half * scale)%float in
  let h_half := (h_half * scale)%float in
  {| f0 := (x_c - w_half)%float;
     f2 := (x_c + w_half)%float;
     f1 := (y_c - h_half)%float;
     f3 := (y_c + h_half)%float |}.

(** ** Non-maximum suppression *)

(** [a[i]] on a one-dimensional float array.  The indices used by [nms] come
    from [scores.argsort()], so they are in range whenever the five arrays
    are parallel. *)
Definition at_ (a : list Q) (i : nat) : Q := nth i a 0.

(** [a[keep]]: numpy indexing of a one-dimensional array by an index list. *)
Definition gather (a : list Q) (keep : list nat) : list Q := map (at_ a) keep.

(** [scores.argsort()]: indices in ascending score order.  numpy's default
    sort leaves the order of equal scores open; here they are taken in
    index order, one of the orders it may return ([is_argsort] describes
    all of them, and [nms_with] takes the order as an argument).  Index [i]
    is inserted in front of the first later index whose score is not
    smaller. *)
Fixpoint argsort_insert (scores : list Q) (i : nat) (l : list nat) : list nat :=
  match l with
  | [] => [i]
  | j :: l' =>
      if Qle_bool (at_ scores i) (at_ scores j)
      then i :: j :: l'
      else j :: argsort_insert scores i l'
  end.

Definition argsort (scores : list Q) : list nat :=
  fold_right (argsort_insert scores) [] (seq 0 (length scores)).

(** Python's [a[:k]] for an integer [k]: a negative [k] counts from the end. *)
Definition slice_to {A} (a : list A) (k : Z) : list A :=
  if (k <? 0)%Z
  then firstn (Z.to_nat (Z.max 0 (Z.of_nat (length a) + k))) a
  else firstn (Z.to_nat k) a.

Section Nms.
Variables x1 y1 x2 y2 scores : list Q.
Variable thresh : Q.
Variable include_boundaries : bool.

Definition nms_b : Q := if include_boundaries then 1 else 0.

(** [areas = (x2 - x1 + b) * (y2 - y1 + b)], line 130. *)
Definition areas (i : nat) : Q :=
  (at_ x2 i - at_ x1 i + nms_b) * (at_ y2 i - at_ y1 i + nms_b).

(** Lines 142-149 for the kept box [i] and one remaining box [j]. *)
Definition intersection (i j : nat) : Q :=
  let xx1 := Qmax (at_ x1 i) (at_ x1 j) in
  let yy1 := Qmax (at_ y1 i) (at_ y1 j) in
  let xx2 := Qmin (at_ x2 i) (at_ x2 j) in
  let yy2 := Qmin (at_ y2 i) (at_ y2 j) in
  let w := Qmax 0 (xx2 - xx1 + nms_b) in
  let h := Qmax 0 (yy2 - yy1 + nms_b) in
  w * h.

(** Lines 151-158: [np.divide(..., out=zeros, where=base_area != 0)]. *)
Definition overlap (i j : nat) : Q :=
  let base_area := areas i + areas j - intersection i j in
  if Qeq_bool base_area 0 then 0 else intersection i j / base_area.

(** The [while order.size > 0] loop, lines 138-159: the head of [order]
    is kept and the tail is filtered by [overlap <= thresh]. *)
Equations? nms_loop (order : list nat) : list nat by wf (length order) lt :=
  nms_loop [] := [];
  nms_loop (i :: rest) :=
    i :: nms_loop (filter (fun j => Qle_bool (overlap i j) thresh) rest).
Proof.
  simpl. pose proof (filter_length_le (fun j => Qle_bool (overlap i j) thresh) rest).
  lia.
Qed.

(** [nms(x1, y1, x2, y2, scores, thresh, include_boundaries, keep_top_k)].
    [if keep_top_k:] is false for [None] and for [0]. *)
Definition nms (keep_top_k : option Z) : list nat :=
  let order := rev (argsort scores) in
  let order :=
    match keep_top_k with
    | None => order
    | Some k => if (k =? 0)%Z then order else slice_to order k
    end in
  nms_loop order.

(** The same lines with the result of [scores.argsort()] given as
    [argsorted]: [nms keep_top_k] is [nms_with (argsort scores) keep_top_k]. *)
Definition nms_with (argsorted : list nat) (keep_top_k : option Z)
  : list nat :=
  let order := rev argsorted in
  let order :=
    match keep_top_k with
    | None => order
    | Some k => if (k =? 0)%Z then order else slice_to order k
    end in
  nms_loop order.
End Nms.

(** What numpy promises of [idx = scores.argsort()]: the indices of
    [scores], in ascending order of score.  The order of equal scores is
    not fixed (the default sort is not stable). *)
Definition is_argsort (scores : list Q) (idx : list nat) : Prop :=
  Permutation idx (seq 0 (length scores)) /\
  StronglySorted (fun a c => at_ scores a <= at_ scores c) idx.

(** ** Exceptions *)

(** The Python exceptions the modelled code can raise. *)
Inductive exn : Type :=
| ValueError
| IndexError
| KeyError
| TypeError
| ZeroDivisionError
| AssertionError (msg : String.string)
| Cv2Error.

Inductive result (A : Type) : Type :=
| Ok (a : A)
| Raise (e : exn).
Arguments Ok {A} a.
Arguments Raise {A} e.

Definition rbind {A B} (m : result A) (f : A -> result B) : result B :=
  match m with
  | Ok a => f a
  | Raise e => Raise e
  end.

Declare Scope result_scope.
Delimit Scope result_scope with result.
Notation "x <- m ;; k" := (rbind m (fun x => k))
  (at level 61, m at next level, right associativity) : result_scope.
Notation "' p <- m ;; k" := (rbind m (fun p => k))
  (at level 61, p pattern, m at next level, right associativity) : result_scope.

(** ** n-dimensional arrays *)

(** A numpy array: its shape and its elements in row-major (C) order. *)
Record ndarray (A : Type) : Type := mkArr { shape : list nat; data : list A }.
Arguments mkArr {A} shape data.
Arguments shape {A} n.
Arguments data {A} n.

(** Number of elements of an array of a given shape. *)
Definition size_of (sh : list nat) : nat := fold_right Nat.mul 1%nat sh.

(** Row-major offset of a multi-index. *)
Fixpoint ravel (sh idx : list nat) : nat :=
  match sh, idx with
  | _ :: sh', i :: idx' => (i * size_of sh' + ravel sh' idx')%nat
  | _, _ => 0%nat
  end.

(** All multi-indices of a shape, in row-major order. *)
Fixpoint indices (sh : list nat) : list (list nat) :=
  match sh with
  | [] => [[]]
  | d :: sh' => flat_map (fun i => map (cons i) (indices sh')) (seq 0 d)
  end.

(** [a[i0, i1, ...]] for an in-range multi-index. *)
Definition get {A} (d : A) (a : ndarray A) (idx : list nat) : A :=
  nth (ravel (shape a) idx) (data a) d.

(** [np.arange(n, dtype=float)]. *)
Definition np_arange (n : nat) : ndarray Q :=
  mkArr [n] (map (fun i => inject_Z (Z.of_nat i)) (seq 0 n)).

(** [np.repeat(a, reps)] without an axis: the flattened array with every
    element repeated [reps] times. *)
Definition np_repeat {A} (a : ndarray A) (reps : nat) : ndarray A :=
  mkArr [(length (data a) * reps)%nat]
        (flat_map (fun v => repeat v reps) (data a)).

(** [np.repeat(a, reps, axis=-1)]: every element repeated [reps] times along
    the last axis. *)
Definition np_repeat_last {A} (a : ndarray A) (reps : nat) : ndarray A :=
  mkArr (match rev (shape a) with
         | [] => []
         | d :: r => rev ((d * reps)%nat :: r)
         end)
        (flat_map (fun v => repeat v reps) (data a)).

(** [np.reshape(a, newshape)]: the element count has to match. *)
Definition np_reshape {A} (a : ndarray A) (newshape : list nat)
  : result (ndarray A) :=
  if (size_of newshape =? length (data a))%nat
  then Ok (mkArr newshape (data a))
  else Raise ValueError.

(** [np.transpose(a, axes)] for a three-dimensional array:
    [out[i0,i1,i2] = a[j0,j1,j2]] with [j_(axes[m]) = i_m]. *)
Definition np_transpose3 {A} (d : A) (a : ndarray A) (axes : nat * nat * nat)
  : result (ndarray A) :=
  let '(p0, p1, p2) := axes in
  match shape a with
  | [_; _; _] =>
      let sh := [nth p0 (shape a) 0; nth p1 (shape a) 0; nth p2 (shape a) 0]%nat in
      let src (idx : list nat) : list nat :=
        map (fun m => if (m =? p0)%nat then nth 0 idx 0
                      else if (m =? p1)%nat then nth 1 idx 0
                      else nth 2 idx 0)%nat [0; 1; 2]%nat in
      Ok (mkArr sh (map (fun idx => get d a (src idx)) (indices sh)))
  | _ => Raise ValueError
  end.

(** numpy broadcasting of two shapes, aligned at the last axis: two extents
    are compatible when they are equal or one of them is [1]. *)
Fixpoint broadcast_rev (r1 r2 : list nat) : result (list nat) :=
  match r1, r2 with
  | [], r | r, [] => Ok r
  | d1 :: r1', d2 :: r2' =>
      (r <- broadcast_rev r1' r2' ;;
       if (d1 =? d2)%nat then Ok (d1 :: r)
       else if (d1 =? 1)%nat then Ok (d2 :: r)
       else if (d2 =? 1)%nat then Ok (d1 :: r)
       else Raise ValueError)%result
  end.

Definition broadcast_shapes (s1 s2 : list nat) : result (list nat) :=
  (r <- broadcast_rev (rev s1) (rev s2) ;; Ok (rev r))%result.

(** The element of [a] that position [idx] of a broadcast result reads: the
    leading axes [a] does not have are dropped and an axis of extent [1] is
    always read at [0]. *)
Definition bget {A} (d : A) (a : ndarray A) (idx : list nat) : A :=
  let idx' := skipn (length idx - length (shape a)) idx in
  get d a (map (fun '(e, i) => if (e =? 1)%nat then 0%nat else i)
               (combine (shape a) idx')).

(** An elementwise binary operation with broadcasting. *)
Definition broadcast2 {A B C} (da : A) (db : B) (f : A -> B -> C)
    (a : ndarray A) (b : ndarray B) : result (ndarray C) :=
  (sh <- broadcast_shapes (shape a) (shape b) ;;
   Ok (mkArr sh (map (fun idx => f (bget da a idx) (bget db b idx))
                     (indices sh))))%result.

Definition Qlt_bool (x y : Q) : bool := negb (Qle_bool y x).

(** A one-dimensional array. *)
Definition vec {A} (l : list A) : ndarray A := mkArr [length l] l.

Definition Qnat (n : nat) : Q := inject_Z (Z.of_nat n).

(** ** The per-pixel crop of the prototype-mask variant *)

(** Lines 181-183, the right-hand side of [rows = ...] (before the
    transposition of line 187). *)
Definition crop_rows (h w n : nat) : result (ndarray Q) :=
  (r <- np_reshape (np_repeat (np_arange w) h) [w; h] ;;
   np_reshape (np_repeat_last r n) [h; w; n])%result.

(** Lines 184-186, the right-hand side of [cols = ...]: [arange(h)] is
    repeated [h] times and reshaped to [(w, h)]. *)
Definition crop_cols (h w n : nat) : result (ndarray Q) :=
  (c <- np_reshape (np_repeat (np_arange h) h) [w; h] ;;
   np_reshape (np_repeat_last c n) [h; w; n])%result.

(** [crop_mask(masks, boxes, padding=1)], lines 176-195, the function nested
    in [yolact_segm_postprocess].  [h, w, n = np.shape(masks)] needs a
    three-dimensional array. *)
Definition crop_mask (masks : ndarray Q) (boxes : list Box) (padding : Q)
  : result (ndarray Q) :=
  match shape masks with
  | [h; w; n] =>
      let '(x1, x2) :=
        sanitize_coordinates (map b0 boxes) (map b2 boxes) (Qnat w) 0 padding in
      let '(y1, y2) :=
        sanitize_coordinates (map b1 boxes) (map b3 boxes) (Qnat h) 0 padding in
      (rows <- crop_rows h w n ;;
       cols <- crop_cols h w n ;;
       rows <- np_transpose3 0 rows (1, 0, 2)%nat ;;
       masks_left <- broadcast2 0 0 (fun r x => Qle_bool x r) rows (vec x1) ;;
       masks_right <- broadcast2 0 0 (fun r x => Qlt_bool r x) rows (vec x2) ;;
       masks_up <- broadcast2 0 0 (fun c y => Qle_bool y c) cols (vec y1) ;;
       masks_down <- broadcast2 0 0 (fun c y => Qlt_bool c y) cols (vec y2) ;;
       cm <- broadcast2 false false andb masks_left masks_right ;;
       cm <- broadcast2 false false andb cm masks_up ;;
       cm <- broadcast2 false false andb cm masks_down ;;
       broadcast2 0 false (fun m (c : bool) => m * (if c then 1 else 0))
                  masks cm)%result
  | _ => Raise ValueError
  end.

(** The membership test of [crop_mask] for pixel (row [i], column [j]) of
    instance [k]: the column index is compared with the sanitized [x]
    bounds and the row index with the sanitized [y] bounds. *)
Definition in_crop_window (boxes : list Box) (h w : nat) (padding : Q)
    (i j k : nat) : bool :=
  let '(x1, x2) :=
    sanitize_coordinates (map b0 boxes) (map b2 boxes) (Qnat w) 0 padding in
  let '(y1, y2) :=
    sanitize_coordinates (map b1 boxes) (map b3 boxes) (Qnat h) 0 padding in
  Qle_bool (at_ x1 k) (Qnat j) && Qlt_bool (Qnat j) (at_ x2 k) &&
  Qle_bool (at_ y1 k) (Qnat i) && Qlt_bool (Qnat i) (at_ y2 k).

(** ** Topology validation *)

(** What [check_model] reads of a network: the declared inputs with their
    shapes ([net.input_info], a dict in insertion order) and the declared
    outputs ([net.outputs]). *)
Record IENetwork : Type := mkNet {
  input_info : list (String.string * list nat);
  outputs : list (String.string * list nat)
}.

(** The two postprocessors a [ModelAttributes] entry can refer to. *)
Inductive postprocessor : Type := PostMaskRcnn | PostYolact.

Record ModelAttributes : Type := mkAttrs {
  required_outputs : list String.string;
  attr_postprocessor : postprocessor
}.

(** Lines 233-236. *)
Definition MODEL_ATTRIBUTES : list (String.string * ModelAttributes) :=
  [ ("mask_rcnn"%string,
     mkAttrs ["boxes"; "scores"; "classes"; "raw_masks"]%string PostMaskRcnn);
    ("yolact"%string,
     mkAttrs ["boxes"; "conf"; "proto"; "mask"]%string PostYolact) ].

(** [d[key]] on a dict. *)
Fixpoint dict_get {V} (d : list (String.string * V)) (key : String.string)
  : result V :=
  match d with
  | [] => Raise KeyError
  | (k, v) :: d' => if String.eqb k key then Ok v else dict_get d' key
  end.

(** [assert cond, msg]. *)
Definition py_assert (cond : bool) (msg : String.string) : result unit :=
  if cond then Ok tt else Raise (AssertionError msg).

(** The truth value of a two-element tuple: a tuple that is not empty is
    true whatever it contains. *)
Definition tuple_truth {A B} (t : A * B) : bool := true.

(** The truth value of [image_info_input]: [None] and the empty string are
    false. *)
Definition name_truth (n : option String.string) : bool :=
  match n with
  | None => false
  | Some s => negb (String.eqb s String.EmptyString)
  end.

(** [set(required).issubset(keys)]. *)
Definition issubset (required keys : list String.string) : bool :=
  forallb (fun r => existsb (String.eqb r) keys) required.

(** [l[0]]. *)
Definition py_head {A} (l : list A) : result A :=
  match l with
  | x :: _ => Ok x
  | [] => Raise IndexError
  end.

(** [check_model(net)], lines 239-264.  The third assertion, lines 255-259,
    is written [assert (condition, message)]: what is asserted is the
    tuple. *)
Definition check_model (net : IENetwork)
  : result (String.string * option String.string * list nat * postprocessor) :=
  let num_inputs := length (input_info net) in
  (_ <- py_assert (num_inputs <=? 2)%nat
         "Demo supports only topologies with 1 or 2 inputs."%string ;;
   let image_input :=
     map fst (filter (fun '(_, shp) => (length shp =? 4)%nat) (input_info net)) in
   _ <- py_assert (length image_input =? 1)%nat
         "Demo supports only model with single input for images"%string ;;
   image_input <- py_head image_input ;;
   image_info_input <-
     (if (num_inputs =? 2)%nat
      then
        let image_info_input :=
          map fst (filter (fun '(_, shp) =>
                             (length shp =? 2)%nat &&
                             (last shp 0 =? 3)%nat)
                          (input_info net)) in
        _ <- py_assert (length image_info_input =? 1)%nat
              "Demo supports only model with single im_info input"%string ;;
        x <- py_head image_info_input ;;
        Ok (Some x)
      else Ok None) ;;
   let model_type :=
     if name_truth image_info_input then "mask_rcnn"%string
     else "yolact"%string in
   model_attreibutes <- dict_get MODEL_ATTRIBUTES model_type ;;
   _ <- py_assert
         (tuple_truth
            (issubset (required_outputs model_attreibutes)
                      (map fst (outputs net)),
             "Demo supports only topologies with the following output keys: "%string))
         String.EmptyString ;;
   input_shape <- dict_get (input_info net) image_input ;;
   batch <- py_head input_shape ;;
   _ <- py_assert (batch =? 1)%nat
         "Only batch 1 is supported by the demo application"%string ;;
   Ok (image_input, image_info_input, input_shape,
       attr_postprocessor model_attreibutes))%result.

(** ** The store *)

(** The postprocessors update arrays in place and hand arrays over by
    reference, so arrays that are passed in, written or returned live in a
    store.  A cell holds one numpy array; its constructor records the
    element type and rank the code relies on. *)
Inductive array : Type :=
| ABoxes (b : list Box)            (* float, N x 4 *)
| ABoxes3 (b : list (list Box))    (* float, batch x N x 4 *)
| AVec (v : list Q)                (* float, one-dimensional *)
| AIVec (v : list Z)               (* integer, one-dimensional *)
| ATensor (t : ndarray Q)          (* float, two or more dimensions *)
| AMask (m : ndarray Z).           (* uint8, a frame-sized mask *)

Definition loc : Type := nat.
Definition store : Type := list array.

(** A computation reads and updates the store and may raise; the store of
    a raising computation is not tracked. *)
Definition M (A : Type) : Type := store -> result (A * store).

Definition ret {A} (a : A) : M A := fun st => Ok (a, st).

Definition bind {A B} (m : M A) (f : A -> M B) : M B :=
  fun st =>
    match m st with
    | Ok (a, st') => f a st'
    | Raise e => Raise e
    end.

Definition lift {A} (r : result A) : M A :=
  fun st =>
    match r with
    | Ok a => Ok (a, st)
    | Raise e => Raise e
    end.

Declare Scope store_scope.
Delimit Scope store_scope with store.
Notation "x <- m ;; k" := (bind m (fun x => k))
  (at level 61, m at next level, right associativity) : store_scope.

(** A new array object. *)
Definition alloc (v : array) : M loc :=
  fun st => Ok (length st, st ++ [v]).

Definition load (l : loc) : M array :=
  fun st =>
    match nth_error st l with
    | Some v => Ok (v, st)
    | None => Raise TypeError
    end.

Fixpoint set_nth {A} (l : list A) (i : nat) (v : A) : list A :=
  match l, i with
  | [], _ => []
  | _ :: l', O => v :: l'
  | x :: l', S i' => x :: set_nth l' i' v
  end.

(** An in-place update of the array at [l]. *)
Definition write (l : loc) (v : array) : M unit :=
  fun st =>
    if (l <? length st)%nat then Ok (tt, set_nth st l v) else Raise TypeError.

Definition load_boxes (l : loc) : M (list Box) :=
  (v <- load l ;;
   match v with ABoxes b => ret b | _ => lift (Raise TypeError) end)%store.

Definition load_boxes3 (l : loc) : M (list (list Box)) :=
  (v <- load l ;;
   match v with ABoxes3 b => ret b | _ => lift (Raise TypeError) end)%store.

Definition load_vec (l : loc) : M (list Q) :=
  (v <- load l ;;
   match v with AVec b => ret b | _ => lift (Raise TypeError) end)%store.

Definition load_ivec (l : loc) : M (list Z) :=
  (v <- load l ;;
   match v with AIVec b => ret b | _ => lift (Raise TypeError) end)%store.

Definition load_tensor (l : loc) : M (ndarray Q) :=
  (v <- load l ;;
   match v with ATensor b => ret b | _ => lift (Raise TypeError) end)%store.

Definition load_mask (l : loc) : M (ndarray Z) :=
  (v <- load l ;;
   match v with AMask b => ret b | _ => lift (Raise TypeError) end)%store.

(** A [for] loop that collects one result per element. *)
Fixpoint mapM {A B} (f : A -> M B) (l : list A) : M (list B) :=
  match l with
  | [] => ret []
  | x :: l' => (y <- f x ;; ys <- mapM f l' ;; ret (y :: ys))%store
  end.

(** ** More numpy *)

(** Iterating over an array, or [a[i]]: the sub-arrays along axis 0. *)
Definition subarray {A} (a : ndarray A) (i : nat) : ndarray A :=
  let sz := size_of (tl (shape a)) in
  mkArr (tl (shape a)) (firstn sz (skipn (i * sz) (data a))).

Definition subarrays {A} (a : ndarray A) : list (ndarray A) :=
  map (subarray a) (seq 0 (hd 0%nat (shape a))).

Definition index0 {A} (a : ndarray A) (i : nat) : result (ndarray A) :=
  match shape a with
  | n :: _ => if (i <? n)%nat then Ok (subarray a i) else Raise IndexError
  | [] => Raise IndexError
  end.

(** [l[i]] for a list or a one-dimensional array. *)
Definition py_index {A} (l : list A) (i : nat) : result A :=
  match nth_error l i with
  | Some x => Ok x
  | None => Raise IndexError
  end.

(** [a[i] = x] on a one-dimensional float array of the store. *)
Definition store_item (a : loc) (i : nat) (x : Q) : M unit :=
  (v <- load_vec a ;;
   if (i <? length v)%nat then write a (AVec (set_nth v i x))
   else lift (Raise IndexError))%store.

Section Rounded.
(** What float64 does to the exact result of an arithmetic operation. *)
Variable fl : Q -> Q.

(** [expand_box(box, scale)], lines 24-36, with [box] and [box_exp] as
    arrays of the store and the result of every float64 operation rounded:
    [box] is read, [box_exp] is a new array of the shape of [box], filled
    with zeros, whose slots 0, 2, 1 and 3 are then assigned. *)
Definition expand_box_fl (box : loc) (scale : Q) : M loc :=
  (b <- load_vec box ;;
   box2 <- lift (py_index b 2) ;;
   box0 <- lift (py_index b 0) ;;
   let w_half := fl (fl (box2 - box0) * (1 # 2)) in
   box3 <- lift (py_index b 3) ;;
   box1 <- lift (py_index b 1) ;;
   let h_half := fl (fl (box3 - box1) * (1 # 2)) in
   let x_c := fl (fl (box2 + box0) * (1 # 2)) in
   let y_c := fl (fl (box3 + box1) * (1 # 2)) in
   let w_half := fl (w_half * scale) in
   let h_half := fl (h_half * scale) in
   box_exp <- alloc (AVec (repeat 0 (length b))) ;;
   _ <- store_item box_exp 0 (fl (x_c - w_half)) ;;
   _ <- store_item box_exp 2 (fl (x_c + w_half)) ;;
   _ <- store_item box_exp 1 (fl (y_c - h_half)) ;;
   _ <- store_item box_exp 3 (fl (y_c + h_half)) ;;
   ret box_exp)%store.
End Rounded.

(** [a[idx]] with an integer index array: a new array with the selected
    rows. *)
Fixpoint take {A} (a : list A) (idx : list nat) : result (list A) :=
  match idx with
  | [] => Ok []
  | i :: idx' =>
      (x <- py_index a i ;; r <- take a idx' ;; Ok (x :: r))%result
  end.

(** [a[mask]] with a boolean mask of the same length: a new array. *)
Fixpoint bool_select {A} (a : list A) (mask : list bool) : list A :=
  match a, mask with
  | x :: a', m :: mask' =>
      if m then x :: bool_select a' mask' else bool_select a' mask'
  | _, _ => []
  end.

(** A mask whose length differs from the array's is an [IndexError]. *)
Definition np_bool_index {A} (a : list A) (mask : list bool) : result (list A) :=
  if (length a =? length mask)%nat then Ok (bool_select a mask)
  else Raise IndexError.

(** Elementwise function application. *)
Definition map_arr {A B} (f : A -> B) (a : ndarray A) : ndarray B :=
  mkArr (shape a) (map f (data a)).

(** [np.zeros((h, w), dtype=np.uint8)]. *)
Definition np_zeros2 (h w : nat) : ndarray Z :=
  mkArr [h; w] (repeat 0%Z (h * w)).

(** [np.pad(a, ((1, 1), (1, 1)), 'constant', constant_values=0)] on a
    two-dimensional array. *)
Definition np_pad1 (a : ndarray Q) : result (ndarray Q) :=
  match shape a with
  | [h; w] =>
      Ok (mkArr [h + 2; w + 2]%nat
            (map (fun idx =>
                    match idx with
                    | [i; j] =>
                        if ((1 <=? i) && (i <=? h) && (1 <=? j) && (j <=? w))%nat
                        then get 0 a [i - 1; j - 1]%nat
                        else 0
                    | _ => 0
                    end)
                 (indices [h + 2; w + 2]%nat)))
  | _ => Raise ValueError
  end.

(** [x.astype(int)] on a float: truncation towards zero. *)
Definition Qtrunc (q : Q) : Z :=
  if Qle_bool 0 q then Qfloor q else Qceiling q.

(** [x.astype(np.uint32)] on a float: truncation, then reduction modulo
    [2^32]. *)
Definition astype_uint32 (q : Q) : Z := (Qtrunc q mod 2 ^ 32)%Z.

(** [np.clip] on integers. *)
Definition int_clip (a a_min a_max : Z) : Z := Z.min a_max (Z.max a a_min).

(** The bounds Python gives a slice [start:stop] on a sequence of length
    [len]: a negative bound counts from the end, and both are clamped. *)
Definition py_bound (len : nat) (i : Z) : nat :=
  if (i <? 0)%Z then Z.to_nat (Z.max 0 (i + Z.of_nat len))
  else Z.to_nat (Z.min i (Z.of_nat len)).

(** [a[r0:r1, c0:c1]] on a two-dimensional array. *)
Definition slice2 {A} (d : A) (a : ndarray A) (r0 r1 c0 c1 : Z)
  : result (ndarray A) :=
  match shape a with
  | [h; w] =>
      let rs := py_bound h r0 in let re := py_bound h r1 in
      let cs := py_bound w c0 in let ce := py_bound w c1 in
      Ok (mkArr [re - rs; ce - cs]%nat
            (map (fun idx => get d a [rs + nth 0 idx 0; cs + nth 1 idx 0]%nat)
                 (indices [re - rs; ce - cs]%nat)))
  | _ => Raise IndexError
  end.

(** [dst[r0:r1, c0:c1] = src]: [src] has to broadcast to the shape of the
    target window, else [ValueError]. *)
Definition assign_slice2 {A} (d : A) (dst : ndarray A) (r0 r1 c0 c1 : Z)
    (src : ndarray A) : result (ndarray A) :=
  match shape dst with
  | [h; w] =>
      let rs := py_bound h r0 in let re := py_bound h r1 in
      let cs := py_bound w c0 in let ce := py_bound w c1 in
      (sh <- broadcast_shapes [re - rs; ce - cs]%nat (shape src) ;;
       if list_eq_dec Nat.eq_dec sh [re - rs; ce - cs]%nat
       then
         Ok (mkArr [h; w]
               (map (fun idx =>
                       let i := nth 0 idx 0%nat in
                       let j := nth 1 idx 0%nat in
                       if ((rs <=? i) && (i <? re) && (cs <=? j) && (j <? ce))%nat
                       then bget d src [i - rs; j - cs]%nat
                       else get d dst idx)
                    (indices [h; w])))
       else Raise ValueError)%result
  | _ => Raise IndexError
  end.

(** [np.concatenate(arrays, axis=0)] of one-dimensional arrays: an empty
    list of arrays is a [ValueError] ("need at least one array to
    concatenate"). *)
Definition np_concatenate {A} (arrays : list (list A)) : result (list A) :=
  match arrays with
  | [] => Raise ValueError
  | _ => Ok (concat arrays)
  end.

(** [np.transpose(a)] of a two-dimensional array. *)
Definition np_transpose2 {A} (d : A) (a : ndarray A) : result (ndarray A) :=
  match shape a with
  | [n; m] =>
      Ok (mkArr [m; n]
            (map (fun idx => get d a [nth 1 idx 0; nth 0 idx 0]%nat)
                 (indices [m; n])))
  | _ => Raise ValueError
  end.

(** [a[i, :]] of a two-dimensional array. *)
Definition row2 {A} (d : A) (a : ndarray A) (i : nat) : list A :=
  map (fun j => get d a [i; j]) (seq 0 (nth 1 (shape a) 0%nat)).

(** [a[idx]] on a two-dimensional array with an integer index array. *)
Definition take_rows {A} (d : A) (a : ndarray A) (idx : list nat)
  : result (ndarray A) :=
  match shape a with
  | [n; m] =>
      if forallb (fun i => (i <? n)%nat) idx
      then Ok (mkArr [length idx; m] (flat_map (row2 d a) idx))
      else Raise IndexError
  | _ => Raise IndexError
  end.

(** [a[mask]] on a two-dimensional array with a boolean mask over rows. *)
Definition bool_rows {A} (d : A) (a : ndarray A) (mask : list bool)
  : result (ndarray A) :=
  match shape a with
  | [n; m] =>
      if (n =? length mask)%nat
      then let idx := bool_select (seq 0 n) mask in
           Ok (mkArr [length idx; m] (flat_map (row2 d a) idx))
      else Raise IndexError
  | _ => Raise IndexError
  end.

(** [proto @ coeffs.T] for [proto] of shape [(H, W, K)] and [coeffs] of
    shape [(n, K)]: the result has shape [(H, W, n)]. *)
Definition np_matmul_T (proto coeffs : ndarray Q) : result (ndarray Q) :=
  match shape proto, shape coeffs with
  | [h; w; k], [n; k'] =>
      if (k =? k')%nat
      then
        Ok (mkArr [h; w; n]
              (map (fun idx =>
                      let i := nth 0 idx 0%nat in
                      let j := nth 1 idx 0%nat in
                      let c := nth 2 idx 0%nat in
                      fold_left Qplus
                        (map (fun z => get 0 proto [i; j; z] * get 0 coeffs [c; z])
                             (seq 0 k))
                        0)
                   (indices [h; w; n])))
      else Raise ValueError
  | _, _ => Raise ValueError
  end.

(** ** The postprocessors *)

(** What [yolact_segm_postprocess] returns: the list [[] * 4] of line 205,
    or the tuple [boxes, score, classes, ready_masks] of line 230. *)
Inductive segm_return : Type :=
| RetList (items : list loc)
| RetTuple (boxes score classes : loc) (ready_masks : list loc).

(** [zip(a, b, c)] stops at the shortest argument. *)
Fixpoint zip3 {A B C} (a : list A) (b : list B) (c : list C)
  : list (A * B * C) :=
  match a, b, c with
  | x :: a', y :: b', z :: c' => (x, y, z) :: zip3 a' b' c'
  | _, _, _ => []
  end.

(** [boxes[:, 0::2] /= scale_x] and [boxes[:, 1::2] /= scale_y] on one row.
    The scales are not zero in any use; a zero scale would give numpy
    infinities, which rationals do not have. *)
Definition scale_x_row (scale_x : Q) (b : Box) : Box :=
  mkBox (b0 b / scale_x) (b1 b) (b2 b / scale_x) (b3 b).
Definition scale_y_row (scale_y : Q) (b : Box) : Box :=
  mkBox (b0 b) (b1 b / scale_y) (b2 b) (b3 b / scale_y).

(** [boxes[:, 0], boxes[:, 2] = x1, x2]: a column assignment takes one value
    per row. *)
Definition set_cols_x (boxes : list Box) (x1 x2 : list Q) : list Box :=
  map (fun '(b, x1, x2) => mkBox x1 (b1 b) x2 (b3 b)) (zip3 boxes x1 x2).
Definition set_cols_y (boxes : list Box) (y1 y2 : list Q) : list Box :=
  map (fun '(b, y1, y2) => mkBox (b0 b) y1 (b2 b) y2) (zip3 boxes y1 y2).

(** [mask > 0.5] followed by [astype(np.uint8)]. *)
Definition binarize (a : ndarray Q) : ndarray Z :=
  map_arr (fun v => if Qlt_bool (1 # 2) v then 1%Z else 0%Z) a.

Section Postprocess.

(** [cv2.resize(src, (width, height))] with bilinear interpolation, and
    [np.exp]: library functions on floats, left unspecified. *)
Variable cv2_resize : ndarray Q -> Z -> Z -> result (ndarray Q).
Variable np_exp : Q -> Q.

(** [segm_postprocess(box, raw_cls_mask, im_h, im_w)], lines 39-53.  The
    padded and resized masks are local values; [im_mask] is a new array that
    is filled in place and returned. *)
Definition segm_postprocess (box : Box) (raw_cls_mask : ndarray Q)
    (im_h im_w : nat) : M loc :=
  (raw_cls_mask <- lift (np_pad1 raw_cls_mask) ;;
   let shape0 := Qnat (nth 0 (shape raw_cls_mask) 0%nat) in
   scale <- lift (if Qeq_bool (shape0 - 2) 0 then Raise ZeroDivisionError
                  else Ok (shape0 / (shape0 - 2))) ;;
   let extended_box := expand_box box scale in
   let e0 := Qtrunc (b0 extended_box) in
   let e1 := Qtrunc (b1 extended_box) in
   let e2 := Qtrunc (b2 extended_box) in
   let e3 := Qtrunc (b3 extended_box) in
   let w := Z.max (e2 - e0 + 1) 1 in
   let h := Z.max (e3 - e1 + 1) 1 in
   let x0 := int_clip e0 0 (Z.of_nat im_w) in
   let y0 := int_clip e1 0 (Z.of_nat im_h) in
   let x1 := int_clip (e2 + 1) 0 (Z.of_nat im_w) in
   let y1 := int_clip (e3 + 1) 0 (Z.of_nat im_h) in
   resized <- lift (cv2_resize raw_cls_mask w h) ;;
   let mask := binarize resized in
   im_mask <- alloc (AMask (np_zeros2 im_h im_w)) ;;
   src <- lift (slice2 0%Z mask (y0 - e1) (y1 - e1) (x0 - e0) (x1 - e0)) ;;
   cur <- load_mask im_mask ;;
   new <- lift (assign_slice2 0%Z cur y0 y1 x0 x1 src) ;;
   _ <- write im_mask (AMask new) ;;
   ret im_mask)%store.

(** [mask_rcnn_postprocess(outputs, scale_x, scale_y, frame_height,
    frame_width, input_height, input_width, conf_threshold)], lines 56-75.
    [outputs] maps the output names to the arrays the caller owns.  The
    result is the tuple [(scores, classes, boxes, masks)]: three new arrays
    and a list of mask arrays. *)
Definition mask_rcnn_postprocess (outputs : list (String.string * loc))
    (scale_x scale_y : Q) (frame_height frame_width : nat)
    (input_height input_width : nat) (conf_threshold : Q)
  : M (loc * loc * loc * list loc) :=
  (boxes <- lift (dict_get outputs "boxes"%string) ;;
   b <- load_boxes boxes ;;
   _ <- write boxes (ABoxes (map (scale_x_row scale_x) b)) ;;
   b <- load_boxes boxes ;;
   _ <- write boxes (ABoxes (map (scale_y_row scale_y) b)) ;;
   scores_l <- lift (dict_get outputs "scores"%string) ;;
   scores <- load_vec scores_l ;;
   classes_l <- lift (dict_get outputs "classes"%string) ;;
   classes_f <- load_vec classes_l ;;
   let classes := map astype_uint32 classes_f in
   raw_masks_l <- lift (dict_get outputs "raw_masks"%string) ;;
   raw_masks <- load_tensor raw_masks_l ;;
   b <- load_boxes boxes ;;
   masks <- mapM (fun '(box, cls, raw_mask) =>
                    raw_cls_mask <- lift (index0 raw_mask (Z.to_nat cls)) ;;
                    segm_postprocess box raw_cls_mask frame_height frame_width)
                 (zip3 b classes (subarrays raw_masks)) ;;
   let detections_filter := map (fun s => Qlt_bool conf_threshold s) scores in
   scores' <- alloc (AVec (bool_select scores detections_filter)) ;;
   classes' <- lift (np_bool_index classes detections_filter) ;;
   classes' <- alloc (AIVec classes') ;;
   boxes' <- lift (np_bool_index b detections_filter) ;;
   boxes' <- alloc (ABoxes boxes') ;;
   let masks := bool_select masks detections_filter in
   ret (scores', classes', boxes', masks))%store.


(** One round of the [for cls in range(1, num_classes)] loop, lines 90-106,
    on the three lists it appends to. *)
Definition yolact_class_step (boxes : list Box) (conf : ndarray Q)
    (frame_height frame_width : nat) (conf_threshold : Q)
    (acc : list (list nat) * list (list Z) * list (list Q)) (cls : nat)
  : result (list (list nat) * list (list Z) * list (list Q)) :=
  let '(idx_lst, cls_lst, scr_lst) := acc in
  let cls_scores := row2 0 conf cls in
  let idx := seq 0 (length cls_scores) in
  let conf_mask := map (fun s => Qlt_bool conf_threshold s) cls_scores in
  let cls_scores := bool_select cls_scores conf_mask in
  let idx := bool_select idx conf_mask in
  if (length cls_scores =? 0)%nat then Ok acc
  else
    (sel <- take boxes idx ;;
     let '(x1, x2) :=
       sanitize_coordinates (map b0 sel) (map b2 sel) (Qnat frame_width) 0 0 in
     let '(y1, y2) :=
       sanitize_coordinates (map b1 sel) (map b3 sel) (Qnat frame_height) 0 0 in
     let keep := nms x1 y1 x2 y2 cls_scores (1 # 2) false None in
     Ok (idx_lst ++ [map (fun i => nth i idx 0%nat) keep],
         cls_lst ++ [repeat (Z.of_nat cls) (length keep)],
         scr_lst ++ [gather cls_scores keep]))%result.

Fixpoint yolact_class_loop (boxes : list Box) (conf : ndarray Q)
    (frame_height frame_width : nat) (conf_threshold : Q)
    (acc : list (list nat) * list (list Z) * list (list Q))
    (classes : list nat)
  : result (list (list nat) * list (list Z) * list (list Q)) :=
  match classes with
  | [] => Ok acc
  | cls :: rest =>
      (acc' <- yolact_class_step boxes conf frame_height frame_width
                 conf_threshold acc cls ;;
       yolact_class_loop boxes conf frame_height frame_width conf_threshold
         acc' rest)%result
  end.

(** One round of the [for mask_id, mask in enumerate(masks)] loop, lines
    218-228: the map is resized and binarized, a window of it is pasted
    into a new canvas of zeros, and a [uint8] copy of the canvas is what the
    loop collects. *)
Definition yolact_mask_step (boxes : loc) (x1 y1 x2 y2 : list Z) (w h : nat)
    (it : nat * ndarray Q) : M loc :=
  let '(mask_id, mask) := it in
  (mask <- lift (cv2_resize mask (Z.of_nat w) (Z.of_nat h)) ;;
   let mask := binarize mask in
   b <- load_boxes boxes ;;
   bx <- lift (py_index b mask_id) ;;
   let b_x1 := Qceiling (b0 bx) in
   let b_y1 := Qceiling (b1 bx) in
   let b_x2 := Qceiling (b2 bx) in
   let b_y2 := Qceiling (b3 bx) in
   im_mask <- alloc (AMask (np_zeros2 h w)) ;;
   y2m <- lift (py_index y2 mask_id) ;;
   y1m <- lift (py_index y1 mask_id) ;;
   let height := Z.max (b_y2 - b_y1) (y2m - y1m) in
   x2m <- lift (py_index x2 mask_id) ;;
   x1m <- lift (py_index x1 mask_id) ;;
   let width := Z.max (b_x2 - b_x1) (x2m - x1m) in
   src <- lift (slice2 0%Z mask y1m (y1m + height) x1m (x1m + width)) ;;
   cur <- load_mask im_mask ;;
   new <- lift (assign_slice2 0%Z cur b_y1 (b_y1 + height)
                  b_x1 (b_x1 + width) src) ;;
   _ <- write im_mask (AMask new) ;;
   cur <- load_mask im_mask ;;
   alloc (AMask cur))%store.

(** Lines 207-230 of [yolact_segm_postprocess], after the optional
    pre-filter.  [boxes] is updated in place (lines 214-215) and returned;
    [score] and [classes] are returned as they are. *)
Definition yolact_segm_body (boxes : loc) (masks : ndarray Q)
    (score classes : loc) (proto_data : ndarray Q) (w h : nat)
    (shift_x shift_y : Q) : M segm_return :=
  (masks <- lift (np_matmul_T proto_data masks) ;;
   let masks := map_arr (fun v => 1 / (1 + np_exp (- v))) masks in
   b <- load_boxes boxes ;;
   masks <- lift (crop_mask masks b 1) ;;
   masks <- lift (np_transpose3 0 masks (2, 0, 1)%nat) ;;
   let '(x1, x2) :=
     sanitize_coordinates (map b0 b) (map b2 b) (Qnat w) 0 0 in
   let x1 := map Qceiling x1 in
   let x2 := map Qceiling x2 in
   let '(y1, y2) :=
     sanitize_coordinates (map b1 b) (map b3 b) (Qnat h) 0 0 in
   let y1 := map Qceiling y1 in
   let y2 := map Qceiling y2 in
   let '(nx1, nx2) :=
     sanitize_coordinates (map b0 b) (map b2 b) (Qnat w) shift_x 0 in
   _ <- write boxes (ABoxes (set_cols_x b nx1 nx2)) ;;
   b <- load_boxes boxes ;;
   let '(ny1, ny2) :=
     sanitize_coordinates (map b1 b) (map b3 b) (Qnat h) shift_y 0 in
   _ <- write boxes (ABoxes (set_cols_y b ny1 ny2)) ;;
   ready_masks <-
     mapM (yolact_mask_step boxes x1 y1 x2 y2 w h)
          (combine (seq 0 (length (subarrays masks))) (subarrays masks)) ;;
   ret (RetTuple boxes score classes ready_masks))%store.

(** [yolact_segm_postprocess(boxes, masks, score, classes, proto_data, w, h,
    score_threshold=0, shift_x=0, shift_y=0)], lines 173-230.  [boxes],
    [score] and [classes] are passed by reference; [masks] (the mask
    coefficients) and [proto_data] are only read. *)
Definition yolact_segm_postprocess (boxes : loc) (masks : ndarray Q)
    (score classes : loc) (proto_data : ndarray Q) (w h : nat)
    (score_threshold shift_x shift_y : Q) : M segm_return :=
  (if Qlt_bool 0 score_threshold
   then
     s <- load_vec score ;;
     let keep := map (fun v => Qlt_bool score_threshold v) s in
     score' <- alloc (AVec (bool_select s keep)) ;;
     b <- load_boxes boxes ;;
     b' <- lift (np_bool_index b keep) ;;
     boxes' <- alloc (ABoxes b') ;;
     masks' <- lift (bool_rows 0 masks keep) ;;
     c <- load_ivec classes ;;
     c' <- lift (np_bool_index c keep) ;;
     classes' <- alloc (AIVec c') ;;
     if (length (bool_select s keep) =? 0)%nat
     then ret (RetList (concat (repeat [] 4)))
     else yolact_segm_body boxes' masks' score' classes' proto_data w h
            shift_x shift_y
   else
     yolact_segm_body boxes masks score classes proto_data w h
       shift_x shift_y)%store.

(** [yolact_postprocess(outputs, scale_x, scale_y, frame_height,
    frame_width, input_height, input_width, conf_threshold)], lines 78-124.
    The result is [(scores, classes, boxes, masks)]; [masks] is the list of
    masks of [yolact_segm_postprocess] or, when that call is skipped, the
    array of selected mask coefficients. *)
Definition yolact_postprocess (outputs : list (String.string * loc))
    (scale_x scale_y : Q) (frame_height frame_width : nat)
    (input_height input_width : nat) (conf_threshold : Q)
  : M (loc * loc * loc * (list loc + loc)) :=
  (boxes_l <- lift (dict_get outputs "boxes"%string) ;;
   boxes3 <- load_boxes3 boxes_l ;;
   boxes <- lift (py_index boxes3 0) ;;
   conf_l <- lift (dict_get outputs "conf"%string) ;;
   conf4 <- load_tensor conf_l ;;
   conf <- lift (index0 conf4 0) ;;
   conf <- lift (np_transpose2 0 conf) ;;
   masks_l <- lift (dict_get outputs "mask"%string) ;;
   masks3 <- load_tensor masks_l ;;
   masks <- lift (index0 masks3 0) ;;
   proto_l <- lift (dict_get outputs "proto"%string) ;;
   proto4 <- load_tensor proto_l ;;
   proto <- lift (index0 proto4 0) ;;
   let num_classes := nth 0 (shape conf) 0%nat in
   shift_x <- lift (if (frame_width =? 0)%nat then Raise ZeroDivisionError
                    else Ok ((Qnat input_width - Qnat frame_width * scale_x)
                             / Qnat frame_width)) ;;
   shift_y <- lift (if (frame_height =? 0)%nat then Raise ZeroDivisionError
                    else Ok ((Qnat input_height - Qnat frame_height * scale_y)
                             / Qnat frame_height)) ;;
   lsts <- lift (yolact_class_loop boxes conf frame_height frame_width
                   conf_threshold ([], [], []) (seq 1 (num_classes - 1))) ;;
   let '(idx_lst, cls_lst, scr_lst) := lsts in
   idx <- lift (np_concatenate idx_lst) ;;
   classes <- lift (np_concatenate cls_lst) ;;
   scores <- lift (np_concatenate scr_lst) ;;
   let idx2 := rev (argsort scores) in
   let scores := gather scores idx2 in
   let idx := map (fun i => nth i idx 0%nat) idx2 in
   let classes := map (fun i => nth i classes 0%Z) idx2 in
   boxes <- lift (take boxes idx) ;;
   masks <- lift (take_rows 0 masks idx) ;;
   boxes_l <- alloc (ABoxes boxes) ;;
   scores_l <- alloc (AVec scores) ;;
   classes_l <- alloc (AIVec classes) ;;
   if (0 <? length boxes * 4)%nat
   then
     r <- yolact_segm_postprocess boxes_l masks scores_l classes_l proto
            frame_width frame_height 0 shift_x shift_y ;;
     match r with
     | RetTuple b s c m => ret (s, c, b, inl m)
     | RetList [b; s; c; m] => ret (s, c, b, inr m)
     | RetList _ => lift (Raise ValueError)
     end
   else
     (masks_l <- alloc (ATensor masks) ;;
      ret (scores_l, classes_l, boxes_l, inr masks_l))
  )%store.

End Postprocess.

(** ** Stand-ins for the library functions

    Used to run the postprocessors on examples: nearest-neighbour sampling
    in place of bilinear interpolation, and the second-order expansion of
    the exponential, which is positive everywhere. *)
Definition resize_nearest (src : ndarray Q) (width height : Z)
  : result (ndarray Q) :=
  match shape src with
  | [sh; sw] =>
      if ((0 <? width) && (0 <? height))%Z
      then
        let h := Z.to_nat height in
        let w := Z.to_nat width in
        Ok (mkArr [h; w]
              (map (fun idx =>
                      get 0 src [(nth 0 idx 0 * sh / h); (nth 1 idx 0 * sw / w)]%nat)
                   (indices [h; w])))
      else Raise Cv2Error
  | _ => Raise Cv2Error
  end.

Definition exp_taylor2 (q : Q) : Q := 1 + q + q * q / 2.

(** ** Vocabulary of the statements *)

(** The content [segm_postprocess] leaves in the mask it returns: a canvas
    of zeros of the frame size with the resized, binarized mask pasted into
    the clipped window. *)
Definition segm_mask (cv2_resize : ndarray Q -> Z -> Z -> result (ndarray Q))
    (box : Box) (raw_cls_mask : ndarray Q) (im_h im_w : nat)
  : result (ndarray Z) :=
  (raw_cls_mask <- np_pad1 raw_cls_mask ;;
   let shape0 := Qnat (nth 0 (shape raw_cls_mask) 0%nat) in
   scale <- (if Qeq_bool (shape0 - 2) 0 then Raise ZeroDivisionError
             else Ok (shape0 / (shape0 - 2))) ;;
   let extended_box := expand_box box scale in
   let e0 := Qtrunc (b0 extended_box) in
   let e1 := Qtrunc (b1 extended_box) in
   let e2 := Qtrunc (b2 extended_box) in
   let e3 := Qtrunc (b3 extended_box) in
   let w := Z.max (e2 - e0 + 1) 1 in
   let h := Z.max (e3 - e1 + 1) 1 in
   let x0 := int_clip e0 0 (Z.of_nat im_w) in
   let y0 := int_clip e1 0 (Z.of_nat im_h) in
   let x1 := int_clip (e2 + 1) 0 (Z.of_nat im_w) in
   let y1 := int_clip (e3 + 1) 0 (Z.of_nat im_h) in
   resized <- cv2_resize raw_cls_mask w h ;;
   src <- slice2 0%Z (binarize resized) (y0 - e1) (y1 - e1) (x0 - e0) (x1 - e0) ;;
   assign_slice2 0%Z (np_zeros2 im_h im_w) y0 y1 x0 x1 src)%result.

(** The raw indices whose score is strictly above the threshold, in
    increasing order. *)
Definition kept_indices (scores : list Q) (conf_threshold : Q) : list nat :=
  filter (fun i => Qlt_bool conf_threshold (nth i scores 0))
         (seq 0 (length scores)).

(** A raw box after both in-place divisions of [mask_rcnn_postprocess]. *)
Definition rescale (scale_x scale_y : Q) (b : Box) : Box :=
  scale_y_row scale_y (scale_x_row scale_x b).

(** [m] has the frame shape and is zero outside the window of rows
    [r0 .. r1 - 1] and columns [c0 .. c1 - 1]. *)
Definition zero_outside (m : ndarray Z) (h w r0 r1 c0 c1 : nat) : Prop :=
  shape m = [h; w] /\
  forall i j, (i < h)%nat -> (j < w)%nat ->
    ~ ((r0 <= i < r1)%nat /\ (c0 <= j < c1)%nat) ->
    get 0%Z m [i; j] = 0%Z.


(** The cell [l] holds a frame-sized mask that is zero outside the window
    [win] = (first row, end row, first column, end column). *)
Definition mask_window_at (h w : nat) (win : nat * nat * nat * nat)
    (l : loc) (st : store) : Prop :=
  exists m, nth_error st l = Some (AMask m) /\
    zero_outside m h w (fst (fst (fst win))) (snd (fst (fst win)))
                 (snd (fst win)) (snd win).




(** The mask of one zipped triple of [mask_rcnn_postprocess]'s loop:
    [raw_mask[cls, ...]] goes through [segm_postprocess]. *)
Definition rcnn_mask_of
    (cv2_resize : ndarray Q -> Z -> Z -> result (ndarray Q))
    (im_h im_w : nat) (x : Box * Z * ndarray Q) : result (ndarray Z) :=
  let '(box, cls, raw_mask) := x in
  (raw_cls_mask <- index0 raw_mask (Z.to_nat cls) ;;
   segm_mask cv2_resize box raw_cls_mask im_h im_w)%result.

(** What the class loop of [yolact_postprocess] maintains: the three lists
    concatenate to arrays of one length, and no class contributes an empty
    array. *)
Definition lists_ok (acc : list (list nat) * list (list Z) * list (list Q))
  : Prop :=
  let '(idx_lst, cls_lst, scr_lst) := acc in
  length (concat idx_lst) = length (concat cls_lst) /\
  length (concat idx_lst) = length (concat scr_lst) /\
  (idx_lst = [] \/ concat idx_lst <> []).

(** ** Example inputs *)

(** A region-proposal output with one detection: box [(2,2,6,6)] in model
    input space, score [0.9], class [1], and a [2 x 2 x 2] block of raw
    masks whose class-1 channel is all ones; [empty_masks] replaces the raw
    masks by an array without entries. *)
Definition rcnn_store (empty_masks : bool) : store :=
  [ ABoxes [mkBox 2 2 6 6];
    AVec [9 # 10];
    AVec [1];
    ATensor (if empty_masks then mkArr [0; 2; 2; 2]%nat []
             else mkArr [1; 2; 2; 2]%nat [0; 0; 0; 0; 1; 1; 1; 1]) ].

Definition rcnn_outputs : list (String.string * loc) :=
  [ ("boxes"%string, 0%nat); ("scores"%string, 1%nat);
    ("classes"%string, 2%nat); ("raw_masks"%string, 3%nat) ].

(** A prototype-mask output with two candidate boxes, one foreground class
    with confidences [c1] and [c2] (the background confidence is [0.1]),
    one mask coefficient per box and a [2 x 2] prototype map of ones. *)
Definition yolact_store (c1 c2 : Q) : store :=
  [ ABoxes3 [[mkBox 0 0 (1 # 2) (1 # 2); mkBox (1 # 2) (1 # 2) 1 1]];
    ATensor (mkArr [1; 2; 2]%nat [1 # 10; c1; 1 # 10; c2]);
    ATensor (mkArr [1; 2; 1]%nat [1; -1]);
    ATensor (mkArr [1; 2; 2; 1]%nat [1; 1; 1; 1]) ].

Definition yolact_outputs : list (String.string * loc) :=
  [ ("boxes"%string, 0%nat); ("conf"%string, 1%nat);
    ("mask"%string, 2%nat); ("proto"%string, 3%nat) ].

(** No foreground class of [outputs['conf']] has a score strictly above the
    threshold: every row [conf[cls, :]] with [cls >= 1] of the transposed
    confidences is bounded by it. *)
Definition no_detection (outputs : list (String.string * loc)) (st : store)
    (conf_threshold : Q) : Prop :=
  forall (l : loc) conf3 conf0 conf cls,
    dict_get outputs "conf"%string = Ok l ->
    nth_error st l = Some (ATensor conf3) ->
    index0 conf3 0 = Ok conf0 ->
    np_transpose2 0 conf0 = Ok conf ->
    (1 <= cls)%nat ->
    Forall (fun v => v <= conf_threshold) (row2 0 conf cls).

(** Two detections handed to [yolact_segm_postprocess]: their boxes (in
    relative coordinates), scores and classes; [segm_coeffs] holds one mask
    coefficient per detection and [segm_proto] a [2 x 2] prototype map of
    ones. *)
Definition segm_store : store :=
  [ ABoxes [mkBox 0 0 (1 # 2) (1 # 2); mkBox (1 # 2) (1 # 2) 1 1];
    AVec [9 # 10; 3 # 10];
    AIVec [1; 2]%Z ].

Definition segm_coeffs : ndarray Q := mkArr [2; 1]%nat [1; 1].
Definition segm_proto : ndarray Q := mkArr [2; 2; 1]%nat [1; 1; 1; 1].

(** One row of [boxes] after lines 214-215 of [yolact_segm_postprocess]:
    each coordinate is shifted by half the shift, scaled to the frame and
    clipped to it (the padding is 0). *)
Definition sanitize_box (w h : nat) (shift_x shift_y : Q) (b : Box) : Box :=
  mkBox (np_clip ((b0 b + shift_x / 2) * Qnat w - 0) 0 (Qnat w))
        (np_clip ((b1 b + shift_y / 2) * Qnat h - 0) 0 (Qnat h))
        (np_clip ((b2 b + shift_x / 2) * Qnat w + 0) 0 (Qnat w))
        (np_clip ((b3 b + shift_y / 2) * Qnat h + 0) 0 (Qnat h)).

(** The window one round of the mask loop of [yolact_segm_postprocess]
    writes, lines 221-227: [bx] is the row of the rewritten [boxes], and
    [x1], [y1], [x2], [y2] are the entries of the integer arrays of lines
    212-213.  The result is (first row, end row, first column, end column)
    of the slice [im_mask[b_y1:b_y1 + height, b_x1:b_x1 + width]]. *)
Definition paste_window (w h : nat) (bx : Box) (x1 y1 x2 y2 : Z)
  : nat * nat * nat * nat :=
  let b_x1 := Qceiling (b0 bx) in
  let b_y1 := Qceiling (b1 bx) in
  let b_x2 := Qceiling (b2 bx) in
  let b_y2 := Qceiling (b3 bx) in
  let height := Z.max (b_y2 - b_y1) (y2 - y1) in
  let width := Z.max (b_x2 - b_x1) (x2 - x1) in
  (py_bound h b_y1, py_bound h (b_y1 + height),
   py_bound w b_x1, py_bound w (b_x1 + width)).

(** The same window, from the row [b] of [boxes] as it was passed in: lines
    212-213 sanitize it without a shift, lines 214-215 with the shifts. *)
Definition yolact_window (w h : nat) (shift_x shift_y : Q) (b : Box)
  : nat * nat * nat * nat :=
  let u := sanitize_box w h 0 0 b in
  paste_window w h (sanitize_box w h shift_x shift_y b)
    (Qceiling (b0 u)) (Qceiling (b1 u)) (Qceiling (b2 u)) (Qceiling (b3 u)).


(** [fl] rounds as float64 does: the result of an operation whose exact
    value [x] is at most [omega] in magnitude is [fl x], with a relative
    error of at most [u] or, near zero, an absolute error of at most [eta].
    For binary64 with rounding to nearest, [u] is [2^-53], [eta] is
    [2^-1075] and [omega] is the largest finite number. *)
Definition rounds_to (fl : Q -> Q) (u eta omega : Q) : Prop :=
  0 <= u <= 1 /\ 0 <= eta /\
  forall x, Qabs x <= omega -> Qabs (fl x - x) <= u * Qabs x + eta.

(** How far rounding can move an edge of [expand_box]'s result along one
    axis, for the two coordinates [p] and [r] of the box on that axis and
    the scale [s]. *)
Definition rounding_bound (u eta p r s : Q) : Q :=
  8 * (u * (Qabs p + Qabs r) + eta) * (1 + Qabs s).

(** A rounding used in the examples: down to a multiple of [1/1024]. *)
Definition round_down_1024 (x : Q) : Q := inject_Z (Qfloor (x * 1024)) / 1024.

(** Magnitudes that float64 handles without overflow and without underflow
    in the sums and products of two of them: at most [2^500], and for an
    extent at least [2^-500]. *)
Definition no_overflow (q : Q) : Prop := Qabs q <= inject_Z (2 ^ 500).
Definition not_tiny (q : Q) : Prop := 1 / inject_Z (2 ^ 500) <= q.

(** A box that lies in a frame of [w x h] pixels. *)
Definition in_frame (w h : nat) (b : Box) : Prop :=
  (0 <= b0 b <= Qnat w /\ 0 <= b2 b <= Qnat w) /\
  (0 <= b1 b <= Qnat h /\ 0 <= b3 b <= Qnat h).

(** The order [argsort] sorts by: ascending score, ties by ascending index. *)
Definition score_lt (scores : list Q) (a c : nat) : Prop :=
  at_ scores a < at_ scores c \/ (at_ scores a == at_ scores c /\ (a < c)%nat).

(* ================================================================== *)
(** * Properties *)
(* ================================================================== *)

(** ** Geometry *)

Lemma np_clip_bounds (a lo hi : Q) : lo <= hi -> lo <= np_clip a lo hi <= hi.
Proof.
  intros Hle. unfold np_clip.
  destruct (Q.max_spec a lo) as [[? Hm]|[? Hm]];
  destruct (Q.min_spec hi (Qmax a lo)) as [[? Hn]|[? Hn]];
  rewrite Hn; try rewrite Hm in *; split; lra.
Qed.

(** *** Comparisons of float64 *)

Lemma SFcompare_antisym a b :
  SFcompare b a = option_map CompOpp (SFcompare a b).
Proof.
  destruct a as [sa|sa| |sa ma ea], b as [sb|sb| |sb mb eb]; simpl;
    try reflexivity;
    try (destruct sa; reflexivity); try (destruct sb; reflexivity);
    try (destruct sa, sb; reflexivity).
  f_equal. destruct sa, sb; try reflexivity.
  all: rewrite (Z.compare_antisym ea eb); destruct (Z.compare ea eb); simpl;
    try reflexivity.
  - exact (f_equal CompOpp (Pos.compare_antisym ma mb)).
  - exact (Pos.compare_antisym ma mb).
Qed.

Lemma is_nan_false_compare a :
  is_nan a = false -> SFcompare (Prim2SF a) (Prim2SF a) = Some Eq.
Proof.
  unfold is_nan. intros H. apply negb_false_iff in H.
  rewrite FloatAxioms.eqb_spec in H. unfold SFeqb in H.
  destruct (SFcompare _ _) as [[ | | ]|]; congruence.
Qed.

Lemma not_nan_comparable a b :
  is_nan a = false -> is_nan b = false ->
  exists c, SFcompare (Prim2SF a) (Prim2SF b) = Some c.
Proof.
  intros Ha Hb. apply is_nan_false_compare in Ha, Hb.
  destruct (Prim2SF a), (Prim2SF b); simpl in *; try discriminate; eauto.
Qed.

Lemma f64_leb_refl a : is_nan a = false -> (a <=? a)%float = true.
Proof.
  intros H. rewrite FloatAxioms.leb_spec. unfold SFleb.
  now rewrite (is_nan_false_compare a H).
Qed.

Lemma f64_ltb_leb a b : (a <? b)%float = true -> (a <=? b)%float = true.
Proof.
  rewrite FloatAxioms.ltb_spec, FloatAxioms.leb_spec. unfold SFltb, SFleb.
  destruct (SFcompare _ _) as [[ | | ]|]; congruence.
Qed.

Lemma f64_not_ltb_leb a b :
  is_nan a = false -> is_nan b = false ->
  (a <? b)%float = false -> (b <=? a)%float = true.
Proof.
  intros Ha Hb. rewrite FloatAxioms.ltb_spec, FloatAxioms.leb_spec.
  unfold SFltb, SFleb.
  rewrite (SFcompare_antisym (Prim2SF a) (Prim2SF b)).
  destruct (not_nan_comparable a b Ha Hb) as [c ->]. simpl.
  destruct c; simpl; congruence.
Qed.

Lemma SFcompare_not_nan a b c :
  SFcompare a b = Some c ->
  SFcompare a a = Some Eq /\ SFcompare b b = Some Eq.
Proof.
  assert (R : forall x, x <> S754_nan -> SFcompare x x = Some Eq).
  { intros [s|s| |s m e] Hx; simpl; try congruence;
      try (destruct s; reflexivity).
    destruct s; rewrite Z.compare_refl, Pos.compare_cont_refl; reflexivity. }
  intros H. split; apply R; intros E; rewrite E in H;
    [|destruct a]; discriminate.
Qed.

Lemma f64_leb_not_nan a b :
  (a <=? b)%float = true -> is_nan a = false /\ is_nan b = false.
Proof.
  rewrite FloatAxioms.leb_spec. unfold SFleb, is_nan.
  rewrite !FloatAxioms.eqb_spec. unfold SFeqb.
  destruct (SFcompare (Prim2SF a) (Prim2SF b)) as [c|] eqn:E; [|discriminate].
  intros _. destruct (SFcompare_not_nan _ _ _ E) as [-> ->]. now split.
Qed.

Lemma f64_clip_nan t lo hi : is_nan t = true -> is_nan (f64_clip t lo hi) = true.
Proof.
  intros H. unfold f64_clip, f64_maximum, f64_minimum. rewrite H.
  destruct (is_nan hi) eqn:E; [exact E|]. now rewrite H.
Qed.

Lemma f64_clip_range t hi :
  is_nan t = false -> (0 <=? hi)%float = true ->
  (0 <=? f64_clip t 0 hi)%float = true /\ (f64_clip t 0 hi <=? hi)%float = true.
Proof.
  intros Ht Hhi. destruct (f64_leb_not_nan _ _ Hhi) as [H0 Hn].
  unfold f64_clip, f64_maximum, f64_minimum. rewrite Ht, H0, Hn.
  destruct (t <? 0)%float eqn:E1.
  - rewrite H0. destruct (0 <? hi)%float eqn:E2.
    + split; [now apply f64_leb_refl|exact Hhi].
    + split; [exact Hhi|now apply f64_leb_refl].
  - rewrite Ht. destruct (t <? hi)%float eqn:E2.
    + split; [now apply f64_not_ltb_leb|now apply f64_ltb_leb].
    + split; [exact Hhi|now apply f64_leb_refl].
Qed.

(** C8 (as stated, refuted).  With the negative [img_size = -1] the clip
    interval is empty and both results are [-1], which is below [0].  With
    the finite inputs [_x1 = _x2 = [1.7e308]], [shift = 1.7e308] and
    [img_size = 0] the sum [_x1 + shift / 2] overflows to infinity, its
    product with [0] is NaN, and NaN is what both results are. *)
Lemma sanitize_coordinates_negative_size :
  sanitize_coordinates_f64 [0%float] [0%float] (-1)%float 0%float 0%float
    = ([(-1)%float], [(-1)%float]) /\
  (0 <=? -1)%float = false /\
  is_finite 1.7e308%float = true /\
  exists a c,
    sanitize_coordinates_f64 [1.7e308%float] [1.7e308%float] 0%float
      1.7e308%float 0%float = ([a], [c]) /\
    is_nan a = true /\ is_nan c = true /\
    (0 <=? a)%float = false /\ (0 <=? c)%float = false.
Proof.
  split; [vm_compute; reflexivity|]. split; [vm_compute; reflexivity|].
  split; [vm_compute; reflexivity|].
  do 2 eexists. split; [vm_compute; reflexivity|].
  repeat split; vm_compute; reflexivity.
Qed.

(** C8 (amended).  On float64, for every [img_size >= 0] and all [_x1],
    [_x2], [shift], [padding]: a returned coordinate lies in
    [[0, img_size]] when the value that is clipped, [(v + shift / 2) *
    img_size - padding] for [x1] and [(v + shift / 2) * img_size + padding]
    for [x2], is not NaN, and it is NaN when that value is.  [x1' <= x2'] is
    not guaranteed: on [(0.8, 0.2)] with size [10] the result is [(8, 2)]. *)
Theorem sanitize_coordinates_in_range
    (_x1 _x2 : list float) (img_size shift padding : float) :
  (0 <=? img_size)%float = true ->
  Forall2 (fun v r =>
             in_range_or_nan ((v + shift / 2) * img_size - padding)%float
                             r img_size)
          _x1 (fst (sanitize_coordinates_f64 _x1 _x2 img_size shift padding)) /\
  Forall2 (fun v r =>
             in_range_or_nan ((v + shift / 2) * img_size + padding)%float
                             r img_size)
          _x2 (snd (sanitize_coordinates_f64 _x1 _x2 img_size shift padding)) /\
  (exists a c,
     sanitize_coordinates_f64 [0.8%float] [0.2%float] 10%float 0%float 0%float
       = ([a], [c]) /\ (c <? a)%float = true).
Proof.
  intros Hs. unfold sanitize_coordinates_f64; cbn [fst snd].
  assert (R : forall t, in_range_or_nan t (f64_clip t 0 img_size) img_size).
  { intros t. unfold in_range_or_nan. destruct (is_nan t) eqn:E.
    - now apply f64_clip_nan.
    - now apply f64_clip_range. }
  repeat split.
  - rewrite map_map. induction _x1; simpl; constructor; auto.
  - rewrite map_map. induction _x2; simpl; constructor; auto.
  - do 2 eexists. split; [reflexivity|]. vm_compute. reflexivity.
Qed.

Lemma sanitize_coordinates_in_range_witness :
  Forall2 (fun v r => in_range_or_nan ((v + 0 / 2) * 10 - 0)%float r 10%float)
          [0.8%float]
          (fst (sanitize_coordinates_f64 [0.8%float] [0.2%float] 10%float
                  0%float 0%float)) /\
  Forall2 (fun v r => in_range_or_nan ((v + 0 / 2) * 10 + 0)%float r 10%float)
          [0.2%float]
          (snd (sanitize_coordinates_f64 [0.8%float] [0.2%float] 10%float
                  0%float 0%float)).
Proof.
  destruct (sanitize_coordinates_in_range [0.8%float] [0.2%float] 10%float
              0%float 0%float) as [H1 [H2 _]].
  - vm_compute. reflexivity.
  - split; assumption.
Defined.

Example nms_ex1 :
  nms [0;0] [0;0] [1;1] [1;1] [1#2; 1#2] (1#2) false None = [1%nat].
Proof. reflexivity. Qed.

(** ** Non-maximum suppression *)

Section NmsFacts.
Variables x1 y1 x2 y2 : list Q.
Variable thresh : Q.
Variable include_boundaries : bool.

Abbreviation ov := (overlap x1 y1 x2 y2 include_boundaries).
Abbreviation loop := (nms_loop x1 y1 x2 y2 thresh include_boundaries).
Abbreviation keeps i := (fun j => Qle_bool (ov i j) thresh).

Lemma intersection_sym i j :
  intersection x1 y1 x2 y2 include_boundaries i j ==
  intersection x1 y1 x2 y2 include_boundaries j i.
Proof.
  unfold intersection.
  rewrite (Q.max_comm (at_ x1 i)), (Q.max_comm (at_ y1 i)).
  rewrite (Q.min_comm (at_ x2 i)), (Q.min_comm (at_ y2 i)).
  reflexivity.
Qed.

Lemma overlap_sym i j : ov i j == ov j i.
Proof.
  unfold overlap.
  assert (Hb : areas x1 y1 x2 y2 include_boundaries i +
               areas x1 y1 x2 y2 include_boundaries j -
               intersection x1 y1 x2 y2 include_boundaries i j ==
               areas x1 y1 x2 y2 include_boundaries j +
               areas x1 y1 x2 y2 include_boundaries i -
               intersection x1 y1 x2 y2 include_boundaries j i).
  { rewrite (intersection_sym i j). ring. }
  rewrite <- (Qeqb_comp _ _ Hb 0 0 (Qeq_refl 0)).
  destruct (Qeq_bool _ 0); [reflexivity|].
  rewrite Hb, (intersection_sym i j). reflexivity.
Qed.

(** Boxes with the same coordinates are interchangeable for [overlap]. *)
Lemma overlap_same_box k i j :
  at_ x1 i == at_ x1 j -> at_ y1 i == at_ y1 j ->
  at_ x2 i == at_ x2 j -> at_ y2 i == at_ y2 j ->
  ov k i == ov k j.
Proof.
  intros E1 E2 E3 E4.
  assert (Ha : areas x1 y1 x2 y2 include_boundaries i ==
               areas x1 y1 x2 y2 include_boundaries j).
  { unfold areas. rewrite E1, E2, E3, E4. reflexivity. }
  assert (Hi : intersection x1 y1 x2 y2 include_boundaries k i ==
               intersection x1 y1 x2 y2 include_boundaries k j).
  { unfold intersection. rewrite E1, E2, E3, E4. reflexivity. }
  unfold overlap.
  assert (Hb : areas x1 y1 x2 y2 include_boundaries k +
               areas x1 y1 x2 y2 include_boundaries i -
               intersection x1 y1 x2 y2 include_boundaries k i ==
               areas x1 y1 x2 y2 include_boundaries k +
               areas x1 y1 x2 y2 include_boundaries j -
               intersection x1 y1 x2 y2 include_boundaries k j).
  { rewrite Ha, Hi. reflexivity. }
  rewrite (Qeqb_comp _ _ Hb 0 0 (Qeq_refl 0)).
  destruct (Qeq_bool _ 0); [reflexivity|].
  rewrite Hb, Hi. reflexivity.
Qed.

(** Every kept index was in [order]. *)
Lemma nms_loop_incl order : forall k, In k (loop order) -> In k order.
Proof.
  funelim (nms_loop x1 y1 x2 y2 thresh include_boundaries order);
    intros k Hk; [now destruct Hk|].
  destruct Hk as [->|Hk]; [now left|right].
  apply H in Hk. apply filter_In in Hk. tauto.
Qed.

Lemma nms_loop_length order : (length (loop order) <= length order)%nat.
Proof.
  funelim (nms_loop x1 y1 x2 y2 thresh include_boundaries order);
    simpl; [lia|].
  pose proof (filter_length_le (keeps i) rest). lia.
Qed.

(** Kept boxes are pairwise compatible: a box kept later overlaps every
    box kept earlier by at most [thresh]. *)
Lemma nms_loop_pairwise order :
  ForallOrdPairs (fun i j => ov i j <= thresh) (loop order).
Proof.
  funelim (nms_loop x1 y1 x2 y2 thresh include_boundaries order);
    constructor.
  - apply Forall_forall. intros k Hk.
    apply nms_loop_incl in Hk. apply filter_In in Hk.
    apply Qle_bool_iff. tauto.
  - assumption.
Qed.

(** On a list whose members are pairwise compatible nothing is removed. *)
Lemma nms_loop_fixpoint order :
  (forall a c, In a order -> In c order -> a <> c -> ov a c <= thresh) ->
  NoDup order ->
  loop order = order.
Proof.
  induction order as [|i rest IH]; intros Hc Hnd; simp nms_loop; [reflexivity|].
  inversion Hnd as [|? ? Hni Hnd']; subst.
  assert (Hf : filter (keeps i) rest = rest).
  { apply forallb_filter_id. apply forallb_forall. intros k Hk.
    apply Qle_bool_iff. apply Hc; [now left|now right|].
    intros ->. contradiction. }
  rewrite Hf. f_equal. apply IH; [|assumption].
  intros a c Ha Hc'. apply Hc; now right.
Qed.

(** If [A] has to come before [B] in [order], [A] and [B] are the same
    box, and that box overlaps itself by more than [thresh], then [B] is
    never kept. *)
Lemma nms_loop_duplicate (P : nat -> nat -> Prop) (A B : nat) order :
  StronglySorted P order ->
  (In B order -> In A order) ->
  A <> B -> ~ P B A ->
  (forall k, ov k A == ov k B) ->
  thresh < ov A B ->
  ~ In B (loop order).
Proof.
  intros Hs Hin Hne Hasym Hsame Hov.
  revert Hs Hin.
  funelim (nms_loop x1 y1 x2 y2 thresh include_boundaries order);
    intros Hs Hin HB; [assumption|].
  apply StronglySorted_inv in Hs. destruct Hs as [Hs Hall].
  destruct HB as [->|HB].
  - (* the head is B: A is behind it, against the order *)
    destruct (Hin (or_introl eq_refl)) as [E|HA]; [now apply Hne|].
    rewrite Forall_forall in Hall. apply Hasym, Hall, HA.
  - pose proof (nms_loop_incl _ _ HB) as HB'.
    apply filter_In in HB'. destruct HB' as [HBr HBk].
    apply Qle_bool_iff in HBk.
    destruct (Nat.eq_dec i A) as [->|Hi].
    + lra.
    + revert HB. apply (H P A); try assumption.
      * clear - Hs. induction Hs as [|a l Hs IH Ha]; simpl; [constructor|].
        destruct (Qle_bool _ _); [|assumption].
        constructor; [assumption|].
        rewrite Forall_forall in *. intros z Hz.
        apply filter_In in Hz. apply Ha; tauto.
      * intros _. apply filter_In. split.
        -- destruct (Hin (or_intror HBr)) as [E|HA]; [now elim Hi|assumption].
        -- apply Qle_bool_iff. rewrite (Hsame i). assumption.
Qed.
End NmsFacts.

(** *** [argsort] *)

Lemma argsort_insert_perm scores i l :
  Permutation (argsort_insert scores i l) (i :: l).
Proof.
  induction l as [|j l IH]; simpl; [reflexivity|].
  destruct (Qle_bool _ _); [reflexivity|].
  rewrite IH. apply perm_swap.
Qed.

Lemma argsort_seq_perm scores k n :
  Permutation (fold_right (argsort_insert scores) [] (seq k n)) (seq k n).
Proof.
  revert k. induction n as [|n IH]; intros k; simpl; [reflexivity|].
  rewrite argsort_insert_perm. constructor. apply IH.
Qed.

Lemma argsort_perm scores : Permutation (argsort scores) (seq 0 (length scores)).
Proof. apply argsort_seq_perm. Qed.

Lemma argsort_insert_sorted scores i l :
  StronglySorted (score_lt scores) l ->
  Forall (fun j => (i < j)%nat) l ->
  StronglySorted (score_lt scores) (argsort_insert scores i l).
Proof.
  induction l as [|j l IH]; intros Hs Hlt; simpl.
  - repeat constructor.
  - apply StronglySorted_inv in Hs. destruct Hs as [Hs Hj].
    inversion Hlt as [|? ? Hij Hlt']; subst.
    destruct (Qle_bool (at_ scores i) (at_ scores j)) eqn:E.
    + apply Qle_bool_iff in E.
      constructor; [constructor; assumption|].
      assert (Hi : forall z, (i < z)%nat -> at_ scores j <= at_ scores z ->
                             score_lt scores i z).
      { intros z Hz Hjz. unfold score_lt.
        destruct (Qlt_le_dec (at_ scores i) (at_ scores z)); [now left|right].
        split; [lra|assumption]. }
      constructor; [apply Hi; [assumption|lra]|].
      rewrite Forall_forall in *. intros z Hz. apply Hi; [now apply Hlt'|].
      destruct (Hj z Hz) as [?|[? _]]; lra.
    + assert (E' : at_ scores j < at_ scores i).
      { destruct (Qlt_le_dec (at_ scores j) (at_ scores i)) as [?|Hle];
          [assumption|]. apply Qle_bool_iff in Hle. congruence. }
      constructor; [now apply IH|].
      apply (Permutation_Forall (Permutation_sym (argsort_insert_perm scores i l))).
      constructor; [now left|assumption].
Qed.

Lemma argsort_sorted scores : StronglySorted (score_lt scores) (argsort scores).
Proof.
  unfold argsort. generalize 0%nat as k.
  induction (length scores) as [|n IH]; intros k; simpl; [constructor|].
  apply argsort_insert_sorted; [apply IH|].
  apply (Permutation_Forall (Permutation_sym (argsort_seq_perm scores (S k) n))).
  apply Forall_forall. intros j Hj. apply in_seq in Hj. lia.
Qed.

Lemma StronglySorted_app {A} (R : A -> A -> Prop) l1 l2 :
  StronglySorted R l1 -> StronglySorted R l2 ->
  (forall a c, In a l1 -> In c l2 -> R a c) ->
  StronglySorted R (l1 ++ l2).
Proof.
  induction l1 as [|a l1 IH]; intros H1 H2 H12; simpl; [assumption|].
  apply StronglySorted_inv in H1. destruct H1 as [H1 Ha].
  constructor.
  - apply IH; [assumption..|]. intros; apply H12; [now right|assumption].
  - apply Forall_app. split; [assumption|].
    apply Forall_forall. intros c Hc. apply H12; [now left|assumption].
Qed.

Lemma StronglySorted_rev {A} (R : A -> A -> Prop) l :
  StronglySorted R l -> StronglySorted (fun a c => R c a) (rev l).
Proof.
  induction 1 as [|a l Hs IH Ha]; simpl; [constructor|].
  apply StronglySorted_app; [assumption|repeat constructor|].
  intros c d Hc [<-|[]]. rewrite Forall_forall in Ha.
  apply Ha. now apply in_rev.
Qed.

(** The descending order [scores.argsort()[::-1]]. *)
Lemma order_sorted scores :
  StronglySorted (fun a c => score_lt scores c a) (rev (argsort scores)).
Proof. apply StronglySorted_rev, argsort_sorted. Qed.

Lemma order_perm scores :
  Permutation (rev (argsort scores)) (seq 0 (length scores)).
Proof. rewrite <- Permutation_rev. apply argsort_perm. Qed.

Lemma order_In scores i : In i (rev (argsort scores)) <-> (i < length scores)%nat.
Proof.
  split; intros H.
  - apply (Permutation_in _ (order_perm scores)) in H. apply in_seq in H. lia.
  - apply (Permutation_in _ (Permutation_sym (order_perm scores))).
    apply in_seq. lia.
Qed.

Lemma length_order scores : length (rev (argsort scores)) = length scores.
Proof.
  rewrite (Permutation_length (order_perm scores)). apply length_seq.
Qed.

(** *** Two unit boxes touching at a corner *)

(** C3 (as stated, refuted).  With [include_boundaries=True] the boxes
    [(0,0,1,1)] and [(1,1,2,2)] share the pixel [(1,1)]: the overlap is not
    [0], and with [thresh = 0.1 < 1] only one of them is kept. *)
Lemma nms_corner_boxes_suppressed :
  ~ overlap [0; 1] [0; 1] [1; 2] [1; 2] true 1 0 == 0 /\
  nms [0; 1] [0; 1] [1; 2] [1; 2] [1; 1] (1 # 10) true None = [1%nat].
Proof.
  split; [|reflexivity].
  intros H. vm_compute in H. discriminate H.
Qed.

(** C3 (amended).  For the unit boxes [(0,0,1,1)] and [(1,1,2,2)], any
    scores, [include_boundaries=True] and any [thresh >= 1/7], [nms] keeps
    both boxes; their overlap ratio is [1/7] (a one-pixel intersection over
    a union of [4 + 4 - 1]), so the zero-denominator guard is not involved. *)
Theorem nms_corner_boxes (s0 s1 thresh : Q) :
  1 # 7 <= thresh ->
  overlap [0; 1] [0; 1] [1; 2] [1; 2] true 0 1 == 1 # 7 /\
  overlap [0; 1] [0; 1] [1; 2] [1; 2] true 1 0 == 1 # 7 /\
  nms [0; 1] [0; 1] [1; 2] [1; 2] [s0; s1] thresh true None =
    if Qle_bool s0 s1 then [1; 0]%nat else [0; 1]%nat.
Proof.
  intros Ht.
  assert (H01 : overlap [0; 1] [0; 1] [1; 2] [1; 2] true 0 1 == 1 # 7)
    by (vm_compute; reflexivity).
  assert (H10 : overlap [0; 1] [0; 1] [1; 2] [1; 2] true 1 0 == 1 # 7)
    by (vm_compute; reflexivity).
  split; [exact H01|]. split; [exact H10|].
  unfold nms, argsort. simpl. unfold at_ at 1 2. simpl.
  destruct (Qle_bool s0 s1); simpl; simp nms_loop; simpl.
  - rewrite (Qleb_comp _ _ H10 _ _ (Qeq_refl thresh)).
    apply Qle_bool_iff in Ht. rewrite Ht. simp nms_loop. reflexivity.
  - rewrite (Qleb_comp _ _ H01 _ _ (Qeq_refl thresh)).
    apply Qle_bool_iff in Ht. rewrite Ht. simp nms_loop. reflexivity.
Qed.

Lemma nms_corner_boxes_witness :
  nms [0; 1] [0; 1] [1; 2] [1; 2] [1; 1] (1 # 2) true None = [1; 0]%nat.
Proof.
  apply (nms_corner_boxes 1 1 (1 # 2)). vm_compute. discriminate.
Defined.

(** Below [1/7] the second box is suppressed, whatever the scores. *)
Lemma nms_corner_boxes_below (s0 s1 thresh : Q) :
  thresh < 1 # 7 ->
  length (nms [0; 1] [0; 1] [1; 2] [1; 2] [s0; s1] thresh true None) = 1%nat.
Proof.
  intros Ht.
  assert (H01 : overlap [0; 1] [0; 1] [1; 2] [1; 2] true 0 1 == 1 # 7)
    by (vm_compute; reflexivity).
  assert (H10 : overlap [0; 1] [0; 1] [1; 2] [1; 2] true 1 0 == 1 # 7)
    by (vm_compute; reflexivity).
  assert (Hf : Qle_bool (1 # 7) thresh = false).
  { destruct (Qle_bool (1 # 7) thresh) eqn:E; [|reflexivity].
    apply Qle_bool_iff in E. lra. }
  unfold nms, argsort. simpl. unfold at_ at 1 2. simpl.
  destruct (Qle_bool s0 s1); simpl; simp nms_loop; simpl.
  - rewrite (Qleb_comp _ _ H10 _ _ (Qeq_refl thresh)), Hf. now simp nms_loop.
  - rewrite (Qleb_comp _ _ H01 _ _ (Qeq_refl thresh)), Hf. now simp nms_loop.
Qed.

(** With [include_boundaries=False] the intersection is empty, the overlap
    is [0] and both boxes are kept for every non-negative threshold. *)
Lemma nms_corner_boxes_exclusive :
  overlap [0; 1] [0; 1] [1; 2] [1; 2] false 1 0 == 0 /\
  nms [0; 1] [0; 1] [1; 2] [1; 2] [1; 1] 0 false None = [1; 0]%nat.
Proof. split; vm_compute; reflexivity. Qed.

(** *** Identical boxes *)

(** Two boxes with the same coordinates and positive extent under the
    boundary convention overlap with ratio exactly [1]. *)
Lemma overlap_identical x1 y1 x2 y2 ib i j :
  at_ x1 i == at_ x1 j -> at_ y1 i == at_ y1 j ->
  at_ x2 i == at_ x2 j -> at_ y2 i == at_ y2 j ->
  0 < at_ x2 i - at_ x1 i + nms_b ib ->
  0 < at_ y2 i - at_ y1 i + nms_b ib ->
  overlap x1 y1 x2 y2 ib i j == 1.
Proof.
  intros E1 E2 E3 E4 Hw Hh.
  set (w := at_ x2 i - at_ x1 i + nms_b ib) in *.
  set (h := at_ y2 i - at_ y1 i + nms_b ib) in *.
  assert (Hai : areas x1 y1 x2 y2 ib i == w * h) by reflexivity.
  assert (Haj : areas x1 y1 x2 y2 ib j == w * h).
  { unfold areas, w, h. rewrite E1, E2, E3, E4. reflexivity. }
  assert (Hin : intersection x1 y1 x2 y2 ib i j == w * h).
  { unfold intersection. rewrite <- E1, <- E2, <- E3, <- E4.
    rewrite !Q.max_id, !Q.min_id. fold w h.
    rewrite (Q.max_r 0 w), (Q.max_r 0 h) by lra. reflexivity. }
  assert (Hpos : 0 < w * h) by (apply Qmult_lt_0_compat; assumption).
  unfold overlap.
  assert (Hb : areas x1 y1 x2 y2 ib i + areas x1 y1 x2 y2 ib j -
               intersection x1 y1 x2 y2 ib i j == w * h).
  { rewrite Hai, Haj, Hin. ring. }
  rewrite (Qeqb_comp _ _ Hb 0 0 (Qeq_refl 0)).
  destruct (Qeq_bool (w * h) 0) eqn:E.
  - apply Qeq_bool_iff in E. lra.
  - rewrite Hb, Hin. field. lra.
Qed.

(** *** Idempotence *)

Lemma at_gather a keep k :
  (k < length keep)%nat -> at_ (gather a keep) k = at_ a (nth k keep 0%nat).
Proof.
  intros Hk. unfold at_, gather.
  rewrite (nth_indep _ 0 (nth 0 a 0)) by (rewrite length_map; exact Hk).
  change (nth 0 a 0) with ((fun i => nth i a 0) 0%nat).
  apply map_nth.
Qed.

Lemma overlap_gather x1 y1 x2 y2 ib keep a c :
  (a < length keep)%nat -> (c < length keep)%nat ->
  overlap (gather x1 keep) (gather y1 keep) (gather x2 keep) (gather y2 keep)
          ib a c =
  overlap x1 y1 x2 y2 ib (nth a keep 0%nat) (nth c keep 0%nat).
Proof.
  intros Ha Hc. unfold overlap, intersection, areas.
  rewrite !at_gather by assumption. reflexivity.
Qed.

Lemma ForallOrdPairs_nth {A} (R : A -> A -> Prop) (l : list A) (d : A) :
  ForallOrdPairs R l ->
  forall a c, (a < c < length l)%nat -> R (nth a l d) (nth c l d).
Proof.
  induction 1 as [|x l Hx Hl IH]; intros a c Hac; simpl in *; [lia|].
  destruct c as [|c]; [lia|]. destruct a as [|a].
  - rewrite Forall_forall in Hx. apply Hx, nth_In. lia.
  - apply IH. lia.
Qed.

Lemma map_nth_seq {A} (l : list A) (d : A) :
  map (fun a => nth a l d) (seq 0 (length l)) = l.
Proof.
  induction l as [|x l IH]; simpl; [reflexivity|].
  f_equal. rewrite <- seq_shift, map_map. exact IH.
Qed.

Lemma nms_loop_NoDup x1 y1 x2 y2 thresh ib order :
  NoDup order -> NoDup (nms_loop x1 y1 x2 y2 thresh ib order).
Proof.
  funelim (nms_loop x1 y1 x2 y2 thresh ib order); intros Hnd; [constructor|].
  inversion Hnd as [|? ? Hni Hnd']; subst. constructor.
  - intros Hi. apply nms_loop_incl in Hi. apply filter_In in Hi. tauto.
  - apply H. now apply NoDup_filter.
Qed.

(** The order [nms] starts its loop with: the descending score order,
    cut to [keep_top_k] entries when that is given and positive. *)
Lemma nms_start_order scores keep_top_k :
  exists ord,
    (forall x1 y1 x2 y2 thresh ib,
       nms x1 y1 x2 y2 scores thresh ib keep_top_k =
       nms_loop x1 y1 x2 y2 thresh ib ord) /\
    NoDup ord /\
    (forall k, keep_top_k = Some k -> (0 < k)%Z ->
               (length ord <= Z.to_nat k)%nat).
Proof.
  assert (Hnd : NoDup (rev (argsort scores))).
  { apply (Permutation_NoDup (Permutation_sym (order_perm _))), seq_NoDup. }
  assert (Hfirst : forall n, NoDup (firstn n (rev (argsort scores)))).
  { intros n. rewrite <- (firstn_skipn n (rev (argsort scores))) in Hnd.
    now apply NoDup_app_remove_r in Hnd. }
  destruct keep_top_k as [k|].
  - destruct (Z.eqb_spec k 0) as [->|Hk].
    + exists (rev (argsort scores)). repeat split; [assumption|].
      intros k [= <-] Hk. lia.
    + unfold nms. apply Z.eqb_neq in Hk. rewrite Hk. unfold slice_to.
      destruct (k <? 0)%Z eqn:Hneg.
      * eexists. split; [reflexivity|]. split; [apply Hfirst|].
        intros k' [= <-] Hpos. apply Z.ltb_lt in Hneg. lia.
      * eexists. split; [reflexivity|]. split; [apply Hfirst|].
        intros k' [= <-] Hpos. apply firstn_le_length.
  - exists (rev (argsort scores)). repeat split; [assumption|].
    intros k [=].
Qed.

(** Any two different boxes the loop keeps overlap by at most [thresh]. *)
Lemma nms_loop_kept_compatible x1 y1 x2 y2 thresh ib ord u v :
  In u (nms_loop x1 y1 x2 y2 thresh ib ord) ->
  In v (nms_loop x1 y1 x2 y2 thresh ib ord) ->
  u <> v -> overlap x1 y1 x2 y2 ib u v <= thresh.
Proof.
  intros Hu Hv Huv.
  pose proof (nms_loop_pairwise x1 y1 x2 y2 thresh ib ord) as Hp.
  destruct (ForallOrdPairs_In Hp u v Hu Hv) as [E|[H|H]];
    [contradiction|exact H|].
  rewrite overlap_sym. exact H.
Qed.

(** [argsort] is one of the orders numpy may return. *)
Lemma argsort_is_argsort scores : is_argsort scores (argsort scores).
Proof.
  split; [apply argsort_perm|].
  pose proof (argsort_sorted scores) as H.
  induction H as [|a l Hs IH Ha]; constructor; [assumption|].
  rewrite Forall_forall in *. intros c Hc.
  destruct (Ha c Hc) as [?|[? _]]; lra.
Qed.

Lemma nms_with_argsort x1 y1 x2 y2 scores thresh ib keep_top_k :
  nms x1 y1 x2 y2 scores thresh ib keep_top_k =
  nms_with x1 y1 x2 y2 thresh ib (argsort scores) keep_top_k.
Proof. reflexivity. Qed.

(** C6 (as stated, refuted).  Two identical boxes of zero area (as
    [sanitize_coordinates] can produce) have a zero denominator, so their
    overlap is defined as [0], not [1], and both are kept.  And of two
    identical unit boxes with tied scores, the lower-indexed one is kept
    and the higher-indexed one suppressed when [argsort] returns the tied
    indices as [[1; 0]], which is an ascending order of the scores. *)
Lemma nms_identical_not_suppressed :
  overlap [0; 0] [0; 0] [0; 0] [0; 0] false 1 0 == 0 /\
  ~ overlap [0; 0] [0; 0] [0; 0] [0; 0] false 1 0 == 1 /\
  nms [0; 0] [0; 0] [0; 0] [0; 0] [1; 1] (1 # 2) false None = [1; 0]%nat /\
  is_argsort [1; 1] [1; 0]%nat /\
  nms_with [0; 0] [0; 0] [1; 1] [1; 1] (1 # 2) false [1; 0]%nat None
    = [0%nat].
Proof.
  split; [vm_compute; reflexivity|]. split; [|split; [reflexivity|]].
  - intros H. vm_compute in H. discriminate H.
  - split; [|reflexivity]. split; [apply perm_swap|].
    repeat constructor. vm_compute. discriminate.
Qed.

(** C6 (amended).  Let [i] and [j] be two different boxes with the same
    coordinates, of magnitude at most [2^500], and with a width and a
    height of at least [2^-500].  Their computed overlap is exactly [1];
    hence for every [thresh < 1], and whichever ascending order [argsort]
    returns, at most one of the two is kept, and the one with the strictly
    lower score is never kept.  Which of two duplicates with tied scores
    is kept is not determined. *)
Theorem nms_identical_boxes x1 y1 x2 y2 scores thresh ib idx i j :
  is_argsort scores idx ->
  i <> j -> (i < length scores)%nat -> (j < length scores)%nat ->
  at_ x1 i == at_ x1 j -> at_ y1 i == at_ y1 j ->
  at_ x2 i == at_ x2 j -> at_ y2 i == at_ y2 j ->
  no_overflow (at_ x1 i) -> no_overflow (at_ y1 i) ->
  no_overflow (at_ x2 i) -> no_overflow (at_ y2 i) ->
  not_tiny (at_ x2 i - at_ x1 i) ->
  not_tiny (at_ y2 i - at_ y1 i) ->
  thresh < 1 ->
  overlap x1 y1 x2 y2 ib i j == 1 /\
  ~ (In i (nms_with x1 y1 x2 y2 thresh ib idx None) /\
     In j (nms_with x1 y1 x2 y2 thresh ib idx None)) /\
  (at_ scores i < at_ scores j ->
     ~ In i (nms_with x1 y1 x2 y2 thresh ib idx None)).
Proof.
  intros [Hperm Hsort] Hij Hi Hj E1 E2 E3 E4 _ _ _ _ Hw Hh Ht.
  assert (Hpos : 0 < 1 / inject_Z (2 ^ 500)) by reflexivity.
  assert (Hb : 0 <= nms_b ib) by (destruct ib; simpl; lra).
  unfold not_tiny in Hw, Hh.
  assert (Hov : overlap x1 y1 x2 y2 ib i j == 1)
    by (apply overlap_identical; try assumption; lra).
  split; [exact Hov|]. split.
  - intros [Ki Kj].
    pose proof (nms_loop_kept_compatible x1 y1 x2 y2 thresh ib _ i j Ki Kj Hij).
    lra.
  - intros Hs. unfold nms_with.
    apply (nms_loop_duplicate x1 y1 x2 y2 thresh ib
             (fun a c => at_ scores c <= at_ scores a) j i).
    + apply StronglySorted_rev. exact Hsort.
    + intros _. apply -> in_rev.
      apply (Permutation_in _ (Permutation_sym Hperm)), in_seq. lia.
    + congruence.
    + lra.
    + intros k. symmetry. apply overlap_same_box; assumption.
    + rewrite overlap_sym, Hov. exact Ht.
Qed.

Lemma nms_identical_boxes_witness :
  overlap [0; 0] [0; 0] [1; 1] [1; 1] false 0 1 == 1 /\
  ~ (In 0%nat (nms_with [0; 0] [0; 0] [1; 1] [1; 1] (1 # 2) false
                 [1; 0]%nat None) /\
     In 1%nat (nms_with [0; 0] [0; 0] [1; 1] [1; 1] (1 # 2) false
                 [1; 0]%nat None)).
Proof.
  destruct (nms_identical_boxes [0; 0] [0; 0] [1; 1] [1; 1] [1; 1] (1 # 2)
              false [1; 0]%nat 0 1) as [H1 [H2 _]];
    try (vm_compute; reflexivity); try (vm_compute; discriminate);
    try (simpl; lia).
  - split; [apply perm_swap|]. repeat constructor. vm_compute. discriminate.
  - split; assumption.
Defined.

(** C7.  [nms] is idempotent: restricting the five arrays to the kept
    indices, taken in any order [sel] (the order [nms] returned them in, or
    index order as a boolean mask gives), and running [nms] again with the
    same threshold, boundary flag and [keep_top_k] keeps every one of them;
    the second result is a permutation of all positions
    [0 .. len(sel) - 1], that is, the same set of detections.  [keep_top_k]
    is [None] (the default) or any non-negative count. *)
Theorem nms_idempotent x1 y1 x2 y2 scores thresh ib keep_top_k sel :
  (forall k, keep_top_k = Some k -> (0 <= k)%Z) ->
  Permutation sel (nms x1 y1 x2 y2 scores thresh ib keep_top_k) ->
  let keep' := nms (gather x1 sel) (gather y1 sel) (gather x2 sel)
                   (gather y2 sel) (gather scores sel) thresh ib keep_top_k in
  Permutation keep' (seq 0 (length sel)) /\
  Permutation (map (fun a => nth a sel 0%nat) keep') sel.
Proof.
  intros Hk Hsel keep'.
  destruct (nms_start_order scores keep_top_k) as [ord [Hord [Hnd0 Hcut]]].
  rewrite Hord in Hsel.
  assert (Hlen : length (gather scores sel) = length sel) by apply length_map.
  assert (Hnd : NoDup sel).
  { apply (Permutation_NoDup (Permutation_sym Hsel)).
    now apply nms_loop_NoDup. }
  (* the second run is not cut: it has at most [keep_top_k] candidates *)
  assert (Hrun : keep' =
                 nms_loop (gather x1 sel) (gather y1 sel) (gather x2 sel)
                   (gather y2 sel) thresh ib
                   (rev (argsort (gather scores sel)))).
  { unfold keep', nms. destruct keep_top_k as [k|]; [|reflexivity].
    destruct (Z.eqb_spec k 0) as [->|Hk0]; [reflexivity|].
    specialize (Hk k eq_refl). unfold slice_to.
    replace (k <? 0)%Z with false by (symmetry; apply Z.ltb_ge; lia).
    rewrite firstn_all2; [reflexivity|].
    rewrite length_order, Hlen, (Permutation_length Hsel).
    etransitivity; [apply nms_loop_length|].
    apply (Hcut k eq_refl). lia. }
  assert (Hk' : keep' = rev (argsort (gather scores sel))).
  { rewrite Hrun. apply nms_loop_fixpoint.
    - intros a c Ha Hc Hac.
      apply order_In in Ha. apply order_In in Hc. rewrite Hlen in Ha, Hc.
      rewrite overlap_gather by assumption.
      apply (nms_loop_kept_compatible x1 y1 x2 y2 thresh ib ord).
      + apply (Permutation_in _ Hsel), nth_In, Ha.
      + apply (Permutation_in _ Hsel), nth_In, Hc.
      + intros E. apply Hac.
        apply (proj1 (NoDup_nth sel 0%nat) Hnd); assumption.
    - apply (Permutation_NoDup (Permutation_sym (order_perm _))).
      apply seq_NoDup. }
  assert (Hp : Permutation keep' (seq 0 (length sel))).
  { rewrite Hk', <- Hlen. apply order_perm. }
  split; [exact Hp|].
  rewrite (Permutation_map _ Hp).
  rewrite map_nth_seq. reflexivity.
Qed.

Lemma nms_idempotent_witness :
  let keep := nms [0; 0; 5] [0; 0; 5] [2; 2; 7] [2; 2; 7] [3; 2; 1] (1 # 2)
                  true None in
  keep = [0; 2]%nat /\
  Permutation
    (nms (gather [0; 0; 5] keep) (gather [0; 0; 5] keep)
         (gather [2; 2; 7] keep) (gather [2; 2; 7] keep)
         (gather [3; 2; 1] keep) (1 # 2) true None)
    (seq 0 (length keep)).
Proof.
  split; [reflexivity|].
  apply (nms_idempotent [0; 0; 5] [0; 0; 5] [2; 2; 7] [2; 2; 7] [3; 2; 1]
           (1 # 2) true None).
  - intros k H. discriminate H.
  - apply Permutation_refl.
Defined.

(** A negative [keep_top_k] drops candidates from the end of the order at
    every run, so there [nms] is not idempotent: of three disjoint boxes
    the first run keeps two and the second run one. *)
Lemma nms_negative_top_k_shrinks :
  let keep := nms [0; 5; 10] [0; 5; 10] [1; 6; 11] [1; 6; 11] [3; 2; 1]
                  (1 # 2) false (Some (-1)%Z) in
  keep = [0; 1]%nat /\
  nms (gather [0; 5; 10] keep) (gather [0; 5; 10] keep)
      (gather [1; 6; 11] keep) (gather [1; 6; 11] keep)
      (gather [3; 2; 1] keep) (1 # 2) false (Some (-1)%Z) = [0%nat].
Proof. split; reflexivity. Qed.

(** ** Arrays *)

Lemma nth_flat_map_uniform {A B} (f : A -> list B) (m : nat) (l : list A)
    (i r : nat) (da : A) (db : B) :
  (forall x, length (f x) = m) ->
  (i < length l)%nat -> (r < m)%nat ->
  nth (i * m + r) (flat_map f l) db = nth r (f (nth i l da)) db.
Proof.
  intros Hf. revert i. induction l as [|x l IH]; intros i Hi Hr; simpl in *;
    [lia|].
  destruct i as [|i].
  - simpl. apply app_nth1. rewrite Hf. exact Hr.
  - rewrite app_nth2 by (rewrite Hf; nia).
    rewrite Hf. replace (S i * m + r - m)%nat with (i * m + r)%nat by nia.
    apply IH; lia.
Qed.

Lemma nth_flat_map_repeat {A} (l : list A) (reps i r : nat) (d : A) :
  (i < length l)%nat -> (r < reps)%nat ->
  nth (i * reps + r) (flat_map (fun v => repeat v reps) l) d = nth i l d.
Proof.
  intros Hi Hr.
  rewrite (nth_flat_map_uniform (fun v => repeat v reps) reps l i r d d);
    [|intros; apply repeat_length|assumption..].
  apply nth_repeat_lt. exact Hr.
Qed.

Lemma length_flat_map_repeat {A} (l : list A) (reps : nat) :
  length (flat_map (fun v => repeat v reps) l) = (length l * reps)%nat.
Proof.
  apply flat_map_constant_length. intros; apply repeat_length.
Qed.

Lemma length_indices sh : length (indices sh) = size_of sh.
Proof.
  induction sh as [|d sh IH]; simpl; [reflexivity|].
  rewrite (flat_map_constant_length (c := size_of sh)).
  - now rewrite length_seq.
  - intros. now rewrite length_map.
Qed.

Lemma ravel_lt sh idx : Forall2 lt idx sh -> (ravel sh idx < size_of sh)%nat.
Proof.
  intros H. induction H as [|i d idx sh Hi H IH]; simpl; [lia|]. nia.
Qed.

Lemma nth_indices sh idx d :
  Forall2 lt idx sh -> nth (ravel sh idx) (indices sh) d = idx.
Proof.
  intros H. induction H as [|i e idx sh Hi H IH]; simpl; [reflexivity|].
  rewrite (nth_flat_map_uniform _ (size_of sh) _ _ _ 0%nat).
  - rewrite seq_nth by exact Hi. simpl.
    rewrite (nth_indep _ d (i :: d)) by
      (rewrite length_map, length_indices; now apply ravel_lt).
    rewrite (map_nth (cons i)). now rewrite IH.
  - intros. now rewrite length_map, length_indices.
  - now rewrite length_seq.
  - now apply ravel_lt.
Qed.

(** Reading an array that was built position by position. *)
Lemma get_tabulate {A} (g : list nat -> A) sh idx d :
  Forall2 lt idx sh ->
  get d (mkArr sh (map g (indices sh))) idx = g idx.
Proof.
  intros H. unfold get. simpl.
  rewrite (nth_indep _ d (g [])) by
    (rewrite length_map, length_indices; now apply ravel_lt).
  rewrite (map_nth g). now rewrite nth_indices.
Qed.

Lemma np_reshape_ok {A} (a : ndarray A) sh :
  size_of sh = length (data a) -> np_reshape a sh = Ok (mkArr sh (data a)).
Proof. intros H. unfold np_reshape. now rewrite H, Nat.eqb_refl. Qed.

Lemma np_reshape_fail {A} (a : ndarray A) sh :
  size_of sh <> length (data a) -> np_reshape a sh = Raise ValueError.
Proof.
  intros H. unfold np_reshape. apply Nat.eqb_neq in H. now rewrite H.
Qed.

Lemma broadcast_shapes_same3 a c n :
  broadcast_shapes [a; c; n] [a; c; n] = Ok [a; c; n].
Proof.
  unfold broadcast_shapes. simpl. now rewrite !Nat.eqb_refl.
Qed.

Lemma broadcast_shapes_vec3 a c n :
  broadcast_shapes [a; c; n] [n] = Ok [a; c; n].
Proof.
  unfold broadcast_shapes. simpl. now rewrite !Nat.eqb_refl.
Qed.

(** An operand that already has the result's shape is read in place. *)
Lemma bget_same3 {A} (d : A) (a : ndarray A) h w n i j k :
  shape a = [h; w; n] -> (i < h)%nat -> (j < w)%nat -> (k < n)%nat ->
  bget d a [i; j; k] = get d a [i; j; k].
Proof.
  intros Hs Hi Hj Hk. unfold bget. rewrite Hs. simpl.
  repeat match goal with
  | |- context [(?e =? 1)%nat] =>
      destruct (Nat.eqb_spec e 1); [subst|]
  end; repeat f_equal; lia.
Qed.

(** A one-dimensional operand is read at the last index. *)
Lemma bget_vec3 {A} (d : A) (l : list A) i j k :
  (k < length l)%nat -> bget d (vec l) [i; j; k] = nth k l d.
Proof.
  intros Hk. unfold bget, vec, get. simpl.
  destruct (Nat.eqb_spec (length l) 1) as [E|E].
  - assert (k = 0)%nat by lia. subst. simpl. reflexivity.
  - f_equal. lia.
Qed.

(** The coordinate grid built by [repeat] / [reshape] / [repeat]: with
    blocks of [h] copies, position [(a * h + c) * n + k] holds [a]. *)
Lemma grid_nth (w h n a c k : nat) :
  (a < w)%nat -> (c < h)%nat -> (k < n)%nat ->
  nth ((a * h + c) * n + k)
      (flat_map (fun v => repeat v n)
         (flat_map (fun v => repeat v h) (data (np_arange w)))) 0 = Qnat a.
Proof.
  intros Ha Hc Hk. simpl.
  rewrite nth_flat_map_repeat;
    [|rewrite length_flat_map_repeat, length_map, length_seq; nia|assumption].
  rewrite nth_flat_map_repeat;
    [|rewrite length_map, length_seq; assumption|assumption].
  change 0 with ((fun i => inject_Z (Z.of_nat i)) 0%nat).
  rewrite map_nth, seq_nth by assumption. reflexivity.
Qed.

Lemma broadcast2_same3 {A B C} (da : A) (db : B) (dc : C) (f : A -> B -> C)
    (a : ndarray A) (b : ndarray B) h w n :
  shape a = [h; w; n] -> shape b = [h; w; n] ->
  exists out, broadcast2 da db f a b = Ok out /\ shape out = [h; w; n] /\
    forall i j k, (i < h)%nat -> (j < w)%nat -> (k < n)%nat ->
      get dc out [i; j; k] = f (get da a [i; j; k]) (get db b [i; j; k]).
Proof.
  intros Ha Hb. unfold broadcast2. rewrite Ha, Hb, broadcast_shapes_same3.
  eexists. split; [reflexivity|]. split; [reflexivity|].
  intros i j k Hi Hj Hk.
  rewrite get_tabulate by (repeat constructor; assumption).
  now rewrite (bget_same3 da a h w n), (bget_same3 db b h w n).
Qed.

Lemma broadcast2_vec3 {A B C} (da : A) (db : B) (dc : C) (f : A -> B -> C)
    (a : ndarray A) (l : list B) h w n :
  shape a = [h; w; n] -> length l = n ->
  exists out, broadcast2 da db f a (vec l) = Ok out /\ shape out = [h; w; n] /\
    forall i j k, (i < h)%nat -> (j < w)%nat -> (k < n)%nat ->
      get dc out [i; j; k] = f (get da a [i; j; k]) (nth k l db).
Proof.
  intros Ha Hl. unfold broadcast2. rewrite Ha. simpl shape.
  rewrite Hl, broadcast_shapes_vec3.
  eexists. split; [reflexivity|]. split; [reflexivity|].
  intros i j k Hi Hj Hk.
  rewrite get_tabulate by (repeat constructor; assumption).
  rewrite (bget_same3 da a h w n) by assumption.
  rewrite bget_vec3 by (rewrite Hl; assumption). reflexivity.
Qed.

(** ** The crop of the prototype-mask variant *)

(** On a square map the row grid (before its transposition) holds the
    first index and so does the column grid. *)
Lemma crop_rows_square h n :
  exists rows, crop_rows h h n = Ok rows /\ shape rows = [h; h; n] /\
    forall i j k, (i < h)%nat -> (j < h)%nat -> (k < n)%nat ->
      get 0 rows [i; j; k] = Qnat i.
Proof.
  unfold crop_rows.
  rewrite np_reshape_ok by
    (simpl; rewrite length_flat_map_repeat, length_map, length_seq; lia).
  simpl rbind.
  rewrite np_reshape_ok by
    (simpl; rewrite !length_flat_map_repeat, length_map, length_seq; lia).
  eexists. split; [reflexivity|]. split; [reflexivity|].
  intros i j k Hi Hj Hk. unfold get. simpl shape. simpl data.
  replace (ravel [h; h; n] [i; j; k]) with ((i * h + j) * n + k)%nat
    by (simpl; lia).
  apply (grid_nth h h n); assumption.
Qed.

Lemma crop_cols_square h n :
  exists cols, crop_cols h h n = Ok cols /\ shape cols = [h; h; n] /\
    forall i j k, (i < h)%nat -> (j < h)%nat -> (k < n)%nat ->
      get 0 cols [i; j; k] = Qnat i.
Proof. exact (crop_rows_square h n). Qed.

(** The column grid cannot be built on a map that is not square, unless the
    map has no rows at all. *)
Lemma crop_cols_not_square h w n :
  h <> w -> h <> 0%nat ->
  np_reshape (np_repeat (np_arange h) h) [w; h] = Raise ValueError /\
  crop_cols h w n = Raise ValueError.
Proof.
  intros Hne Hz.
  assert (E : np_reshape (np_repeat (np_arange h) h) [w; h] = Raise ValueError).
  { apply np_reshape_fail. simpl.
    rewrite length_flat_map_repeat, length_map, length_seq. nia. }
  split; [exact E|]. unfold crop_cols. now rewrite E.
Qed.

Lemma crop_rows_ok h w n : exists rows, crop_rows h w n = Ok rows.
Proof.
  unfold crop_rows.
  rewrite np_reshape_ok by
    (simpl; rewrite length_flat_map_repeat, length_map, length_seq; lia).
  simpl rbind.
  rewrite np_reshape_ok by
    (simpl; rewrite !length_flat_map_repeat, length_map, length_seq; lia).
  eexists; reflexivity.
Qed.

Lemma np_transpose3_102 (a : ndarray Q) h w n :
  shape a = [h; w; n] ->
  exists out, np_transpose3 0 a (1, 0, 2)%nat = Ok out /\
    shape out = [w; h; n] /\
    forall i j k, (i < w)%nat -> (j < h)%nat -> (k < n)%nat ->
      get 0 out [i; j; k] = get 0 a [j; i; k].
Proof.
  intros Ha. unfold np_transpose3. rewrite Ha. simpl nth.
  eexists. split; [reflexivity|]. split; [reflexivity|].
  intros i j k Hi Hj Hk.
  rewrite get_tabulate by (repeat constructor; assumption).
  reflexivity.
Qed.

Lemma sanitize_coordinates_length a c size shift padding :
  length (fst (sanitize_coordinates a c size shift padding)) = length a /\
  length (snd (sanitize_coordinates a c size shift padding)) = length c.
Proof. unfold sanitize_coordinates; simpl. now rewrite !length_map. Qed.

Lemma crop_mask_square masks boxes padding h n :
  shape masks = [h; h; n] -> length boxes = n ->
  exists out, crop_mask masks boxes padding = Ok out /\
    shape out = [h; h; n] /\
    forall i j k, (i < h)%nat -> (j < h)%nat -> (k < n)%nat ->
      get 0 out [i; j; k] =
      get 0 masks [i; j; k] *
      (if in_crop_window boxes h h padding i j k then 1 else 0).
Proof.
  intros Hs Hn. unfold crop_mask, in_crop_window. rewrite Hs.
  pose proof (sanitize_coordinates_length (map b0 boxes) (map b2 boxes)
                (Qnat h) 0 padding) as [Lx1 Lx2].
  pose proof (sanitize_coordinates_length (map b1 boxes) (map b3 boxes)
                (Qnat h) 0 padding) as [Ly1 Ly2].
  destruct (sanitize_coordinates (map b0 boxes) (map b2 boxes) _ _ _)
    as [x1 x2].
  destruct (sanitize_coordinates (map b1 boxes) (map b3 boxes) _ _ _)
    as [y1 y2].
  simpl in Lx1, Lx2, Ly1, Ly2. rewrite length_map, Hn in Lx1, Lx2, Ly1, Ly2.
  destruct (crop_rows_square h n) as [rows0 [-> [Sr0 Gr0]]]. cbn [rbind].
  destruct (crop_cols_square h n) as [cols [-> [Sc Gc]]]. cbn [rbind].
  destruct (np_transpose3_102 rows0 h h n Sr0) as [rows [-> [Sr Gr]]]. cbn [rbind].
  destruct (broadcast2_vec3 0 0 false (fun r x => Qle_bool x r) rows x1 h h n
              Sr Lx1) as [ml [-> [Sml Gml]]]. cbn [rbind].
  destruct (broadcast2_vec3 0 0 false (fun r x => Qlt_bool r x) rows x2 h h n
              Sr Lx2) as [mr [-> [Smr Gmr]]]. cbn [rbind].
  destruct (broadcast2_vec3 0 0 false (fun c y => Qle_bool y c) cols y1 h h n
              Sc Ly1) as [mu [-> [Smu Gmu]]]. cbn [rbind].
  destruct (broadcast2_vec3 0 0 false (fun c y => Qlt_bool c y) cols y2 h h n
              Sc Ly2) as [md [-> [Smd Gmd]]]. cbn [rbind].
  destruct (broadcast2_same3 false false false andb ml mr h h n Sml Smr)
    as [c1 [-> [S1 G1]]]. cbn [rbind].
  destruct (broadcast2_same3 false false false andb c1 mu h h n S1 Smu)
    as [c2 [-> [S2 G2]]]. cbn [rbind].
  destruct (broadcast2_same3 false false false andb c2 md h h n S2 Smd)
    as [c3 [-> [S3 G3]]]. cbn [rbind].
  destruct (broadcast2_same3 0 false 0
              (fun m (c : bool) => m * (if c then 1 else 0)) masks c3 h h n
              Hs S3) as [out [-> [So Go]]]. cbn [rbind].
  exists out. split; [reflexivity|]. split; [exact So|].
  intros i j k Hi Hj Hk.
  rewrite Go, G3, G2, G1, Gml, Gmr, Gmu, Gmd, !Gr, !Gc, !Gr0 by assumption.
  reflexivity.
Qed.

(** C10 (as stated, refuted).  A map of shape [0 x 1 x 1] is not square,
    yet both grids are (empty and) well-formed and [crop_mask] returns,
    with the empty array of shape [0 x 0 x 1]. *)
Lemma crop_mask_empty_map_total :
  crop_cols 0 1 1 = Ok (mkArr [0; 1; 1]%nat []) /\
  crop_mask (mkArr [0; 1; 1]%nat []) [mkBox 0 0 1 1] 1 =
    Ok (mkArr [0; 0; 1]%nat []).
Proof. split; reflexivity. Qed.

(** C10 (amended).  For a [masks] array of shape [H x W x N] and [N] boxes:
    when [H = W] both coordinate grids are well-formed, [crop_mask] returns
    an array of the same shape and each output pixel is the input pixel
    times the four-inequality membership test; when [H <> W] and [H >= 1]
    the column grid is invalid ([H * H] elements reshaped to [W x H]) and
    [crop_mask] raises [ValueError].  Square prototype maps are thus a
    precondition of the prototype pipeline for every map with at least one
    row. *)
Theorem crop_mask_needs_square masks boxes h w n :
  shape masks = [h; w; n] -> length boxes = n ->
  (h = w ->
   exists out, crop_mask masks boxes 1 = Ok out /\
     shape out = [h; w; n] /\
     forall i j k, (i < h)%nat -> (j < w)%nat -> (k < n)%nat ->
       get 0 out [i; j; k] =
       get 0 masks [i; j; k] *
       (if in_crop_window boxes h w 1 i j k then 1 else 0)) /\
  (h <> w -> (1 <= h)%nat ->
   np_reshape (np_repeat (np_arange h) h) [w; h] = Raise ValueError /\
   crop_mask masks boxes 1 = Raise ValueError).
Proof.
  intros Hs Hn. split.
  - intros <-. now apply crop_mask_square.
  - intros Hne Hh.
    destruct (crop_cols_not_square h w n Hne) as [E Ec]; [lia|].
    split; [exact E|].
    unfold crop_mask. rewrite Hs.
    destruct (sanitize_coordinates (map b0 boxes) _ _ _ _) as [x1 x2].
    destruct (sanitize_coordinates (map b1 boxes) _ _ _ _) as [y1 y2].
    destruct (crop_rows_ok h w n) as [rows ->]. simpl rbind.
    now rewrite Ec.
Qed.

Lemma crop_mask_needs_square_witness :
  (exists out,
     crop_mask (mkArr [2; 2; 1]%nat [1; 2; 3; 4]) [mkBox 0 0 (1 # 2) 1] 1 =
       Ok out /\ shape out = [2; 2; 1]%nat) /\
  crop_mask (mkArr [2; 3; 1]%nat [1; 2; 3; 4; 5; 6]) [mkBox 0 0 (1 # 2) 1] 1 =
    Raise ValueError.
Proof.
  split.
  - destruct (proj1 (crop_mask_needs_square
                       (mkArr [2; 2; 1]%nat [1; 2; 3; 4])
                       [mkBox 0 0 (1 # 2) 1] 2 2 1 eq_refl eq_refl) eq_refl)
      as [out [H1 [H2 _]]].
    exists out. split; assumption.
  - refine (proj2 (proj2 (crop_mask_needs_square
                       (mkArr [2; 3; 1]%nat [1; 2; 3; 4; 5; 6])
                       [mkBox 0 0 (1 # 2) 1] 2 3 1 eq_refl eq_refl) _ _));
      [discriminate|lia].
Defined.

(** ** Topology validation *)

(** C2 (the output check).  [check_model] never looks at the declared
    outputs: the asserted tuple is true for every network. *)
Lemma check_model_ignores_outputs (net : IENetwork) outs :
  check_model (mkNet (input_info net) outs) = check_model net.
Proof. reflexivity. Qed.

(** C2 (failing input).  A prototype-mask topology with a single image
    input of batch size [1] that declares only the outputs [boxes] and
    [conf]: [proto] and [mask] are missing, the subset test is false, and
    [check_model] returns normally. *)
Lemma check_model_missing_outputs_accepted :
  let net := mkNet [("image"%string, [1; 3; 550; 550]%nat)]
                   [("boxes"%string, [1; 100; 4]%nat);
                    ("conf"%string, [1; 100; 81]%nat)] in
  issubset ["boxes"; "conf"; "proto"; "mask"]%string
           (map fst (outputs net)) = false /\
  check_model net =
    Ok ("image"%string, None, [1; 3; 550; 550]%nat, PostYolact).
Proof. split; reflexivity. Qed.

(** C2 (the batch check).  Whenever [check_model] returns, the image input
    it returns has batch size [1]; with any other batch size it raises. *)
Lemma check_model_batch net img info shp pp :
  check_model net = Ok (img, info, shp, pp) ->
  dict_get (input_info net) img = Ok shp /\ nth_error shp 0 = Some 1%nat.
Proof.
  unfold check_model.
  repeat match goal with
  | |- context [rbind ?m _] =>
      let E := fresh "E" in destruct m eqn:E; cbn [rbind]; [|discriminate]
  end.
  intros H. injection H as ? ? ? ?; subst.
  split; [assumption|].
  match goal with H : py_head shp = Ok ?b, H' : py_assert (?b =? 1)%nat _ = Ok _ |- _ =>
    destruct shp; simpl in H; [discriminate|injection H as ->];
    unfold py_assert in H';
    destruct (Nat.eqb_spec b 1); [subst|discriminate] end.
  reflexivity.
Qed.

(** ** The store *)

Lemma bind_Ok {A B} (m : M A) (f : A -> M B) st b st' :
  bind m f st = Ok (b, st') ->
  exists a st1, m st = Ok (a, st1) /\ f a st1 = Ok (b, st').
Proof.
  unfold bind. destruct (m st) as [[a st1]|e]; [|discriminate].
  intros H. now exists a, st1.
Qed.

Lemma ret_Ok {A} (a b : A) st st' : ret a st = Ok (b, st') -> b = a /\ st' = st.
Proof. unfold ret. intros H. injection H as <- <-. auto. Qed.

Lemma lift_Ok {A} (r : result A) a st st' :
  lift r st = Ok (a, st') -> r = Ok a /\ st' = st.
Proof.
  unfold lift. destruct r; [|discriminate]. intros H.
  injection H as <- <-. auto.
Qed.

Lemma alloc_Ok v l st st' :
  alloc v st = Ok (l, st') -> l = length st /\ st' = st ++ [v].
Proof. unfold alloc. intros H. injection H as <- <-. auto. Qed.

Lemma load_Ok l v st st' :
  load l st = Ok (v, st') -> nth_error st l = Some v /\ st' = st.
Proof.
  unfold load. destruct (nth_error st l); [|discriminate].
  intros H. injection H as <- <-. auto.
Qed.

Lemma write_Ok l v u st st' :
  write l v st = Ok (u, st') -> (l < length st)%nat /\ st' = set_nth st l v.
Proof.
  unfold write. destruct (Nat.ltb_spec l (length st)) as [Hl|Hl]; [|discriminate].
  intros E. injection E as <- <-. auto.
Qed.

Lemma load_boxes_Ok l b st st' :
  load_boxes l st = Ok (b, st') -> nth_error st l = Some (ABoxes b) /\ st' = st.
Proof.
  unfold load_boxes. intros H. apply bind_Ok in H.
  destruct H as [v [st1 [H1 H2]]]. apply load_Ok in H1. destruct H1 as [H1 ->].
  destruct v; try (apply lift_Ok in H2; destruct H2; discriminate).
  apply ret_Ok in H2. destruct H2 as [-> ->]. auto.
Qed.

Lemma load_boxes3_Ok l b st st' :
  load_boxes3 l st = Ok (b, st') ->
  nth_error st l = Some (ABoxes3 b) /\ st' = st.
Proof.
  unfold load_boxes3. intros H. apply bind_Ok in H.
  destruct H as [v [st1 [H1 H2]]]. apply load_Ok in H1. destruct H1 as [H1 ->].
  destruct v; try (apply lift_Ok in H2; destruct H2; discriminate).
  apply ret_Ok in H2. destruct H2 as [-> ->]. auto.
Qed.

Lemma load_vec_Ok l b st st' :
  load_vec l st = Ok (b, st') -> nth_error st l = Some (AVec b) /\ st' = st.
Proof.
  unfold load_vec. intros H. apply bind_Ok in H.
  destruct H as [v [st1 [H1 H2]]]. apply load_Ok in H1. destruct H1 as [H1 ->].
  destruct v; try (apply lift_Ok in H2; destruct H2; discriminate).
  apply ret_Ok in H2. destruct H2 as [-> ->]. auto.
Qed.

Lemma load_ivec_Ok l b st st' :
  load_ivec l st = Ok (b, st') -> nth_error st l = Some (AIVec b) /\ st' = st.
Proof.
  unfold load_ivec. intros H. apply bind_Ok in H.
  destruct H as [v [st1 [H1 H2]]]. apply load_Ok in H1. destruct H1 as [H1 ->].
  destruct v; try (apply lift_Ok in H2; destruct H2; discriminate).
  apply ret_Ok in H2. destruct H2 as [-> ->]. auto.
Qed.

Lemma load_tensor_Ok l b st st' :
  load_tensor l st = Ok (b, st') ->
  nth_error st l = Some (ATensor b) /\ st' = st.
Proof.
  unfold load_tensor. intros H. apply bind_Ok in H.
  destruct H as [v [st1 [H1 H2]]]. apply load_Ok in H1. destruct H1 as [H1 ->].
  destruct v; try (apply lift_Ok in H2; destruct H2; discriminate).
  apply ret_Ok in H2. destruct H2 as [-> ->]. auto.
Qed.

Lemma load_mask_Ok l b st st' :
  load_mask l st = Ok (b, st') -> nth_error st l = Some (AMask b) /\ st' = st.
Proof.
  unfold load_mask. intros H. apply bind_Ok in H.
  destruct H as [v [st1 [H1 H2]]]. apply load_Ok in H1. destruct H1 as [H1 ->].
  destruct v; try (apply lift_Ok in H2; destruct H2; discriminate).
  apply ret_Ok in H2. destruct H2 as [-> ->]. auto.
Qed.

(** Splits a successful run into its steps, oldest first. *)
Ltac step_in H :=
  match type of H with
  | bind _ _ _ = Ok _ =>
      let a := fresh "a" in let st := fresh "st" in
      let H1 := fresh "St" in
      apply bind_Ok in H; destruct H as [a [st [H1 H]]];
      first
        [ apply lift_Ok in H1; destruct H1 as [H1 ->]
        | apply alloc_Ok in H1; destruct H1 as [-> ->]
        | apply load_boxes_Ok in H1; destruct H1 as [H1 ->]
        | apply load_boxes3_Ok in H1; destruct H1 as [H1 ->]
        | apply load_vec_Ok in H1; destruct H1 as [H1 ->]
        | apply load_ivec_Ok in H1; destruct H1 as [H1 ->]
        | apply load_tensor_Ok in H1; destruct H1 as [H1 ->]
        | apply load_mask_Ok in H1; destruct H1 as [H1 ->]
        | apply write_Ok in H1; destruct H1 as [H1 ->]
        | idtac ]
  end.

Lemma set_nth_length {A} (l : list A) i v : length (set_nth l i v) = length l.
Proof.
  revert i. induction l as [|x l IH]; intros [|i]; simpl; auto.
Qed.

Lemma nth_error_set_nth_eq {A} (l : list A) i v :
  (i < length l)%nat -> nth_error (set_nth l i v) i = Some v.
Proof.
  revert i. induction l as [|x l IH]; intros [|i] H; simpl in *;
    try lia; [reflexivity|]. apply IH. lia.
Qed.

Lemma nth_error_set_nth_ne {A} (l : list A) i j v :
  i <> j -> nth_error (set_nth l i v) j = nth_error l j.
Proof.
  revert i j. induction l as [|x l IH]; intros [|i] [|j] H; simpl;
    try reflexivity; try congruence. apply IH. congruence.
Qed.

Lemma set_nth_twice {A} (l : list A) i v w :
  set_nth (set_nth l i v) i w = set_nth l i w.
Proof.
  revert i. induction l as [|x l IH]; intros [|i]; simpl; auto.
  now rewrite IH.
Qed.

Lemma firstn_set_nth {A} (l : list A) n i v :
  (n <= i)%nat -> firstn n (set_nth l i v) = firstn n l.
Proof.
  revert n i. induction l as [|x l IH]; intros [|n] [|i] H; simpl;
    try reflexivity; try lia. f_equal. apply IH. lia.
Qed.

Lemma firstn_app_le {A} (l ext : list A) n :
  (n <= length l)%nat -> firstn n (l ++ ext) = firstn n l.
Proof.
  intros H. rewrite firstn_app.
  replace (n - length l)%nat with 0%nat by lia. simpl. apply app_nil_r.
Qed.

Lemma set_nth_app_last {A} (l : list A) x v :
  set_nth (l ++ [x]) (length l) v = l ++ [v].
Proof. induction l as [|y l IH]; simpl; [reflexivity|]. now rewrite IH. Qed.

Lemma nth_error_firstn_eq {A} (l l' : list A) n i :
  firstn n l' = firstn n l -> (i < n)%nat -> nth_error l' i = nth_error l i.
Proof.
  intros H Hi. apply Nat.ltb_lt in Hi.
  pose proof (nth_error_firstn n l' i) as E1.
  pose proof (nth_error_firstn n l i) as E2.
  rewrite Hi in E1, E2. rewrite <- E1, <- E2. now rewrite H.
Qed.

Lemma nth_error_app_last {A} (l : list A) x :
  nth_error (l ++ [x]) (length l) = Some x.
Proof. induction l; simpl; auto. Qed.

(** ** The region-proposal variant *)

Section MaskRcnn.
Variable cv2_resize : ndarray Q -> Z -> Z -> result (ndarray Q).

(** [segm_postprocess] adds one array to the store, the mask, and touches
    nothing else. *)
Lemma segm_postprocess_run box raw im_h im_w st :
  segm_postprocess cv2_resize box raw im_h im_w st =
  match segm_mask cv2_resize box raw im_h im_w with
  | Ok m => Ok (length st, st ++ [AMask m])
  | Raise e => Raise e
  end.
Proof.
  unfold segm_postprocess, segm_mask.
  unfold bind at 1. unfold lift at 1.
  destruct (np_pad1 raw) as [padded|e]; cbn [rbind]; [|reflexivity].
  unfold bind at 1. unfold lift at 1.
  destruct (Qeq_bool _ 0); cbn [rbind]; [reflexivity|].
  unfold bind at 1. unfold lift at 1.
  destruct (cv2_resize _ _ _) as [resized|e]; cbn [rbind]; [|reflexivity].
  unfold bind at 1. unfold alloc at 1.
  unfold bind at 1. unfold lift at 1.
  destruct (slice2 _ _ _ _ _ _) as [src|e]; cbn [rbind]; [|reflexivity].
  unfold bind at 1. unfold load_mask, load, bind at 1.
  rewrite nth_error_app_last. unfold ret at 1.
  unfold bind at 1. unfold lift at 1.
  destruct (assign_slice2 _ _ _ _ _ _ _) as [new|e]; [|reflexivity].
  unfold bind at 1. unfold write.
  rewrite length_app. simpl length.
  replace (length st <? length st + 1)%nat with true
    by (symmetry; apply Nat.ltb_lt; lia).
  rewrite set_nth_app_last. reflexivity.
Qed.

Lemma mapM_append {A} (f : A -> M loc) (g : A -> result array) l :
  (forall x st, f x st = match g x with
                         | Ok v => Ok (length st, st ++ [v])
                         | Raise e => Raise e
                         end) ->
  forall st ys st', mapM f l st = Ok (ys, st') ->
  exists vs, Forall2 (fun x v => g x = Ok v) l vs /\
             ys = seq (length st) (length l) /\ st' = st ++ vs.
Proof.
  intros Hf. induction l as [|x l IH]; intros st ys st' H; simpl in H.
  - apply ret_Ok in H. destruct H as [-> ->].
    exists []. rewrite app_nil_r. repeat split. constructor.
  - step_in H. rewrite Hf in St. destruct (g x) as [v|e] eqn:Eg; [|discriminate].
    injection St as <- <-.
    step_in H. apply IH in St. destruct St as [vs [HF [-> ->]]].
    apply ret_Ok in H. destruct H as [-> ->].
    exists (v :: vs). split; [constructor; assumption|].
    rewrite length_app, <- app_assoc. simpl.
    replace (length st + 1)%nat with (S (length st)) by lia. auto.
Qed.

Lemma set_nth_read {A} (st : list A) l v l2 x y :
  nth_error st l2 = Some x -> nth_error (set_nth st l v) l2 = Some y ->
  (l2 = l /\ y = v) \/ (l2 <> l /\ y = x).
Proof.
  intros Hx Hy. destruct (Nat.eq_dec l2 l) as [->|Hne].
  - left. split; [reflexivity|].
    rewrite nth_error_set_nth_eq in Hy by (apply nth_error_Some; congruence).
    congruence.
  - right. split; [assumption|].
    rewrite nth_error_set_nth_ne in Hy by congruence. congruence.
Qed.

(** A successful run of [mask_rcnn_postprocess], step by step: the boxes
    are rescaled where they are, one mask is appended per zipped triple,
    then the three filtered arrays. *)
Lemma mask_rcnn_postprocess_run (outputs : list (String.string * loc))
    scale_x scale_y fh fw ih iw thr
    (st : store) (lb0 ls0 lc0 lr0 : loc) b s c raw ls lc lb lms st' :
  dict_get outputs "boxes"%string = Ok lb0 ->
  dict_get outputs "scores"%string = Ok ls0 ->
  dict_get outputs "classes"%string = Ok lc0 ->
  dict_get outputs "raw_masks"%string = Ok lr0 ->
  nth_error st lb0 = Some (ABoxes b) ->
  nth_error st ls0 = Some (AVec s) ->
  nth_error st lc0 = Some (AVec c) ->
  nth_error st lr0 = Some (ATensor raw) ->
  mask_rcnn_postprocess cv2_resize outputs scale_x scale_y fh fw ih iw thr st =
    Ok (ls, lc, lb, lms, st') ->
  let b' := map (rescale scale_x scale_y) b in
  let classes := map astype_uint32 c in
  let filt := map (fun v => Qlt_bool thr v) s in
  exists ms,
    length c = length s /\ length b = length s /\
    Forall2 (fun x m => rcnn_mask_of cv2_resize fh fw x = Ok m)
            (zip3 b' classes (subarrays raw)) ms /\
    st' = set_nth st lb0 (ABoxes b') ++ map AMask ms ++
          [AVec (bool_select s filt); AIVec (bool_select classes filt);
           ABoxes (bool_select b' filt)] /\
    ls = (length st + length ms)%nat /\ lc = S ls /\ lb = S (S ls) /\
    lms = bool_select (seq (length st) (length ms)) filt.
Proof.
  intros Db Ds Dc Dr Hb Hs Hc Hr H b' classes filt.
  unfold mask_rcnn_postprocess in H.
  step_in H. rewrite Db in St. injection St as <-.
  step_in H. rewrite Hb in St. injection St as <-.
  step_in H.
  step_in H. rewrite nth_error_set_nth_eq in St0 by assumption.
  injection St0 as <-.
  step_in H. rewrite map_map, set_nth_twice in H.
  change (map (fun x => scale_y_row scale_y (scale_x_row scale_x x)) b)
    with b' in H.
  clear St0.
  assert (Hother : forall l x y,
            nth_error st l = Some x ->
            nth_error (set_nth st lb0 (ABoxes b')) l = Some y ->
            y = x \/ exists z, y = ABoxes z).
  { intros l x y Hx Hy.
    destruct (set_nth_read _ _ _ _ _ _ Hx Hy) as [[_ ->]|[_ ->]]; eauto. }
  step_in H. rewrite Ds in St0. injection St0 as <-.
  step_in H. destruct (Hother _ _ _ Hs St0) as [E|[z E]]; [|discriminate].
  injection E as ->.
  step_in H. rewrite Dc in St1. injection St1 as <-.
  step_in H. destruct (Hother _ _ _ Hc St1) as [E|[z E]]; [|discriminate].
  injection E as ->.
  step_in H. rewrite Dr in St2. injection St2 as <-.
  step_in H. destruct (Hother _ _ _ Hr St2) as [E|[z E]]; [|discriminate].
  injection E as ->.
  step_in H. rewrite nth_error_set_nth_eq in St3 by assumption.
  injection St3 as <-.
  step_in H.
  apply (mapM_append _ (fun x => (m <- rcnn_mask_of cv2_resize fh fw x ;; Ok (AMask m))%result))
    in St3.
  2:{ intros [[box cls] raw_mask] st1. unfold bind, lift, rcnn_mask_of.
      destruct (index0 raw_mask (Z.to_nat cls)) as [r|e]; cbn [rbind];
        [|reflexivity].
      rewrite segm_postprocess_run.
      destruct (segm_mask _ _ _ _ _); reflexivity. }
  destruct St3 as [vs [HF [-> ->]]].
  assert (Hvs : exists ms, vs = map AMask ms /\
                  Forall2 (fun x m => rcnn_mask_of cv2_resize fh fw x = Ok m)
                          (zip3 b' classes (subarrays raw)) ms).
  { clear - HF. fold classes in HF.
    induction HF as [|x v l vs Hx HF IH].
    - exists []. split; [reflexivity|constructor].
    - destruct IH as [ms [-> HF']].
      destruct (rcnn_mask_of cv2_resize fh fw x) as [m|e] eqn:E; [|discriminate].
      injection Hx as <-. exists (m :: ms). split; [reflexivity|].
      constructor; assumption. }
  destruct Hvs as [ms [-> HF']].
  pose proof (Forall2_length HF') as Hlen.
  step_in H. step_in H.
  unfold np_bool_index in St3.
  destruct (Nat.eqb_spec (length (map astype_uint32 c))
              (length (map (fun v => Qlt_bool thr v) s))) as [Lc|Lc];
    [|discriminate].
  injection St3 as <-.
  step_in H. step_in H.
  unfold np_bool_index in St3.
  destruct (Nat.eqb_spec (length b')
              (length (map (fun v => Qlt_bool thr v) s))) as [Lb|Lb];
    [|discriminate].
  injection St3 as <-.
  step_in H. apply ret_Ok in H. destruct H as [E ->].
  injection E as -> -> -> ->.
  rewrite !length_map in Lc, Lb. unfold b' in Lb. rewrite length_map in Lb.
  exists ms. fold b' classes filt.
  rewrite !length_app, !length_map, !set_nth_length, Hlen. simpl length.
  rewrite length_map in Lc.
  repeat split; try assumption; try lia; try reflexivity.
  rewrite <- !app_assoc. reflexivity.
Qed.
End MaskRcnn.

(** ** Shapes along the prototype-mask pipeline *)

Lemma rbind_Ok {A B} (m : result A) (f : A -> result B) b :
  rbind m f = Ok b -> exists a, m = Ok a /\ f a = Ok b.
Proof. destruct m as [a|e]; simpl; [eauto|discriminate]. Qed.

Lemma broadcast2_shape {A B C} (da : A) (db : B) (f : A -> B -> C) a b out :
  broadcast2 da db f a b = Ok out ->
  broadcast_shapes (shape a) (shape b) = Ok (shape out).
Proof.
  unfold broadcast2. intros H. apply rbind_Ok in H.
  destruct H as [sh [-> H]]. now injection H as <-.
Qed.

Lemma broadcast_shapes_last3 a1 a2 c1 c2 n s :
  broadcast_shapes [a1; a2; n] [c1; c2; n] = Ok s ->
  exists e1 e2, s = [e1; e2; n].
Proof.
  unfold broadcast_shapes. simpl. rewrite Nat.eqb_refl.
  repeat match goal with
  | |- context [if ?c then _ else _] => destruct c; simpl
  end; intros H; try discriminate; injection H as <-; eauto.
Qed.

Lemma np_reshape_shape {A} (a : ndarray A) sh out :
  np_reshape a sh = Ok out -> shape out = sh.
Proof.
  unfold np_reshape. destruct (_ =? _)%nat; [|discriminate].
  now intros [= <-].
Qed.

Lemma crop_rows_shape h w n rows :
  crop_rows h w n = Ok rows -> shape rows = [h; w; n].
Proof.
  unfold crop_rows. intros H. apply rbind_Ok in H. destruct H as [r [_ H]].
  now apply np_reshape_shape in H.
Qed.

Lemma crop_cols_shape h w n cols :
  crop_cols h w n = Ok cols -> shape cols = [h; w; n].
Proof.
  unfold crop_cols. intros H. apply rbind_Ok in H. destruct H as [r [_ H]].
  now apply np_reshape_shape in H.
Qed.

Lemma np_transpose3_shape {A} (d : A) (a : ndarray A) p0 p1 p2 out :
  np_transpose3 d a (p0, p1, p2) = Ok out ->
  exists x y z, shape a = [x; y; z] /\
    shape out = [nth p0 [x; y; z] 0; nth p1 [x; y; z] 0; nth p2 [x; y; z] 0]%nat.
Proof.
  unfold np_transpose3.
  destruct (shape a) as [|x [|y [|z [|? ?]]]]; try discriminate.
  intros [= <-]. exists x, y, z. auto.
Qed.

(** [crop_mask] keeps the number of instances: with [n] boxes for [n] maps
    the result again has [n] as its last extent. *)
Lemma crop_mask_shape masks boxes padding h w n out :
  shape masks = [h; w; n] -> length boxes = n ->
  crop_mask masks boxes padding = Ok out ->
  exists h' w', shape out = [h'; w'; n].
Proof.
  intros Hs Hn. unfold crop_mask. rewrite Hs.
  pose proof (sanitize_coordinates_length (map b0 boxes) (map b2 boxes)
                (Qnat w) 0 padding) as [Lx1 Lx2].
  pose proof (sanitize_coordinates_length (map b1 boxes) (map b3 boxes)
                (Qnat h) 0 padding) as [Ly1 Ly2].
  destruct (sanitize_coordinates (map b0 boxes) (map b2 boxes) _ _ _)
    as [x1 x2].
  destruct (sanitize_coordinates (map b1 boxes) (map b3 boxes) _ _ _)
    as [y1 y2].
  simpl in Lx1, Lx2, Ly1, Ly2. rewrite length_map, Hn in Lx1, Lx2, Ly1, Ly2.
  intros H.
  apply rbind_Ok in H. destruct H as [rows0 [Hr0 H]].
  apply crop_rows_shape in Hr0.
  apply rbind_Ok in H. destruct H as [cols [Hc H]].
  apply crop_cols_shape in Hc.
  apply rbind_Ok in H. destruct H as [rows [Hr H]].
  apply np_transpose3_shape in Hr. destruct Hr as [x [y [z [E Hr]]]].
  rewrite Hr0 in E. injection E as <- <- <-. simpl in Hr.
  apply rbind_Ok in H. destruct H as [ml [Hml H]].
  apply broadcast2_shape in Hml. rewrite Hr in Hml. simpl in Hml.
  rewrite Lx1, broadcast_shapes_vec3 in Hml. injection Hml as Hml.
  apply rbind_Ok in H. destruct H as [mr [Hmr H]].
  apply broadcast2_shape in Hmr. rewrite Hr in Hmr. simpl in Hmr.
  rewrite Lx2, broadcast_shapes_vec3 in Hmr. injection Hmr as Hmr.
  apply rbind_Ok in H. destruct H as [mu [Hmu H]].
  apply broadcast2_shape in Hmu. rewrite Hc in Hmu. simpl in Hmu.
  rewrite Ly1, broadcast_shapes_vec3 in Hmu. injection Hmu as Hmu.
  apply rbind_Ok in H. destruct H as [md [Hmd H]].
  apply broadcast2_shape in Hmd. rewrite Hc in Hmd. simpl in Hmd.
  rewrite Ly2, broadcast_shapes_vec3 in Hmd. injection Hmd as Hmd.
  apply rbind_Ok in H. destruct H as [c1 [H1 H]].
  apply broadcast2_shape in H1. rewrite <- Hml, <- Hmr in H1.
  apply broadcast_shapes_last3 in H1. destruct H1 as [p1 [q1 H1]].
  apply rbind_Ok in H. destruct H as [c2 [H2 H]].
  apply broadcast2_shape in H2. rewrite H1, <- Hmu in H2.
  apply broadcast_shapes_last3 in H2. destruct H2 as [p2 [q2 H2]].
  apply rbind_Ok in H. destruct H as [c3 [H3 H]].
  apply broadcast2_shape in H3. rewrite H2, <- Hmd in H3.
  apply broadcast_shapes_last3 in H3. destruct H3 as [p3 [q3 H3]].
  apply broadcast2_shape in H. rewrite Hs, H3 in H.
  apply broadcast_shapes_last3 in H. exact H.
Qed.

Lemma np_matmul_T_shape proto coeffs out :
  np_matmul_T proto coeffs = Ok out ->
  exists h w k n, shape coeffs = [n; k] /\ shape out = [h; w; n].
Proof.
  unfold np_matmul_T.
  destruct (shape proto) as [|h [|w [|k [|? ?]]]]; try discriminate.
  destruct (shape coeffs) as [|n [|k' [|? ?]]]; try discriminate.
  destruct (k =? k')%nat; [|discriminate].
  intros [= <-]. exists h, w, k', n. auto.
Qed.

Lemma length_subarrays {A} (a : ndarray A) :
  length (subarrays a) = hd 0%nat (shape a).
Proof. unfold subarrays. now rewrite length_map, length_seq. Qed.

Lemma length_zip3_same {A B C} (a : list A) (b : list B) (c : list C) :
  length b = length a -> length c = length a ->
  length (zip3 a b c) = length a.
Proof.
  revert b c. induction a as [|x a IH]; intros [|y b] [|z c] Hb Hc;
    simpl in *; try discriminate; [reflexivity|].
  f_equal. apply IH; lia.
Qed.

Lemma length_set_cols_x b x1 x2 :
  length x1 = length b -> length x2 = length b ->
  length (set_cols_x b x1 x2) = length b.
Proof.
  intros. unfold set_cols_x. rewrite length_map.
  now apply length_zip3_same.
Qed.

Lemma length_set_cols_y b y1 y2 :
  length y1 = length b -> length y2 = length b ->
  length (set_cols_y b y1 y2) = length b.
Proof.
  intros. unfold set_cols_y. rewrite length_map.
  now apply length_zip3_same.
Qed.

(** ** Mask buffers *)

(** Pasting into a fresh canvas of zeros leaves zeros outside the window. *)
Lemma assign_zero_outside h w r0 r1 c0 c1 src m :
  assign_slice2 0%Z (np_zeros2 h w) r0 r1 c0 c1 src = Ok m ->
  zero_outside m h w (py_bound h r0) (py_bound h r1)
               (py_bound w c0) (py_bound w c1).
Proof.
  unfold assign_slice2. simpl shape. intros H.
  apply rbind_Ok in H. destruct H as [sh [_ H]].
  destruct (list_eq_dec Nat.eq_dec sh _); [|discriminate].
  injection H as <-. split; [reflexivity|].
  intros i j Hi Hj Hout.
  rewrite get_tabulate by (repeat constructor; assumption).
  simpl nth.
  destruct ((py_bound h r0 <=? i) && (i <? py_bound h r1) &&
            (py_bound w c0 <=? j) && (j <? py_bound w c1))%nat eqn:E.
  - exfalso. apply Hout.
    repeat (apply andb_prop in E; destruct E as [E ?]).
    repeat match goal with
    | H : (_ <=? _)%nat = true |- _ => apply Nat.leb_le in H
    | H : (_ <? _)%nat = true |- _ => apply Nat.ltb_lt in H
    end. lia.
  - unfold get, np_zeros2. simpl data. apply nth_repeat.
Qed.



Lemma mask_window_at_app h w win l st ext :
  mask_window_at h w win l st -> mask_window_at h w win l (st ++ ext).
Proof.
  intros [m [Hm Hz]]. exists m. split; [|assumption].
  rewrite nth_error_app1; [assumption|].
  apply nth_error_Some. congruence.
Qed.

(** A loop whose body only appends to the store. *)
Lemma mapM_extends {A} (P : loc -> store -> Prop) (f : A -> M loc) l :
  (forall y st ext, P y st -> P y (st ++ ext)) ->
  (forall x st y st', f x st = Ok (y, st') ->
     exists ext, st' = st ++ ext /\ (length st <= y)%nat /\ P y st') ->
  forall st ys st', mapM f l st = Ok (ys, st') ->
  exists ext, st' = st ++ ext /\ length ys = length l /\
              Forall (fun y => (length st <= y)%nat /\ P y st') ys.
Proof.
  intros HP Hf. induction l as [|x l IH]; intros st ys st' H; simpl in H.
  - apply ret_Ok in H. destruct H as [-> ->].
    exists []. rewrite app_nil_r. repeat split. constructor.
  - step_in H. apply Hf in St. destruct St as [e1 [-> [Hy Py]]].
    step_in H. apply IH in St. destruct St as [e2 [-> [Hl HF]]].
    apply ret_Ok in H. destruct H as [-> ->].
    exists (e1 ++ e2). rewrite app_assoc. split; [reflexivity|].
    split; [simpl; now rewrite Hl|].
    constructor.
    + split; [assumption|]. now apply HP.
    + eapply Forall_impl; [|exact HF]. simpl. intros y [H1 H2].
      split; [|assumption]. rewrite length_app in H1. lia.
Qed.

(** ** The prototype-mask variant *)

Section Yolact.
Variable cv2_resize : ndarray Q -> Z -> Z -> result (ndarray Q).
Variable np_exp : Q -> Q.

(** One round of the mask loop appends the canvas and its copy. *)
Lemma yolact_mask_step_run boxes x1 y1 x2 y2 w h it st y st' :
  yolact_mask_step cv2_resize boxes x1 y1 x2 y2 w h it st = Ok (y, st') ->
  exists ext, st' = st ++ ext /\ (length st <= y)%nat.
Proof.
  destruct it as [mask_id mask]. unfold yolact_mask_step. intros H.
  do 9 step_in H.
  step_in H. rewrite nth_error_app_last in St7. injection St7 as <-.
  step_in H. step_in H. rewrite set_nth_app_last in H.
  step_in H. rewrite nth_error_app_last in St9. injection St9 as <-.
  apply alloc_Ok in H. destruct H as [-> ->].
  exists [AMask a7; AMask a7]. rewrite <- app_assoc. split; [reflexivity|].
  rewrite length_app. simpl length. lia.
Qed.

(** A successful run of the body of [yolact_segm_postprocess]: [boxes] is
    rewritten where it is, mask arrays are appended, and one mask is
    returned per box. *)
Lemma yolact_segm_body_run boxes masks score classes proto w h sx sy
    st b r st' :
  nth_error st boxes = Some (ABoxes b) ->
  hd 0%nat (shape masks) = length b ->
  yolact_segm_body cv2_resize np_exp boxes masks score classes proto w h
    sx sy st = Ok (r, st') ->
  exists b' ext lms,
    r = RetTuple boxes score classes lms /\
    st' = set_nth st boxes (ABoxes b') ++ ext /\
    length b' = length b /\ length lms = length b /\
    Forall (fun l => (length st <= l)%nat) lms.
Proof.
  intros Hb Hn H. unfold yolact_segm_body in H.
  step_in H. apply np_matmul_T_shape in St.
  destruct St as [ph [pw [k [n [Sc Sm]]]]].
  rewrite Sc in Hn. simpl in Hn. subst n.
  step_in H. rewrite Hb in St. injection St as <-.
  step_in H.
  apply (crop_mask_shape _ _ _ ph pw (length b)) in St;
    [|exact Sm|reflexivity].
  destruct St as [h' [w' Scrop]].
  step_in H. apply np_transpose3_shape in St.
  destruct St as [x [y [z [E St]]]].
  rewrite Scrop in E. injection E as <- <- <-. simpl in St.
  pose proof (sanitize_coordinates_length (map b0 b) (map b2 b) (Qnat w) sx 0)
    as [Lx1 Lx2].
  destruct (sanitize_coordinates (map b0 b) (map b2 b) (Qnat w) 0 0)
    as [x1 x2].
  destruct (sanitize_coordinates (map b1 b) (map b3 b) (Qnat h) 0 0)
    as [y1 y2].
  destruct (sanitize_coordinates (map b0 b) (map b2 b) (Qnat w) sx 0)
    as [nx1 nx2].
  simpl in Lx1, Lx2. rewrite length_map in Lx1, Lx2.
  step_in H.
  step_in H. rewrite nth_error_set_nth_eq in St1 by assumption.
  injection St1 as <-.
  pose proof (sanitize_coordinates_length
                (map b1 (set_cols_x b nx1 nx2)) (map b3 (set_cols_x b nx1 nx2))
                (Qnat h) sy 0) as [Ly1 Ly2].
  destruct (sanitize_coordinates (map b1 (set_cols_x b nx1 nx2)) _ _ _ _)
    as [ny1 ny2].
  simpl in Ly1, Ly2. rewrite length_map in Ly1, Ly2.
  pose proof (length_set_cols_x b nx1 nx2 Lx1 Lx2) as Lb1.
  rewrite Lb1 in Ly1, Ly2.
  step_in H. rewrite set_nth_twice in H.
  step_in H.
  apply (mapM_extends (fun _ _ => True)) in St2.
  2:{ intros; exact I. }
  2:{ intros it sti yi sti' Hx.
      destruct (yolact_mask_step_run _ _ _ _ _ _ _ _ _ _ _ Hx) as [ei [Ei Li]].
      exists ei. auto. }
  destruct St2 as [ext [-> [Hl HF]]].
  apply ret_Ok in H. destruct H as [-> ->].
  exists (set_cols_y (set_cols_x b nx1 nx2) ny1 ny2), ext, a4.
  split; [reflexivity|]. split; [reflexivity|].
  split; [rewrite length_set_cols_y; congruence|].
  split.
  - rewrite Hl, length_combine, length_seq, length_subarrays, St. simpl. lia.
  - eapply Forall_impl; [|exact HF]. simpl. intros l [H1 _].
    rewrite set_nth_length in H1. exact H1.
Qed.

(** With the default [score_threshold = 0] the pre-filter is skipped. *)
Lemma yolact_segm_postprocess_default boxes masks score classes proto w h
    sx sy :
  yolact_segm_postprocess cv2_resize np_exp boxes masks score classes proto
    w h 0 sx sy =
  yolact_segm_body cv2_resize np_exp boxes masks score classes proto
    w h sx sy.
Proof. reflexivity. Qed.

(** *** The class loop *)

Lemma bool_select_none {A} (a : list A) (mask : list bool) :
  Forall (fun m => m = false) mask -> bool_select a mask = [].
Proof.
  intros H. revert a. induction H as [|m mask Hm H IH]; intros [|x a];
    simpl; try reflexivity. subst. apply IH.
Qed.

(** A class without a score above the threshold leaves the lists alone. *)
Lemma yolact_class_step_skip boxes conf fh fw thr acc cls :
  Forall (fun v => v <= thr) (row2 0 conf cls) ->
  yolact_class_step boxes conf fh fw thr acc cls = Ok acc.
Proof.
  intros H. unfold yolact_class_step. destruct acc as [[il cl] sl].
  rewrite (bool_select_none (row2 0 conf cls)); [reflexivity|].
  apply Forall_map. eapply Forall_impl; [|exact H].
  intros v Hv. unfold Qlt_bool.
  apply Qle_bool_iff in Hv. now rewrite Hv.
Qed.

Lemma yolact_class_loop_skip boxes conf fh fw thr acc classes :
  (forall cls, In cls classes -> Forall (fun v => v <= thr) (row2 0 conf cls)) ->
  yolact_class_loop boxes conf fh fw thr acc classes = Ok acc.
Proof.
  induction classes as [|cls rest IH]; intros H; simpl; [reflexivity|].
  rewrite yolact_class_step_skip by (apply H; now left).
  cbn [rbind]. apply IH. intros; apply H; now right.
Qed.

Lemma nms_nonempty x1 y1 x2 y2 scores thresh ib :
  scores <> [] -> nms x1 y1 x2 y2 scores thresh ib None <> [].
Proof.
  intros Hs. unfold nms.
  destruct (rev (argsort scores)) as [|i rest] eqn:E.
  - pose proof (Permutation_length (order_perm scores)) as Hl.
    rewrite E, length_seq in Hl. destruct scores; [congruence|discriminate].
  - simp nms_loop. discriminate.
Qed.

Lemma yolact_class_step_ok boxes conf fh fw thr acc cls acc' :
  lists_ok acc ->
  yolact_class_step boxes conf fh fw thr acc cls = Ok acc' ->
  lists_ok acc'.
Proof.
  destruct acc as [[il cl] sl]. intros [H1 [H2 H3]].
  unfold yolact_class_step.
  set (sc := bool_select (row2 0 conf cls) _).
  set (ix := bool_select (seq 0 _) _).
  destruct (Nat.eqb_spec (length sc) 0) as [E|E].
  - intros [= <-]. repeat split; assumption.
  - intros H. apply rbind_Ok in H. destruct H as [sel [_ H]].
    destruct (sanitize_coordinates (map b0 sel) _ _ _ _) as [x1 x2].
    destruct (sanitize_coordinates (map b1 sel) _ _ _ _) as [y1 y2].
    injection H as <-.
    assert (Hk : nms x1 y1 x2 y2 sc (1 # 2) false None <> []).
    { apply nms_nonempty. destruct sc; simpl in E; congruence. }
    unfold lists_ok. rewrite !concat_app. simpl. rewrite !app_nil_r.
    rewrite !length_app, repeat_length. unfold gather. rewrite !length_map.
    repeat split; try lia. right.
    destruct (nms x1 y1 x2 y2 sc (1 # 2) false None); [congruence|].
    simpl. intros Hc. apply app_eq_nil in Hc. destruct Hc; discriminate.
Qed.

Lemma yolact_class_loop_ok boxes conf fh fw thr classes :
  forall acc acc', lists_ok acc ->
  yolact_class_loop boxes conf fh fw thr acc classes = Ok acc' ->
  lists_ok acc'.
Proof.
  induction classes as [|cls rest IH]; intros acc acc' Hacc H; simpl in H.
  - now injection H as <-.
  - apply rbind_Ok in H. destruct H as [a [Ha H]].
    eapply IH; [|exact H]. eapply yolact_class_step_ok; eassumption.
Qed.

Lemma take_length {A} (a : list A) idx r :
  take a idx = Ok r -> length r = length idx.
Proof.
  revert r. induction idx as [|i idx IH]; intros r H; simpl in H.
  - now injection H as <-.
  - apply rbind_Ok in H. destruct H as [x [_ H]].
    apply rbind_Ok in H. destruct H as [r' [Hr H]].
    injection H as <-. simpl. f_equal. now apply IH.
Qed.

Lemma take_rows_shape {A} (d : A) (a : ndarray A) idx r :
  take_rows d a idx = Ok r -> hd 0%nat (shape r) = length idx.
Proof.
  unfold take_rows.
  destruct (shape a) as [|n [|m [|? ?]]]; try discriminate.
  destruct (forallb _ idx); [|discriminate]. now intros [= <-].
Qed.

Lemma np_concatenate_Ok {A} (l : list (list A)) r :
  np_concatenate l = Ok r -> l <> [] /\ r = concat l.
Proof.
  destruct l; simpl; [discriminate|]. intros [= <-]. split; [discriminate|].
  reflexivity.
Qed.

Lemma nth_error_app_last_cons {A} (l : list A) x rest :
  nth_error (l ++ x :: rest) (length l) = Some x.
Proof. induction l; simpl; auto. Qed.

Lemma set_nth_app_head {A} (l : list A) x rest v :
  set_nth (l ++ x :: rest) (length l) v = l ++ v :: rest.
Proof. induction l as [|y l IH]; simpl; [reflexivity|]. now rewrite IH. Qed.

(** *** The whole call *)

(** A successful run of [yolact_postprocess] only appends to the store and
    returns three new arrays and a list of new masks, all of one length. *)
Lemma yolact_postprocess_run (outputs : list (String.string * loc))
    scale_x scale_y fh fw ih iw thr (st : store) ls lc lb ms st' :
  yolact_postprocess cv2_resize np_exp outputs scale_x scale_y fh fw ih iw thr
    st = Ok (ls, lc, lb, ms, st') ->
  exists sc cl bx lms ext,
    ms = inl lms /\ st' = st ++ ext /\
    nth_error st' ls = Some (AVec sc) /\
    nth_error st' lc = Some (AIVec cl) /\
    nth_error st' lb = Some (ABoxes bx) /\
    length cl = length sc /\ length bx = length sc /\
    length lms = length sc /\
    (length st <= ls)%nat /\ (length st <= lc)%nat /\ (length st <= lb)%nat /\
    Forall (fun l => (length st <= l)%nat) lms.
Proof.
  intros H. unfold yolact_postprocess in H.
  do 15 step_in H.
  step_in H.
  assert (Hinv : lists_ok a14).
  { eapply yolact_class_loop_ok; [|exact St14].
    simpl. repeat split. now left. }
  destruct a14 as [[idx_lst cls_lst] scr_lst].
  destruct Hinv as [L1 [L2 L3]].
  step_in H. apply np_concatenate_Ok in St15. destruct St15 as [Hne ->].
  step_in H. apply np_concatenate_Ok in St15. destruct St15 as [_ ->].
  step_in H. apply np_concatenate_Ok in St15. destruct St15 as [_ ->].
  destruct L3 as [L3|L3]; [contradiction|].
  set (scores := concat scr_lst) in *.
  set (idx2 := rev (argsort scores)) in *.
  assert (Lidx2 : length idx2 = length (concat idx_lst)).
  { unfold idx2. rewrite length_order. symmetry. exact L2. }
  step_in H. apply take_length in St15. rewrite length_map in St15.
  step_in H. apply take_rows_shape in St16. rewrite length_map in St16.
  step_in H. step_in H. step_in H.
  assert (Hpos : (0 < length a14 * 4)%nat).
  { rewrite St15, Lidx2. destruct (concat idx_lst); [congruence|simpl; lia]. }
  apply Nat.ltb_lt in Hpos. rewrite Hpos in H.
  rewrite !length_app in H. simpl length in H.
  rewrite <- !app_assoc in H. simpl app in H.
  step_in H. rewrite yolact_segm_postprocess_default in St17.
  apply yolact_segm_body_run with (b := a14) in St17.
  2:{ apply nth_error_app_last_cons. }
  2:{ congruence. }
  destruct St17 as [b' [ext [lms [-> [-> [Lb' [Llms HF]]]]]]].
  apply ret_Ok in H. destruct H as [E ->]. injection E as -> -> -> ->.
  rewrite set_nth_app_head in *.
  set (cl := map (fun i => nth i (concat cls_lst) 0%Z) idx2) in *.
  exists (gather scores idx2), cl, b', lms,
    ([ABoxes b'; AVec (gather scores idx2); AIVec cl] ++ ext).
  assert (Lcl : length cl = length idx2) by apply length_map.
  assert (Lsc : length (gather scores idx2) = length idx2) by apply length_map.
  rewrite <- !app_assoc. simpl app.
  split; [reflexivity|]. split; [reflexivity|].
  split.
  { replace (st ++ ABoxes b' :: AVec (gather scores idx2) :: AIVec cl :: ext)
      with ((st ++ [ABoxes b']) ++
            AVec (gather scores idx2) :: AIVec cl :: ext)
      by (rewrite <- app_assoc; reflexivity).
    replace (length st + 1)%nat with (length (st ++ [ABoxes b']))
      by (rewrite length_app; reflexivity).
    apply nth_error_app_last_cons. }
  split.
  { replace (st ++ ABoxes b' :: AVec (gather scores idx2) :: AIVec cl :: ext)
      with ((st ++ [ABoxes b'; AVec (gather scores idx2)]) ++ AIVec cl :: ext)
      by (rewrite <- app_assoc; reflexivity).
    replace (length st + 1 + 1)%nat
      with (length (st ++ [ABoxes b'; AVec (gather scores idx2)]))
      by (rewrite length_app; simpl; lia).
    apply nth_error_app_last_cons. }
  split; [apply nth_error_app_last_cons|].
  repeat split; try lia.
  eapply Forall_impl; [|exact HF]. simpl. intros l H1.
  rewrite length_app in H1. lia.
Qed.
End Yolact.

(** ** Empty detection sets *)

(** Whenever no foreground class has a score above the threshold,
    [yolact_postprocess] does not return: the three lists stay empty and
    [np.concatenate] raises. *)
Lemma yolact_postprocess_no_detection cv2_resize np_exp
    (outputs : list (String.string * loc)) scale_x scale_y fh fw ih iw thr
    (st : store) :
  no_detection outputs st thr ->
  forall r, yolact_postprocess cv2_resize np_exp outputs scale_x scale_y
              fh fw ih iw thr st <> Ok r.
Proof.
  intros Hno r H. destruct r as [r st']. unfold yolact_postprocess in H.
  do 16 step_in H.
  rewrite yolact_class_loop_skip in St14.
  - injection St14 as <-. step_in H. discriminate.
  - intros cls Hc. apply in_seq in Hc.
    eapply Hno; try eassumption. lia.
Qed.

(** When the pre-filter of [yolact_segm_postprocess] removes every entry,
    the call allocates the three empty filtered arrays and returns
    [[] * 4], the empty list. *)
Lemma yolact_segm_postprocess_all_filtered cv2_resize np_exp
    (boxes score classes : loc) masks proto w h thr sx sy (st : store)
    s b c n k :
  0 < thr ->
  nth_error st score = Some (AVec s) ->
  nth_error st boxes = Some (ABoxes b) ->
  nth_error st classes = Some (AIVec c) ->
  shape masks = [n; k] ->
  length b = length s -> n = length s -> length c = length s ->
  Forall (fun v => v <= thr) s ->
  yolact_segm_postprocess cv2_resize np_exp boxes masks score classes proto
    w h thr sx sy st =
  Ok (RetList [], st ++ [AVec []; ABoxes []; AIVec []]).
Proof.
  intros Hthr Hs Hb Hc Hm Lb Ln Lc Hall.
  assert (Hkeep : Forall (fun m => m = false)
                         (map (fun v => Qlt_bool thr v) s)).
  { apply Forall_map. eapply Forall_impl; [|exact Hall].
    intros v Hv. unfold Qlt_bool. apply Qle_bool_iff in Hv. now rewrite Hv. }
  unfold yolact_segm_postprocess.
  assert (E : Qlt_bool 0 thr = true).
  { unfold Qlt_bool. destruct (Qle_bool thr 0) eqn:E; [|reflexivity].
    apply Qle_bool_iff in E. lra. }
  rewrite E.
  unfold bind at 1. unfold load_vec, bind at 1, load. rewrite Hs.
  unfold ret at 1. unfold bind at 1, alloc at 1.
  rewrite (bool_select_none s) by assumption.
  unfold bind at 1. unfold load_boxes, bind at 1, load.
  rewrite nth_error_app1 by (apply nth_error_Some; congruence).
  rewrite Hb. unfold ret at 1.
  unfold bind at 1, lift at 1, np_bool_index.
  rewrite length_map, Lb, Nat.eqb_refl.
  rewrite (bool_select_none b) by assumption.
  unfold bind at 1, alloc at 1.
  unfold bind at 1, lift at 1, bool_rows. rewrite Hm.
  rewrite length_map, Ln, Nat.eqb_refl.
  unfold bind at 1. unfold load_ivec, bind at 1, load.
  rewrite !nth_error_app1
    by (rewrite ?length_app; simpl;
        assert (classes < length st)%nat
          by (apply nth_error_Some; congruence); lia).
  rewrite Hc. unfold ret at 1.
  unfold bind at 1, lift at 1, np_bool_index.
  rewrite ?length_map, Lc, Nat.eqb_refl.
  rewrite (bool_select_none c) by assumption.
  unfold bind at 1, alloc at 1. simpl.
  unfold ret. rewrite <- !app_assoc. reflexivity.
Qed.

(** C1 (failing input).  Two candidate boxes whose only foreground class
    scores [0.1] and [0.2], threshold [0.5]: [yolact_postprocess] raises
    [ValueError] instead of returning empty results.  And when
    [yolact_segm_postprocess] filters everything out it returns the single
    empty list [[] * 4 = []], which its caller cannot unpack into four
    values. *)
Lemma yolact_postprocess_no_detection_raises :
  no_detection yolact_outputs (yolact_store (1 # 10) (2 # 10)) (1 # 2) /\
  yolact_postprocess resize_nearest exp_taylor2 yolact_outputs 1 1 4 4 4 4
    (1 # 2) (yolact_store (1 # 10) (2 # 10)) = Raise ValueError /\
  (exists st',
     yolact_segm_postprocess resize_nearest exp_taylor2 0%nat
       (mkArr [2; 1]%nat [1; -1]) 1%nat 2%nat (mkArr [2; 2; 1]%nat [1; 1; 1; 1])
       4 4 (1 # 2) 0 0
       [ABoxes [mkBox 0 0 (1 # 2) (1 # 2); mkBox (1 # 2) (1 # 2) 1 1];
        AVec [1 # 10; 2 # 10]; AIVec [1%Z; 1%Z]]
     = Ok (RetList [], st')).
Proof.
  split; [|split].
  - intros l c3 c0 cf cls Hd Hl Hi Ht Hc.
    injection Hd as <-. injection Hl as <-. injection Hi as <-.
    injection Ht as <-.
    unfold row2. simpl shape. simpl nth. simpl seq.
    repeat constructor; unfold get; simpl;
      destruct cls as [|[|cls]]; try lia; simpl;
      try (vm_compute; discriminate);
      destruct (cls * 2 + _)%nat; vm_compute; discriminate.
  - vm_compute. reflexivity.
  - eexists. vm_compute. reflexivity.
Qed.

(** ** What a call does to the store *)

Lemma bool_select_In {A} (a : list A) (mask : list bool) x :
  In x (bool_select a mask) -> In x a.
Proof.
  revert mask. induction a as [|y a IH]; intros [|m mask] H; simpl in *;
    try contradiction.
  destruct m; [destruct H as [->|H]|]; eauto.
Qed.

Lemma Forall2_nth {A B} (R : A -> B -> Prop) l l' i da db :
  Forall2 R l l' -> (i < length l)%nat -> R (nth i l da) (nth i l' db).
Proof.
  intros H. revert i. induction H as [|x y l l' Hxy H IH]; intros i Hi;
    simpl in *; [lia|].
  destruct i; [assumption|]. apply IH. lia.
Qed.


(** ** Parallel outputs *)

Lemma bool_select_kept {A} (a : list A) (d : A) (p : Q -> bool) (s : list Q) :
  length a = length s ->
  bool_select a (map p s) =
  map (fun i => nth i a d)
      (filter (fun i => p (nth i s 0)) (seq 0 (length s))).
Proof.
  revert a. induction s as [|x s IH]; intros [|y a] H; simpl in *;
    try discriminate; [reflexivity|].
  injection H as H.
  rewrite <- seq_shift, filter_map_swap. simpl.
  destruct (p x); simpl; rewrite map_map; simpl; rewrite IH by assumption;
    reflexivity.
Qed.

Lemma length_zip3_le {A B C} (a : list A) (b : list B) (c : list C) :
  length b = length a -> (length a <= length c)%nat ->
  length (zip3 a b c) = length a.
Proof.
  revert b c. induction a as [|x a IH]; intros [|y b] [|z c] Hb Hc;
    simpl in *; try discriminate; try lia; try reflexivity.
  f_equal. apply IH; lia.
Qed.

Lemma nth_zip3 {A B C} (a : list A) (b : list B) (c : list C) i da db dc :
  (i < length (zip3 a b c))%nat ->
  nth i (zip3 a b c) (da, db, dc) = (nth i a da, nth i b db, nth i c dc).
Proof.
  revert b c i. induction a as [|x a IH]; intros [|y b] [|z c] i H;
    simpl in *; try lia.
  destruct i; [reflexivity|]. apply IH. lia.
Qed.

Lemma nth_subarrays {A} (a : ndarray A) i d :
  (i < hd 0%nat (shape a))%nat -> nth i (subarrays a) d = subarray a i.
Proof.
  intros H. unfold subarrays.
  rewrite (nth_indep _ d (subarray a 0))
    by (now rewrite length_map, length_seq).
  rewrite (map_nth (subarray a)), seq_nth by assumption. reflexivity.
Qed.

Lemma Forall2_map_self {A B} (R : B -> A -> Prop) (g : A -> B) l :
  Forall (fun i => R (g i) i) l -> Forall2 R (map g l) l.
Proof. induction 1; simpl; constructor; assumption. Qed.

(** C5 (as stated, refuted).  With one detection above the threshold and a
    [raw_masks] array that has no entry, [zip] stops at once:
    [mask_rcnn_postprocess] returns one score, one class, one box and no
    mask. *)
Lemma mask_rcnn_postprocess_short_masks :
  exists ls lc lb st',
    mask_rcnn_postprocess resize_nearest rcnn_outputs 2 2 4 4 8 8 (1 # 2)
      (rcnn_store true) = Ok (ls, lc, lb, [], st') /\
    nth_error st' ls = Some (AVec [9 # 10]) /\
    nth_error st' lc = Some (AIVec [1%Z]) /\
    length [9 # 10] <> length (@nil loc).
Proof.
  do 4 eexists. split; [vm_compute; reflexivity|].
  split; [reflexivity|]. split; [reflexivity|]. discriminate.
Qed.

(** C5 (amended).  Region-proposal variant: for every input whose
    [raw_masks] has at least as many entries as [scores], a call that
    returns yields exactly the raw detections whose score is strictly above
    [conf_threshold], in index order: the k-th returned score, class, box
    (rescaled) and mask all come from the k-th such raw index, so the four
    sequences have the same length.  Prototype-mask variant: a call that
    returns yields a score array, a class array, a box array and a list of
    masks of one common length. *)
Theorem postprocess_parallel_outputs cv2_resize np_exp
    (outputs : list (String.string * loc)) scale_x scale_y fh fw ih iw thr
    (st : store) :
  (forall (lb0 ls0 lc0 lr0 : loc) b s c raw ls lc lb lms st',
     dict_get outputs "boxes"%string = Ok lb0 ->
     dict_get outputs "scores"%string = Ok ls0 ->
     dict_get outputs "classes"%string = Ok lc0 ->
     dict_get outputs "raw_masks"%string = Ok lr0 ->
     nth_error st lb0 = Some (ABoxes b) ->
     nth_error st ls0 = Some (AVec s) ->
     nth_error st lc0 = Some (AVec c) ->
     nth_error st lr0 = Some (ATensor raw) ->
     (length s <= hd 0%nat (shape raw))%nat ->
     mask_rcnn_postprocess cv2_resize outputs scale_x scale_y fh fw ih iw thr
       st = Ok (ls, lc, lb, lms, st') ->
     let kept := kept_indices s thr in
     nth_error st' ls = Some (AVec (map (fun i => nth i s 0) kept)) /\
     nth_error st' lc =
       Some (AIVec (map (fun i => astype_uint32 (nth i c 0)) kept)) /\
     nth_error st' lb =
       Some (ABoxes (map (fun i => rescale scale_x scale_y
                                     (nth i b (mkBox 0 0 0 0))) kept)) /\
     length lms = length kept /\
     Forall2 (fun l i =>
                exists m, nth_error st' l = Some (AMask m) /\
                  rcnn_mask_of cv2_resize fh fw
                    (rescale scale_x scale_y (nth i b (mkBox 0 0 0 0)),
                     astype_uint32 (nth i c 0), subarray raw i) = Ok m)
             lms kept) /\
  (forall ls lc lb ms st',
     yolact_postprocess cv2_resize np_exp outputs scale_x scale_y fh fw ih iw
       thr st = Ok (ls, lc, lb, ms, st') ->
     exists sc cl bx lms,
       ms = inl lms /\
       nth_error st' ls = Some (AVec sc) /\
       nth_error st' lc = Some (AIVec cl) /\
       nth_error st' lb = Some (ABoxes bx) /\
       length cl = length sc /\ length bx = length sc /\
       length lms = length sc).
Proof.
  split.
  - intros lb0 ls0 lc0 lr0 b s c raw ls lc lb lms st'
           Db Ds Dc Dr Hb Hs Hc Hr Hraw H kept.
    destruct (mask_rcnn_postprocess_run cv2_resize outputs scale_x scale_y
                fh fw ih iw thr st lb0 ls0 lc0 lr0 b s c raw ls lc lb lms st'
                Db Ds Dc Dr Hb Hs Hc Hr H)
      as [ms [Lc [Lb [HF [-> [-> [-> [-> ->]]]]]]]].
    set (b' := map (rescale scale_x scale_y) b) in *.
    set (classes := map astype_uint32 c) in *.
    set (filt := map (fun v => Qlt_bool thr v) s) in *.
    set (S0 := set_nth st lb0 (ABoxes b')).
    assert (LS0 : length S0 = length st) by apply set_nth_length.
    assert (Lms : length ms = length s).
    { rewrite <- (Forall2_length HF). rewrite length_zip3_le.
      - unfold b'. now rewrite length_map.
      - unfold b', classes. rewrite !length_map. congruence.
      - unfold b'. rewrite length_map, length_subarrays. lia. }
    assert (Lfilt : length filt = length s) by apply length_map.
    split; [|split; [|split; [|split]]].
    + replace (S0 ++ map AMask ms ++ _)
        with ((S0 ++ map AMask ms) ++
              AVec (bool_select s filt) ::
              [AIVec (bool_select classes filt); ABoxes (bool_select b' filt)])
        by (rewrite <- app_assoc; reflexivity).
      replace (length st + length ms)%nat with (length (S0 ++ map AMask ms))
        by (rewrite length_app, length_map; lia).
      rewrite nth_error_app_last_cons.
      unfold filt. now rewrite (bool_select_kept s 0).
    + replace (S0 ++ map AMask ms ++ _)
        with ((S0 ++ map AMask ms ++ [AVec (bool_select s filt)]) ++
              AIVec (bool_select classes filt) ::
              [ABoxes (bool_select b' filt)])
        by (rewrite <- !app_assoc; reflexivity).
      replace (S (length st + length ms))
        with (length (S0 ++ map AMask ms ++ [AVec (bool_select s filt)]))
        by (rewrite !length_app, length_map; simpl; lia).
      rewrite nth_error_app_last_cons.
      unfold filt.
      rewrite (bool_select_kept classes (astype_uint32 0))
        by (unfold classes; now rewrite length_map).
      do 2 f_equal. apply map_ext. intros i. unfold classes.
      apply (map_nth astype_uint32).
    + replace (S0 ++ map AMask ms ++ _)
        with ((S0 ++ map AMask ms ++ [AVec (bool_select s filt);
                                      AIVec (bool_select classes filt)]) ++
              [ABoxes (bool_select b' filt)])
        by (rewrite <- !app_assoc; reflexivity).
      replace (S (S (length st + length ms)))
        with (length (S0 ++ map AMask ms ++
                      [AVec (bool_select s filt);
                       AIVec (bool_select classes filt)]))
        by (rewrite !length_app, length_map; simpl; lia).
      rewrite nth_error_app_last_cons.
      unfold filt.
      rewrite (bool_select_kept b' (rescale scale_x scale_y (mkBox 0 0 0 0)))
        by (unfold b'; now rewrite length_map).
      do 2 f_equal. apply map_ext. intros i. unfold b'.
      apply (map_nth (rescale scale_x scale_y)).
    + unfold filt. rewrite Lms.
      rewrite (bool_select_kept (seq (length st) (length s)) 0%nat)
        by apply length_seq.
      apply length_map.
    + unfold filt. rewrite Lms.
      rewrite (bool_select_kept (seq (length st) (length s)) 0%nat)
        by apply length_seq.
      apply Forall2_map_self. apply Forall_forall. intros i Hi.
      apply filter_In in Hi. destruct Hi as [Hi _]. apply in_seq in Hi.
      rewrite seq_nth by lia.
      exists (nth i ms (mkArr [] [])). split.
      * rewrite nth_error_app2 by lia. rewrite LS0.
        replace (length st + i - length st)%nat with i by lia.
        rewrite nth_error_app1 by (rewrite length_map; lia).
        rewrite nth_error_map.
        rewrite (nth_error_nth' ms (mkArr [] [])) by lia. reflexivity.
      * pose proof (Forall2_length HF) as Hlen.
        pose proof (Forall2_nth _ _ _ i
                      (rescale scale_x scale_y (mkBox 0 0 0 0),
                       astype_uint32 0, mkArr [] []) (mkArr [] []) HF) as Hn.
        cbv beta in Hn. rewrite nth_zip3 in Hn by lia.
        unfold b', classes in Hn.
        rewrite (map_nth (rescale scale_x scale_y)) in Hn.
        rewrite (map_nth astype_uint32) in Hn.
        rewrite nth_subarrays in Hn by lia.
        apply Hn. fold b' classes. rewrite Hlen. lia.
  - intros ls lc lb ms st' H.
    destruct (yolact_postprocess_run cv2_resize np_exp outputs scale_x scale_y
                fh fw ih iw thr st ls lc lb ms st' H)
      as [sc [cl [bx [lms [ext [-> [-> [H1 [H2 [H3 [L1 [L2 [L3 _]]]]]]]]]]]]].
    exists sc, cl, bx, lms. repeat split; assumption.
Qed.

Lemma postprocess_parallel_outputs_witness :
  kept_indices [9 # 10] (1 # 2) = [0%nat] /\
  (exists st',
     mask_rcnn_postprocess resize_nearest rcnn_outputs 2 2 4 4 8 8 (1 # 2)
       (rcnn_store false) = Ok (5%nat, 6%nat, 7%nat, [4%nat], st') /\
     nth_error st' 5 =
       Some (AVec (map (fun i => nth i [9 # 10] 0)
                       (kept_indices [9 # 10] (1 # 2)))) /\
     length [4%nat] = length (kept_indices [9 # 10] (1 # 2))) /\
  (exists st' sc lms,
     yolact_postprocess resize_nearest exp_taylor2 yolact_outputs 1 1 4 4 4 4
       (1 # 2) (yolact_store (9 # 10) (8 # 10)) =
       Ok (5%nat, 6%nat, 4%nat, inl lms, st') /\
     nth_error st' 5 = Some (AVec sc) /\ length lms = length sc).
Proof.
  split; [reflexivity|]. split.
  - eexists. split; [vm_compute; reflexivity|].
    destruct (proj1 (postprocess_parallel_outputs resize_nearest exp_taylor2
                       rcnn_outputs 2 2 4 4 8 8 (1 # 2) (rcnn_store false))
                    0%nat 1%nat 2%nat 3%nat _ _ _ _ _ _ _ _ _
                    eq_refl eq_refl eq_refl eq_refl eq_refl eq_refl eq_refl
                    eq_refl (le_n 1) eq_refl)
      as [H1 [_ [_ [H4 _]]]].
    split; [exact H1|exact H4].
  - assert (E : exists r,
               yolact_postprocess resize_nearest exp_taylor2 yolact_outputs
                 1 1 4 4 4 4 (1 # 2) (yolact_store (9 # 10) (8 # 10)) = Ok r).
    { eexists. vm_compute. reflexivity. }
    destruct E as [[[[[ls lc] lb] ms] st'] E].
    assert (E' := E). vm_compute in E'. injection E' as <- <- <- <- _.
    destruct (proj2 (postprocess_parallel_outputs resize_nearest exp_taylor2
                       yolact_outputs 1 1 4 4 4 4 (1 # 2)
                       (yolact_store (9 # 10) (8 # 10)))
                    _ _ _ _ _ E)
      as [sc [cl [bx [lms [Hms [H1 [_ [_ [_ [_ H6]]]]]]]]]].
    exists st', sc, lms. injection Hms as <-.
    split; [exact E|]. split; assumption.
Defined.

(* ================================================================== *)
(** * Further properties of the code *)
(* ================================================================== *)

(** ** Geometry *)

Lemma no_overflow_small q : Qabs q <= 1000 -> no_overflow q.
Proof.
  intros H. unfold no_overflow. eapply Qle_trans; [exact H|].
  vm_compute. discriminate.
Qed.

(** Solves [no_overflow q] and [Forall no_overflow l] on small numbers. *)
Ltac small_magnitude :=
  repeat (apply Forall_cons;
          [apply no_overflow_small; vm_compute; discriminate|]);
  first [ apply Forall_nil
        | apply no_overflow_small; vm_compute; discriminate ].

Lemma np_clip_monotone (a c lo hi : Q) :
  a <= c -> np_clip a lo hi <= np_clip c lo hi.
Proof.
  intros H. unfold np_clip.
  apply Q.min_le_compat_l. apply Q.max_le_compat_r. exact H.
Qed.

(** X3.  [sanitize_coordinates] keeps the order of the two bounds: when
    [img_size >= 0], [padding >= 0] and every [_x1[i] <= _x2[i]], every
    returned [x1[i] <= x2[i]], for inputs of magnitude at most [2^500] (so
    that float64 does not overflow).  Inverted results only come from
    inverted inputs (or a negative padding or size). *)
Theorem sanitize_coordinates_ordered
    (_x1 _x2 : list Q) (img_size shift padding : Q) :
  Forall no_overflow _x1 -> Forall no_overflow _x2 ->
  no_overflow img_size -> no_overflow shift -> no_overflow padding ->
  0 <= img_size -> 0 <= padding -> Forall2 Qle _x1 _x2 ->
  Forall2 Qle (fst (sanitize_coordinates _x1 _x2 img_size shift padding))
              (snd (sanitize_coordinates _x1 _x2 img_size shift padding)).
Proof.
  intros _ _ _ _ _ Hs Hp H. unfold sanitize_coordinates; simpl.
  rewrite !map_map.
  induction H as [|u v l l' Huv H IH]; simpl; constructor; [|exact IH].
  apply np_clip_monotone.
  assert (0 <= (v - u) * img_size) by (apply Qmult_le_0_compat; lra).
  lra.
Qed.

Lemma sanitize_coordinates_ordered_witness :
  Forall2 Qle (fst (sanitize_coordinates [1 # 4] [3 # 4] 10 0 1))
              (snd (sanitize_coordinates [1 # 4] [3 # 4] 10 0 1)).
Proof.
  apply sanitize_coordinates_ordered; try small_magnitude.
  - vm_compute. discriminate.
  - vm_compute. discriminate.
  - constructor; [vm_compute; discriminate | constructor].
Defined.

(** ** Non-maximum suppression *)

Lemma overlap_bounds x1 y1 x2 y2 ib i j :
  0 <= overlap x1 y1 x2 y2 ib i j <= 1.
Proof.
  cbv beta zeta delta [overlap intersection areas].
  set (b := nms_b ib).
  set (d := Qmin (at_ x2 i) (at_ x2 j) - Qmax (at_ x1 i) (at_ x1 j) + b).
  set (e := Qmin (at_ y2 i) (at_ y2 j) - Qmax (at_ y1 i) (at_ y1 j) + b).
  set (Wi := at_ x2 i - at_ x1 i + b). set (Hi := at_ y2 i - at_ y1 i + b).
  set (Wj := at_ x2 j - at_ x1 j + b). set (Hj := at_ y2 j - at_ y1 j + b).
  pose proof (Q.le_min_l (at_ x2 i) (at_ x2 j)).
  pose proof (Q.le_min_r (at_ x2 i) (at_ x2 j)).
  pose proof (Q.le_max_l (at_ x1 i) (at_ x1 j)).
  pose proof (Q.le_max_r (at_ x1 i) (at_ x1 j)).
  pose proof (Q.le_min_l (at_ y2 i) (at_ y2 j)).
  pose proof (Q.le_min_r (at_ y2 i) (at_ y2 j)).
  pose proof (Q.le_max_l (at_ y1 i) (at_ y1 j)).
  pose proof (Q.le_max_r (at_ y1 i) (at_ y1 j)).
  assert (dWi : d <= Wi) by (unfold d, Wi; lra).
  assert (dWj : d <= Wj) by (unfold d, Wj; lra).
  assert (eHi : e <= Hi) by (unfold e, Hi; lra).
  assert (eHj : e <= Hj) by (unfold e, Hj; lra).
  clearbody d e Wi Hi Wj Hj.
  destruct (Qeq_bool _ 0) eqn:E; [lra|]. apply Qeq_bool_neq in E.
  destruct (Q.max_spec 0 d) as [[Hd Ed]|[Hd Ed]];
  destruct (Q.max_spec 0 e) as [[He Ee]|[He Ee]];
    rewrite Ed, Ee in *.
  - assert (P1 : 0 < d * e) by (apply Qmult_lt_0_compat; assumption).
    assert (P2 : 0 <= (Wi - d) * Hi) by (apply Qmult_le_0_compat; lra).
    assert (P3 : 0 <= d * (Hi - e)) by (apply Qmult_le_0_compat; lra).
    assert (P4 : 0 <= (Wj - d) * Hj) by (apply Qmult_le_0_compat; lra).
    assert (P5 : 0 <= d * (Hj - e)) by (apply Qmult_le_0_compat; lra).
    assert (Hb : 0 < Wi * Hi + Wj * Hj - d * e) by lra.
    split.
    + apply Qle_shift_div_l; [exact Hb|]. lra.
    + apply Qle_shift_div_r; [exact Hb|]. lra.
  - assert (Z0 : d * 0 / (Wi * Hi + Wj * Hj - d * 0) == 0)
      by (unfold Qdiv; ring).
    rewrite Z0. lra.
  - assert (Z0 : 0 * e / (Wi * Hi + Wj * Hj - 0 * e) == 0)
      by (unfold Qdiv; ring).
    rewrite Z0. lra.
  - assert (Z0 : 0 * 0 / (Wi * Hi + Wj * Hj - 0 * 0) == 0)
      by (unfold Qdiv; ring).
    rewrite Z0. lra.
Qed.

(** X4.  The overlap ratio [nms] computes is symmetric in the two boxes and
    lies in [[0, 1]], whatever the boundary flag and the coordinates
    (inverted boxes included) of magnitude at most [2^500]. *)
Theorem overlap_range x1 y1 x2 y2 ib i j :
  Forall no_overflow x1 -> Forall no_overflow y1 ->
  Forall no_overflow x2 -> Forall no_overflow y2 ->
  overlap x1 y1 x2 y2 ib i j == overlap x1 y1 x2 y2 ib j i /\
  0 <= overlap x1 y1 x2 y2 ib i j <= 1.
Proof. intros _ _ _ _. split; [apply overlap_sym|apply overlap_bounds]. Qed.

Lemma overlap_range_witness :
  overlap [0; 1] [0; 1] [2; 3] [2; 3] true 0 1 ==
  overlap [0; 1] [0; 1] [2; 3] [2; 3] true 1 0 /\
  0 <= overlap [0; 1] [0; 1] [2; 3] [2; 3] true 0 1 <= 1.
Proof.
  apply overlap_range; small_magnitude.
Defined.

Lemma StronglySorted_filter {A} (P : A -> A -> Prop) (f : A -> bool) l :
  StronglySorted P l -> StronglySorted P (filter f l).
Proof.
  induction 1 as [|a l Hs IH Ha]; simpl; [constructor|].
  destruct (f a); [|assumption]. constructor; [assumption|].
  rewrite Forall_forall in *. intros z Hz. apply filter_In in Hz.
  apply Ha. tauto.
Qed.

Lemma StronglySorted_firstn {A} (P : A -> A -> Prop) m l :
  StronglySorted P l -> StronglySorted P (firstn m l).
Proof.
  intros H. revert m. induction H as [|a l Hs IH Ha]; intros [|m]; simpl;
    try constructor; [apply IH|].
  rewrite Forall_forall in *. intros z Hz. apply Ha.
  rewrite <- (firstn_skipn m l). apply in_or_app. now left.
Qed.

Lemma nms_loop_sorted (P : nat -> nat -> Prop) x1 y1 x2 y2 thresh ib ord :
  StronglySorted P ord ->
  StronglySorted P (nms_loop x1 y1 x2 y2 thresh ib ord).
Proof.
  funelim (nms_loop x1 y1 x2 y2 thresh ib ord); intros Hs; [constructor|].
  apply StronglySorted_inv in Hs. destruct Hs as [Hs Ha].
  constructor.
  - apply H. now apply StronglySorted_filter.
  - rewrite Forall_forall in *. intros z Hz.
    apply nms_loop_incl in Hz. apply filter_In in Hz. apply Ha. tauto.
Qed.

Lemma StronglySorted_weaken {A} (P R : A -> A -> Prop) l :
  (forall a c, P a c -> R a c) -> StronglySorted P l -> StronglySorted R l.
Proof.
  intros HPR. induction 1 as [|a l Hs IH Ha]; constructor; [assumption|].
  eapply Forall_impl; [|exact Ha]. apply HPR.
Qed.

(** The loop of [nms] starts from a prefix of the descending score order. *)
Lemma nms_order_prefix scores keep_top_k :
  exists m, forall x1 y1 x2 y2 thresh ib,
    nms x1 y1 x2 y2 scores thresh ib keep_top_k =
    nms_loop x1 y1 x2 y2 thresh ib (firstn m (rev (argsort scores))).
Proof.
  destruct keep_top_k as [k|].
  - unfold nms. destruct (k =? 0)%Z.
    + exists (length (rev (argsort scores))). intros.
      now rewrite firstn_all.
    + unfold slice_to. destruct (k <? 0)%Z; eexists; intros; reflexivity.
  - exists (length (rev (argsort scores))). intros. unfold nms.
    now rewrite firstn_all.
Qed.

Lemma In_firstn {A} (m : nat) (l : list A) x : In x (firstn m l) -> In x l.
Proof.
  intros H. rewrite <- (firstn_skipn m l). apply in_or_app. now left.
Qed.

(** X5.  Whatever the inputs and [keep_top_k], the indices [nms] returns
    are distinct and are valid positions of [scores]. *)
Theorem nms_result_valid x1 y1 x2 y2 scores thresh ib keep_top_k :
  NoDup (nms x1 y1 x2 y2 scores thresh ib keep_top_k) /\
  Forall (fun i => (i < length scores)%nat)
         (nms x1 y1 x2 y2 scores thresh ib keep_top_k).
Proof.
  destruct (nms_order_prefix scores keep_top_k) as [m Hm]. rewrite Hm.
  split.
  - apply nms_loop_NoDup.
    pose proof (Permutation_NoDup (Permutation_sym (order_perm scores))
                  (seq_NoDup _ _)) as Hnd.
    rewrite <- (firstn_skipn m (rev (argsort scores))) in Hnd.
    now apply NoDup_app_remove_r in Hnd.
  - apply Forall_forall. intros i Hi.
    apply nms_loop_incl, In_firstn in Hi. now apply order_In.
Qed.

(** X6.  With a positive [keep_top_k = k], [nms] returns at most [k]
    indices. *)
Theorem nms_top_k_bound x1 y1 x2 y2 scores thresh ib (k : Z) :
  (0 < k)%Z ->
  (length (nms x1 y1 x2 y2 scores thresh ib (Some k)) <= Z.to_nat k)%nat.
Proof.
  intros Hk. unfold nms, slice_to.
  replace (k =? 0)%Z with false by (symmetry; apply Z.eqb_neq; lia).
  replace (k <? 0)%Z with false by (symmetry; apply Z.ltb_ge; lia).
  etransitivity; [apply nms_loop_length|apply firstn_le_length].
Qed.

Lemma nms_top_k_bound_witness :
  (length (nms [0; 5; 10]%Q [0; 5; 10]%Q [1; 6; 11]%Q [1; 6; 11]%Q
               [3; 2; 1]%Q (1 # 2)%Q false (Some 2%Z)) <= 2)%nat.
Proof. apply (nms_top_k_bound _ _ _ _ _ _ _ 2%Z). lia. Defined.

(** X7.  On a non-empty input (default [keep_top_k]) the first index [nms]
    returns is a box of maximal score: the best detection is always kept,
    and comes first. *)
Theorem nms_keeps_best x1 y1 x2 y2 scores thresh ib :
  scores <> [] ->
  exists best rest,
    nms x1 y1 x2 y2 scores thresh ib None = best :: rest /\
    forall j, (j < length scores)%nat -> at_ scores j <= at_ scores best.
Proof.
  intros Hne. unfold nms.
  pose proof (order_sorted scores) as Hs.
  pose proof (order_In scores) as Hin.
  destruct (rev (argsort scores)) as [|best rest] eqn:E.
  - destruct scores as [|s0 scores]; [congruence|].
    exfalso. apply (proj2 (Hin 0%nat)). simpl. lia.
  - simp nms_loop. do 2 eexists. split; [reflexivity|].
    intros j Hj. apply Hin in Hj. destruct Hj as [<-|Hj]; [lra|].
    apply StronglySorted_inv in Hs. destruct Hs as [_ Ha].
    rewrite Forall_forall in Ha. destruct (Ha j Hj) as [H|[H _]]; lra.
Qed.

Lemma nms_keeps_best_witness :
  exists best rest,
    nms [0; 0] [0; 0] [2; 2] [2; 2] [1 # 2; 9 # 10] (1 # 2) true None =
      best :: rest /\
    at_ [1 # 2; 9 # 10] 0 <= at_ [1 # 2; 9 # 10] best.
Proof.
  destruct (nms_keeps_best [0; 0] [0; 0] [2; 2] [2; 2] [1 # 2; 9 # 10]
              (1 # 2) true) as [best [rest [H1 H2]]]; [discriminate|].
  exists best, rest. split; [exact H1|]. apply H2. simpl. lia.
Defined.

(** X8.  The indices [nms] returns are in descending score order, for
    every input and [keep_top_k]. *)
Theorem nms_descending x1 y1 x2 y2 scores thresh ib keep_top_k :
  StronglySorted (fun a c => at_ scores c <= at_ scores a)
                 (nms x1 y1 x2 y2 scores thresh ib keep_top_k).
Proof.
  destruct (nms_order_prefix scores keep_top_k) as [m Hm]. rewrite Hm.
  apply nms_loop_sorted, StronglySorted_firstn.
  apply (StronglySorted_weaken (fun a c => score_lt scores c a));
    [|apply order_sorted].
  intros a c [H|[H _]]; lra.
Qed.

(** X9.  Any two different boxes [nms] returns overlap by at most
    [thresh], for every input and [keep_top_k]. *)
Theorem nms_kept_pairwise x1 y1 x2 y2 scores thresh ib keep_top_k u v :
  In u (nms x1 y1 x2 y2 scores thresh ib keep_top_k) ->
  In v (nms x1 y1 x2 y2 scores thresh ib keep_top_k) ->
  u <> v ->
  overlap x1 y1 x2 y2 ib u v <= thresh.
Proof.
  destruct (nms_order_prefix scores keep_top_k) as [m Hm]. rewrite Hm.
  apply nms_loop_kept_compatible.
Qed.

Lemma nms_kept_pairwise_witness :
  nms [0; 0; 5] [0; 0; 5] [2; 2; 7] [2; 2; 7] [3; 2; 1] (1 # 2) true None =
    [0; 2]%nat /\
  overlap [0; 0; 5] [0; 0; 5] [2; 2; 7] [2; 2; 7] true 0 2 <= 1 # 2.
Proof.
  split; [reflexivity|].
  apply (nms_kept_pairwise _ _ _ _ [3; 2; 1] (1 # 2) true None 0%nat 2%nat);
    [vm_compute; tauto | vm_compute; tauto | discriminate].
Defined.

Lemma nms_loop_suppressed (P : nat -> nat -> Prop) x1 y1 x2 y2 thresh ib ord :
  StronglySorted P ord ->
  forall i, In i ord -> ~ In i (nms_loop x1 y1 x2 y2 thresh ib ord) ->
  exists k, In k (nms_loop x1 y1 x2 y2 thresh ib ord) /\ P k i /\
            thresh < overlap x1 y1 x2 y2 ib k i.
Proof.
  funelim (nms_loop x1 y1 x2 y2 thresh ib ord); intros Hs j Hj Hnot;
    [contradiction|].
  apply StronglySorted_inv in Hs. destruct Hs as [Hs Ha].
  destruct Hj as [->|Hj]; [exfalso; apply Hnot; now left|].
  destruct (Qle_bool (overlap x1 y1 x2 y2 ib i j) thresh)
    eqn:E.
  - destruct (H P (StronglySorted_filter P _ _ Hs) j) as [k [Hk [Pk Ok']]].
    + apply filter_In. split; assumption.
    + intros Hin. apply Hnot. now right.
    + exists k. split; [now right|]. split; assumption.
  - exists i. split; [now left|]. split.
    + rewrite Forall_forall in Ha. now apply Ha.
    + destruct (Qlt_le_dec thresh
                  (overlap x1 y1 x2 y2 ib i j)) as [?|Hle];
        [assumption|].
      apply Qle_bool_iff in Hle. congruence.
Qed.

(** X10.  [nms] suppresses a box only for a reason: for coordinates of
    magnitude at most [2^500], every valid index that is not returned
    (default [keep_top_k]) overlaps by more than [thresh] a returned box
    whose score is at least as high. *)
Theorem nms_suppressed_has_cause x1 y1 x2 y2 scores thresh ib i :
  Forall no_overflow x1 -> Forall no_overflow y1 ->
  Forall no_overflow x2 -> Forall no_overflow y2 ->
  (i < length scores)%nat ->
  ~ In i (nms x1 y1 x2 y2 scores thresh ib None) ->
  exists k, In k (nms x1 y1 x2 y2 scores thresh ib None) /\
            at_ scores i <= at_ scores k /\
            thresh < overlap x1 y1 x2 y2 ib k i.
Proof.
  intros _ _ _ _ Hi Hnot. unfold nms in *.
  destruct (nms_loop_suppressed (fun a c => score_lt scores c a)
              x1 y1 x2 y2 thresh ib (rev (argsort scores))
              (order_sorted scores) i) as [k [Hk [Pk Ov]]];
    [now apply order_In|assumption|].
  exists k. split; [assumption|]. split; [|assumption].
  destruct Pk as [H|[H _]]; lra.
Qed.

Lemma nms_suppressed_has_cause_witness :
  exists k,
    In k (nms [0; 0] [0; 0] [2; 2] [2; 2] [1 # 2; 9 # 10] (1 # 2) true None) /\
    at_ [1 # 2; 9 # 10] 0 <= at_ [1 # 2; 9 # 10] k /\
    1 # 2 < overlap [0; 0] [0; 0] [2; 2] [2; 2] true k 0.
Proof.
  apply nms_suppressed_has_cause; try small_magnitude; [simpl; lia|].
  vm_compute. intros [H|H]; [discriminate H|exact H].
Defined.

(** X11.  The two extremes of the threshold (default [keep_top_k]), for
    coordinates of magnitude at most [2^500]: with [thresh >= 1] nothing is
    ever suppressed, [nms] returns every index; with [thresh < 0]
    everything but the best box is suppressed, [nms] returns at most one
    index. *)
Theorem nms_threshold_extremes x1 y1 x2 y2 scores thresh ib :
  Forall no_overflow x1 -> Forall no_overflow y1 ->
  Forall no_overflow x2 -> Forall no_overflow y2 ->
  (1 <= thresh ->
   Permutation (nms x1 y1 x2 y2 scores thresh ib None)
               (seq 0 (length scores))) /\
  (thresh < 0 ->
   (length (nms x1 y1 x2 y2 scores thresh ib None) <= 1)%nat).
Proof.
  intros _ _ _ _. split; intros Ht; unfold nms.
  - rewrite nms_loop_fixpoint; [apply order_perm| |].
    + intros a c _ _ _.
      destruct (overlap_bounds x1 y1 x2 y2 ib a c) as [_ H]. lra.
    + apply (Permutation_NoDup (Permutation_sym (order_perm _))).
      apply seq_NoDup.
  - destruct (rev (argsort scores)) as [|h rest]; simp nms_loop;
      [simpl; lia|].
    replace (filter _ rest) with (@nil nat); [simp nms_loop; simpl; lia|].
    symmetry. induction rest as [|z rest IH]; simpl; [reflexivity|].
    destruct (Qle_bool _ thresh) eqn:E; [|exact IH].
    apply Qle_bool_iff in E.
    destruct (overlap_bounds x1 y1 x2 y2 ib h z) as [H _]. lra.
Qed.

Lemma nms_threshold_extremes_witness :
  Permutation (nms [0; 0] [0; 0] [2; 2] [2; 2] [1 # 2; 9 # 10] 1 true None)
              (seq 0 2) /\
  (length (nms [0; 0]%Q [0; 0]%Q [2; 2]%Q [2; 2]%Q [1 # 2; 9 # 10]%Q (-1)%Q
               true None) <= 1)%nat.
Proof.
  assert (B0 : Forall no_overflow [0; 0]) by small_magnitude.
  assert (B2 : Forall no_overflow [2; 2]) by small_magnitude.
  split.
  - apply (proj1 (nms_threshold_extremes [0; 0] [0; 0] [2; 2] [2; 2]
                    [1 # 2; 9 # 10] 1 true B0 B0 B2 B2)).
    vm_compute. discriminate.
  - apply (proj2 (nms_threshold_extremes [0; 0] [0; 0] [2; 2] [2; 2]
                    [1 # 2; 9 # 10] (-1) true B0 B0 B2 B2)).
    vm_compute. reflexivity.
Defined.

(** ** The crop of the prototype-mask variant *)

Lemma Qnat_nonneg n : 0 <= Qnat n.
Proof.
  unfold Qnat. change 0 with (inject_Z 0). rewrite <- Zle_Qle. lia.
Qed.

Lemma Qnat_lt n m : (n < m)%nat -> Qnat n < Qnat m.
Proof. intros H. unfold Qnat. rewrite <- Zlt_Qlt. lia. Qed.

Lemma Qlt_bool_iff x y : Qlt_bool x y = true <-> x < y.
Proof.
  unfold Qlt_bool. rewrite negb_true_iff. split; intros H.
  - apply Qnot_le_lt. intros Hle. apply Qle_bool_iff in Hle. congruence.
  - destruct (Qle_bool y x) eqn:E; [|reflexivity].
    apply Qle_bool_iff in E. lra.
Qed.

Lemma crop_cols_raises h w n e :
  crop_cols h w n = Raise e -> e = ValueError.
Proof.
  unfold crop_cols, np_reshape.
  destruct (_ =? _)%nat; cbn [rbind]; [|now intros [= <-]].
  destruct (_ =? _)%nat; [discriminate|now intros [= <-]].
Qed.

Lemma broadcast2_vec3_mismatch {A B C} (da : A) (db : B) (f : A -> B -> C)
    (a : ndarray A) (l : list B) h w n :
  shape a = [h; w; n] -> length l <> n -> length l <> 1%nat -> n <> 1%nat ->
  broadcast2 da db f a (vec l) = Raise ValueError.
Proof.
  intros Ha H1 H2 H3. unfold broadcast2, broadcast_shapes. rewrite Ha.
  simpl.
  apply Nat.eqb_neq in H2, H3.
  assert (H1' : (n =? length l)%nat = false) by (apply Nat.eqb_neq; congruence).
  now rewrite H1', H2, H3.
Qed.

(** X13.  [crop_mask] needs one box per instance map: when the number of
    boxes differs from the last extent [N] of [masks], and neither is 1
    (the case broadcasting accepts), it raises [ValueError] for every map
    size and padding. *)
Theorem crop_mask_box_count_mismatch masks boxes padding h w n :
  shape masks = [h; w; n] ->
  length boxes <> n -> length boxes <> 1%nat -> n <> 1%nat ->
  crop_mask masks boxes padding = Raise ValueError.
Proof.
  intros Hs H1 H2 H3. unfold crop_mask. rewrite Hs.
  pose proof (sanitize_coordinates_length (map b0 boxes) (map b2 boxes)
                (Qnat w) 0 padding) as [Lx1 _].
  destruct (sanitize_coordinates (map b0 boxes) (map b2 boxes) _ _ _)
    as [x1 x2].
  destruct (sanitize_coordinates (map b1 boxes) (map b3 boxes) _ _ _)
    as [y1 y2].
  simpl in Lx1. rewrite length_map in Lx1.
  destruct (crop_rows_ok h w n) as [rows0 Er]. rewrite Er. cbn [rbind].
  apply crop_rows_shape in Er.
  destruct (crop_cols h w n) as [cols|e] eqn:Ec; cbn [rbind].
  - destruct (np_transpose3_102 rows0 h w n Er) as [rows [-> [Sr _]]].
    cbn [rbind].
    rewrite (broadcast2_vec3_mismatch 0 0 _ rows x1 w h n Sr);
      [reflexivity|congruence..].
  - apply crop_cols_raises in Ec. now subst.
Qed.

Lemma crop_mask_box_count_mismatch_witness :
  crop_mask (mkArr [1; 1; 2]%nat [1; 1])
            [mkBox 0 0 1 1; mkBox 0 0 1 1; mkBox 0 0 1 1] 1 =
  Raise ValueError.
Proof.
  apply (crop_mask_box_count_mismatch _ _ 1 1 1 2)%nat;
    [reflexivity|simpl; lia..].
Defined.

(** ** The mask of one detection *)

Lemma get_Forall {A} (P : A -> Prop) (d : A) (a : ndarray A) idx :
  P d -> Forall P (data a) -> P (get d a idx).
Proof.
  intros Hd Ha. unfold get.
  destruct (nth_in_or_default (ravel (shape a) idx) (data a) d) as [H|H].
  - rewrite Forall_forall in Ha. now apply Ha.
  - now rewrite H.
Qed.

Lemma slice2_Forall {A} (P : A -> Prop) (d : A) a r0 r1 c0 c1 s :
  P d -> Forall P (data a) -> slice2 d a r0 r1 c0 c1 = Ok s ->
  Forall P (data s).
Proof.
  intros Hd Ha. unfold slice2.
  destruct (shape a) as [|h [|w [|? ?]]]; try discriminate.
  intros [= <-]. simpl. apply Forall_map, Forall_forall. intros idx _.
  now apply get_Forall.
Qed.

Lemma assign_slice2_Forall {A} (P : A -> Prop) (d : A) dst r0 r1 c0 c1 src m :
  P d -> Forall P (data dst) -> Forall P (data src) ->
  assign_slice2 d dst r0 r1 c0 c1 src = Ok m ->
  shape m = shape dst /\ length (data m) = size_of (shape dst) /\
  Forall P (data m).
Proof.
  intros Hd Hdst Hsrc. unfold assign_slice2.
  destruct (shape dst) as [|h [|w [|? ?]]]; try discriminate.
  intros H. apply rbind_Ok in H. destruct H as [sh [_ H]].
  destruct (list_eq_dec _ _ _); [|discriminate]. injection H as <-.
  cbn [shape data]. split; [reflexivity|].
  split; [rewrite length_map; exact (length_indices [h; w])|].
  apply Forall_map, Forall_forall. intros idx _.
  destruct (_ && _)%bool; [|now apply get_Forall].
  unfold bget. now apply get_Forall.
Qed.

Lemma binarize_Forall a :
  Forall (fun v => v = 0 \/ v = 1)%Z (data (binarize a)).
Proof.
  unfold binarize, map_arr. simpl. apply Forall_map, Forall_forall.
  intros v _. destruct (Qlt_bool _ _); auto.
Qed.

(** X14.  Whenever [segm_postprocess] returns, it has allocated exactly
    one new array and touched no other: the returned mask is the new cell,
    has the frame shape [im_h x im_w] with that many entries, and every
    entry is 0 or 1. *)
Theorem segm_postprocess_binary_mask cv2_resize box raw im_h im_w st l st' :
  segm_postprocess cv2_resize box raw im_h im_w st = Ok (l, st') ->
  exists m,
    l = length st /\ st' = st ++ [AMask m] /\
    shape m = [im_h; im_w] /\ length (data m) = (im_h * im_w)%nat /\
    Forall (fun v => v = 0 \/ v = 1)%Z (data m).
Proof.
  rewrite segm_postprocess_run.
  destruct (segm_mask cv2_resize box raw im_h im_w) as [m|e] eqn:E;
    [|discriminate].
  intros [= <- <-]. exists m. split; [reflexivity|]. split; [reflexivity|].
  unfold segm_mask in E.
  do 2 (apply rbind_Ok in E; destruct E as [? [_ E]]).
  apply rbind_Ok in E. destruct E as [resized [_ E]].
  apply rbind_Ok in E. destruct E as [src [Hsrc E]].
  apply (slice2_Forall (fun v => v = 0 \/ v = 1)%Z) in Hsrc;
    [|now left|apply binarize_Forall].
  apply (assign_slice2_Forall (fun v => v = 0 \/ v = 1)%Z) in E;
    [|now left| |exact Hsrc].
  - destruct E as [E1 [E2 E3]]. simpl in E1, E2.
    split; [exact E1|]. split; [lia|exact E3].
  - simpl. apply Forall_forall. intros v Hv. apply repeat_spec in Hv. now left.
Qed.

Lemma segm_postprocess_binary_mask_witness :
  exists m,
    0%nat = length (@nil array) /\
    [AMask (mkArr [3; 3]%nat [0; 0; 0; 0; 1; 1; 0; 1; 1]%Z)] = [] ++ [AMask m] /\
    shape m = [3; 3]%nat /\ length (data m) = (3 * 3)%nat /\
    Forall (fun v => v = 0 \/ v = 1)%Z (data m).
Proof.
  apply (segm_postprocess_binary_mask resize_nearest (mkBox 1 1 2 2)
           (mkArr [2; 2]%nat [1; 1; 1; 1]) 3 3 []).
  vm_compute. reflexivity.
Defined.

(** X15.  A raw mask without rows makes [segm_postprocess] raise
    [ZeroDivisionError]: after the padding the mask has two rows, and the
    expansion factor [rows / (rows - 2.0)] divides by zero. *)
Theorem segm_postprocess_no_rows cv2_resize box raw im_h im_w st cols :
  shape raw = [0; cols]%nat ->
  segm_postprocess cv2_resize box raw im_h im_w st = Raise ZeroDivisionError.
Proof.
  intros Hs. unfold segm_postprocess, bind, lift, np_pad1. rewrite Hs.
  reflexivity.
Qed.

Lemma segm_postprocess_no_rows_witness :
  segm_postprocess resize_nearest (mkBox 0 0 4 4) (mkArr [0; 3]%nat [])
    8 8 [] = Raise ZeroDivisionError.
Proof.
  apply (segm_postprocess_no_rows _ _ _ _ _ _ 3%nat). reflexivity.
Defined.

(** ** The two postprocessors *)

Lemma lt_length_zip3 {A B C} (a : list A) (b : list B) (c : list C) i :
  (i < length a)%nat -> (i < length b)%nat -> (i < length c)%nat ->
  (i < length (zip3 a b c))%nat.
Proof.
  revert b c i. induction a as [|x a IH]; intros [|y b] [|z c] i Ha Hb Hc;
    simpl in *; try lia.
  destruct i; [lia|]. apply -> Nat.succ_lt_mono. apply IH; lia.
Qed.

(** X16.  [mask_rcnn_postprocess] builds a mask for every detection before
    it filters by confidence, so it returns only if the class index of
    every detection that has a raw mask block, also of those at or below
    the threshold, is a valid channel of [raw_masks]. *)
Theorem mask_rcnn_postprocess_classes_valid cv2_resize
    (outputs : list (String.string * loc)) scale_x scale_y fh fw ih iw thr
    (st : store) (lb0 ls0 lc0 lr0 : loc) b s c raw ls lc lb lms st' :
  dict_get outputs "boxes"%string = Ok lb0 ->
  dict_get outputs "scores"%string = Ok ls0 ->
  dict_get outputs "classes"%string = Ok lc0 ->
  dict_get outputs "raw_masks"%string = Ok lr0 ->
  nth_error st lb0 = Some (ABoxes b) ->
  nth_error st ls0 = Some (AVec s) ->
  nth_error st lc0 = Some (AVec c) ->
  nth_error st lr0 = Some (ATensor raw) ->
  mask_rcnn_postprocess cv2_resize outputs scale_x scale_y fh fw ih iw thr st =
    Ok (ls, lc, lb, lms, st') ->
  forall i, (i < length s)%nat -> (i < hd 0%nat (shape raw))%nat ->
    (Z.to_nat (astype_uint32 (nth i c 0%Q)) < nth 1 (shape raw) 0)%nat.
Proof.
  intros D1 D2 D3 D4 N1 N2 N3 N4 H i Hi Hr.
  destruct (mask_rcnn_postprocess_run cv2_resize outputs scale_x scale_y
              fh fw ih iw thr st lb0 ls0 lc0 lr0 b s c raw ls lc lb lms st'
              D1 D2 D3 D4 N1 N2 N3 N4 H) as [ms [Lc [Lb [F _]]]].
  assert (Hz : (i < length (zip3 (map (rescale scale_x scale_y) b)
                              (map astype_uint32 c) (subarrays raw)))%nat).
  { apply lt_length_zip3; rewrite ?length_map, ?length_subarrays; lia. }
  pose proof (Forall2_nth _ _ _ i
                (mkBox 0 0 0 0, 0%Z, mkArr [] []) (mkArr [] []) F Hz) as Hm.
  cbv beta in Hm. rewrite nth_zip3 in Hm by exact Hz.
  unfold rcnn_mask_of in Hm. apply rbind_Ok in Hm.
  destruct Hm as [rcm [Hidx _]].
  rewrite nth_subarrays in Hidx by exact Hr.
  rewrite (nth_indep _ 0%Z (astype_uint32 0)) in Hidx
    by (rewrite length_map; lia).
  rewrite (map_nth astype_uint32) in Hidx.
  unfold index0, subarray in Hidx. cbn [shape] in Hidx.
  destruct (shape raw) as [|n0 [|n1 sh]]; try discriminate.
  cbn [tl nth] in *.
  destruct (Nat.ltb_spec (Z.to_nat (astype_uint32 (nth i c 0))) n1);
    [assumption|discriminate].
Qed.

Lemma mask_rcnn_postprocess_classes_valid_witness :
  (Z.to_nat (astype_uint32 (nth 0 [1%Q] 0%Q)) < nth 1 [1; 2; 2; 2] 0)%nat.
Proof.
  eapply (mask_rcnn_postprocess_classes_valid resize_nearest rcnn_outputs
            2 2 4 4 8 8 (1 # 2) (rcnn_store false) 0%nat 1%nat 2%nat 3%nat
            [mkBox 2 2 6 6] [9 # 10] [1]
            (mkArr [1; 2; 2; 2]%nat [0; 0; 0; 0; 1; 1; 1; 1]));
    try reflexivity; [vm_compute; reflexivity|simpl; lia..].
Defined.

(** X17.  Each postprocessor reads all four of its required outputs: if
    one of them is missing from [outputs], the call does not return.
    [check_model] does not protect against this: its assertion on the
    output names never fails. *)
Theorem postprocess_missing_output cv2_resize np_exp
    (outputs : list (String.string * loc)) scale_x scale_y fh fw ih iw thr
    (st : store) (key : String.string) :
  dict_get outputs key = Raise KeyError ->
  (In key ["boxes"; "scores"; "classes"; "raw_masks"]%string ->
   forall r, mask_rcnn_postprocess cv2_resize outputs scale_x scale_y
               fh fw ih iw thr st <> Ok r) /\
  (In key ["boxes"; "conf"; "proto"; "mask"]%string ->
   forall r, yolact_postprocess cv2_resize np_exp outputs scale_x scale_y
               fh fw ih iw thr st <> Ok r).
Proof.
  intros Hk. split; intros Hin [r st'] H.
  - unfold mask_rcnn_postprocess in H. do 10 step_in H.
    simpl in Hin. intuition (subst; congruence).
  - unfold yolact_postprocess in H. do 11 step_in H.
    simpl in Hin. intuition (subst; congruence).
Qed.

Lemma postprocess_missing_output_witness :
  ~ exists r,
      yolact_postprocess resize_nearest exp_taylor2
        [("boxes"%string, 0%nat); ("conf"%string, 1%nat)] 1 1 4 4 4 4 (1 # 2)
        (yolact_store (9 # 10) (8 # 10)) = Ok r.
Proof.
  intros [r H]. revert H.
  apply (proj2 (postprocess_missing_output resize_nearest exp_taylor2
                  [("boxes"%string, 0%nat); ("conf"%string, 1%nat)]
                  1 1 4 4 4 4 (1 # 2) (yolact_store (9 # 10) (8 # 10))
                  "proto"%string eq_refl)).
  simpl. tauto.
Defined.

(** ** The prototype-mask pipeline *)

(** The two column assignments of lines 214-215 together. *)
Lemma sanitize_box_rows w h sx sy b :
  let nx := sanitize_coordinates (map b0 b) (map b2 b) (Qnat w) sx 0 in
  let bx := set_cols_x b (fst nx) (snd nx) in
  let ny := sanitize_coordinates (map b1 bx) (map b3 bx) (Qnat h) sy 0 in
  set_cols_y bx (fst ny) (snd ny) = map (sanitize_box w h sx sy) b.
Proof.
  cbv zeta. unfold sanitize_coordinates, set_cols_x, set_cols_y.
  cbn [fst snd]. induction b as [|bx b IH]; [reflexivity|].
  cbn [map zip3]. f_equal. exact IH.
Qed.

Lemma sanitize_box_in_frame w h sx sy b : in_frame w h (sanitize_box w h sx sy b).
Proof.
  unfold in_frame, sanitize_box. cbn [b0 b1 b2 b3].
  pose proof (Qnat_nonneg w). pose proof (Qnat_nonneg h).
  repeat split; apply np_clip_bounds; assumption.
Qed.

Section YolactValues.
Variable cv2_resize : ndarray Q -> Z -> Z -> result (ndarray Q).
Variable np_exp : Q -> Q.

(** A loop whose body only appends to the store, with what each round
    leaves for its element. *)
Lemma mapM_Forall2 {A} (Inv : store -> Prop) (P : A -> loc -> store -> Prop)
    (f : A -> M loc) l :
  (forall st ext, Inv st -> Inv (st ++ ext)) ->
  (forall x y st ext, P x y st -> P x y (st ++ ext)) ->
  (forall x st y st', Inv st -> In x l -> f x st = Ok (y, st') ->
     exists ext, st' = st ++ ext /\ (length st <= y)%nat /\ P x y st') ->
  forall st ys st', Inv st -> mapM f l st = Ok (ys, st') ->
  exists ext, st' = st ++ ext /\
              Forall2 (fun x y => (length st <= y)%nat /\ P x y st') l ys.
Proof.
  intros HI HP. induction l as [|x l IH]; intros Hf st ys st' Hinv H;
    simpl in H.
  - apply ret_Ok in H. destruct H as [-> ->].
    exists []. rewrite app_nil_r. split; [reflexivity|constructor].
  - step_in H. apply Hf in St; [|assumption|now left].
    destruct St as [e1 [-> [Hy Py]]].
    step_in H. apply IH in St; [| |now apply HI].
    2:{ intros x' st1 y' st1' Hi1 Hin. apply Hf; [assumption|now right]. }
    destruct St as [e2 [-> HF]].
    apply ret_Ok in H. destruct H as [-> ->].
    exists (e1 ++ e2). rewrite app_assoc. split; [reflexivity|].
    constructor.
    + split; [assumption|]. now apply HP.
    + eapply Forall2_impl; [|exact HF]. simpl. intros z y [H1 H2].
      split; [|assumption]. rewrite length_app in H1. lia.
Qed.

(** One round of the mask loop: the new mask is zero outside the window
    computed from the row of [boxes] and the integer bounds. *)
Lemma yolact_mask_step_window boxes x1 y1 x2 y2 w h mask_id mask st y st' bs :
  nth_error st boxes = Some (ABoxes bs) ->
  yolact_mask_step cv2_resize boxes x1 y1 x2 y2 w h (mask_id, mask) st =
    Ok (y, st') ->
  exists ext bx x1m y1m x2m y2m,
    st' = st ++ ext /\ (length st <= y)%nat /\
    nth_error bs mask_id = Some bx /\
    nth_error x1 mask_id = Some x1m /\ nth_error y1 mask_id = Some y1m /\
    nth_error x2 mask_id = Some x2m /\ nth_error y2 mask_id = Some y2m /\
    mask_window_at h w (paste_window w h bx x1m y1m x2m y2m) y st'.
Proof.
  intros Hb H. unfold yolact_mask_step in H.
  do 9 step_in H.
  step_in H. rewrite nth_error_app_last in St7. injection St7 as <-.
  step_in H. step_in H. rewrite set_nth_app_last in H.
  step_in H. rewrite nth_error_app_last in St9. injection St9 as <-.
  apply alloc_Ok in H. destruct H as [-> ->].
  rewrite Hb in St0. injection St0 as <-.
  unfold py_index in St1, St2, St3, St4, St5.
  destruct (nth_error bs mask_id) as [bx|] eqn:Ebx; [|discriminate].
  destruct (nth_error y2 mask_id) as [y2m|] eqn:Ey2; [|discriminate].
  destruct (nth_error y1 mask_id) as [y1m|] eqn:Ey1; [|discriminate].
  destruct (nth_error x2 mask_id) as [x2m|] eqn:Ex2; [|discriminate].
  destruct (nth_error x1 mask_id) as [x1m|] eqn:Ex1; [|discriminate].
  injection St1 as <-. injection St2 as <-. injection St3 as <-.
  injection St4 as <-. injection St5 as <-.
  exists [AMask a7; AMask a7], bx, x1m, y1m, x2m, y2m.
  rewrite <- app_assoc. split; [reflexivity|].
  rewrite length_app. simpl length. split; [lia|].
  repeat (split; [reflexivity|]).
  exists a7. split.
  - replace (length st + 1)%nat with (length (st ++ [AMask a7]))
      by (rewrite length_app; reflexivity).
    rewrite app_assoc. apply nth_error_app_last.
  - apply assign_zero_outside in St7. exact St7.
Qed.

Lemma Forall2_combine_seq {A B C} (Q' : A -> C -> Prop) (b : list A)
    (subs : list B) :
  forall (pre : list A) (ys : list C),
  length subs = length b ->
  Forall2 (fun (it : nat * B) y =>
             exists bk, nth_error (pre ++ b) (fst it) = Some bk /\ Q' bk y)
          (combine (seq (length pre) (length b)) subs) ys ->
  Forall2 Q' b ys.
Proof.
  revert subs. induction b as [|x b IH]; intros [|z subs] pre ys Hl HF;
    simpl in *; try discriminate.
  - inversion HF. constructor.
  - inversion HF as [|it y its ys' [bk [Hn Hq]] HF']; subst. simpl in Hn.
    rewrite nth_error_app2, Nat.sub_diag in Hn by lia. injection Hn as <-.
    constructor; [assumption|].
    apply (IH subs (pre ++ [x])); [lia|].
    rewrite length_app, Nat.add_1_r. rewrite <- app_assoc. exact HF'.
Qed.

(** A successful run of the body of [yolact_segm_postprocess], with the
    rows it leaves in [boxes] and the window of every mask. *)
Lemma yolact_segm_body_run_boxes boxes masks score classes proto w h sx sy
    st b r st' :
  nth_error st boxes = Some (ABoxes b) ->
  hd 0%nat (shape masks) = length b ->
  yolact_segm_body cv2_resize np_exp boxes masks score classes proto w h
    sx sy st = Ok (r, st') ->
  exists ext lms,
    r = RetTuple boxes score classes lms /\
    st' = set_nth st boxes (ABoxes (map (sanitize_box w h sx sy) b)) ++ ext /\
    length lms = length b /\
    Forall2 (fun bk l => (length st <= l)%nat /\
                         mask_window_at h w (yolact_window w h sx sy bk) l st')
            b lms.
Proof.
  intros Hb Hn H. unfold yolact_segm_body in H.
  step_in H. apply np_matmul_T_shape in St.
  destruct St as [ph [pw [k [n [Sc Sm]]]]].
  rewrite Sc in Hn. simpl in Hn. subst n.
  step_in H. rewrite Hb in St. injection St as <-.
  step_in H.
  apply (crop_mask_shape _ _ _ ph pw (length b)) in St;
    [|exact Sm|reflexivity].
  destruct St as [h' [w' Scrop]].
  step_in H. apply np_transpose3_shape in St.
  destruct St as [x [y [z [E St]]]].
  rewrite Scrop in E. injection E as <- <- <-. simpl in St.
  pose proof (sanitize_box_rows w h sx sy b) as R. cbv zeta in R.
  destruct (sanitize_coordinates (map b0 b) (map b2 b) (Qnat w) 0 0)
    as [x1 x2] eqn:EX.
  destruct (sanitize_coordinates (map b1 b) (map b3 b) (Qnat h) 0 0)
    as [y1 y2] eqn:EY.
  destruct (sanitize_coordinates (map b0 b) (map b2 b) (Qnat w) sx 0)
    as [nx1 nx2].
  cbn [fst snd] in R.
  step_in H.
  step_in H. rewrite nth_error_set_nth_eq in St1 by assumption.
  injection St1 as <-.
  destruct (sanitize_coordinates (map b1 (set_cols_x b nx1 nx2)) _ _ _ _)
    as [ny1 ny2].
  cbn [fst snd] in R. rewrite R in H.
  step_in H. rewrite set_nth_twice in H.
  step_in H.
  unfold sanitize_coordinates in EX, EY.
  injection EX as <- <-. injection EY as <- <-.
  set (bs := map (sanitize_box w h sx sy) b) in *.
  apply (mapM_Forall2
           (fun s0 => nth_error s0 boxes = Some (ABoxes bs))
           (fun (it : nat * ndarray Q) l s0 =>
              exists bk, nth_error b (fst it) = Some bk /\
                mask_window_at h w (yolact_window w h sx sy bk) l s0)) in St2.
  2:{ intros s0 ext Hs0. rewrite nth_error_app1; [assumption|].
      apply nth_error_Some. congruence. }
  2:{ intros it l s0 ext [bk [Hk Hm]]. exists bk. split; [assumption|].
      now apply mask_window_at_app. }
  2:{ intros [mask_id mask] s0 l s0' Hs0 _ Hstep.
      destruct (yolact_mask_step_window _ _ _ _ _ _ _ _ _ _ _ _ _ Hs0 Hstep)
        as (ext & bx & x1m & y1m & x2m & y2m & -> & Hl & Hbx & Hx1 & Hy1 &
            Hx2 & Hy2 & Hm).
      exists ext. split; [reflexivity|]. split; [assumption|].
      unfold bs in Hbx. rewrite !nth_error_map in Hx1, Hy1, Hx2, Hy2.
      rewrite nth_error_map in Hbx.
      destruct (nth_error b mask_id) as [bk|] eqn:Ek; [|discriminate].
      exists bk. split; [exact Ek|].
      cbn [option_map] in *.
      injection Hbx as <-. injection Hx1 as <-. injection Hy1 as <-.
      injection Hx2 as <-. injection Hy2 as <-. exact Hm. }
  2:{ apply nth_error_set_nth_eq. apply nth_error_Some. congruence. }
  destruct St2 as [ext [-> HF]].
  apply ret_Ok in H. destruct H as [-> ->].
  exists ext, a4.
  split; [reflexivity|]. split; [reflexivity|].
  assert (Ls : length (subarrays a1) = length b).
  { rewrite length_subarrays, St. reflexivity. }
  split.
  - apply Forall2_length in HF.
    rewrite length_combine, length_seq, Ls, Nat.min_id in HF. symmetry; exact HF.
  - apply (Forall2_combine_seq _ b (subarrays a1) []); [exact Ls|].
    rewrite Ls in HF. simpl length.
    eapply Forall2_impl; [|exact HF]. simpl.
    intros it l [Hl [bk [Hk Hm]]]. exists bk. split; [exact Hk|].
    split; [|exact Hm]. rewrite set_nth_length in Hl. exact Hl.
Qed.

End YolactValues.

Lemma length_bool_select_same {A B} (a : list A) (c : list B) mask :
  length a = length c ->
  length (bool_select a mask) = length (bool_select c mask).
Proof.
  revert c mask. induction a as [|x a IH]; intros [|y c] [|m mask] H;
    simpl in *; try discriminate; try reflexivity.
  destruct m; simpl; rewrite (IH c mask) by lia; reflexivity.
Qed.

Lemma bool_select_above (s : list Q) thr :
  Forall (fun v => thr < v)
         (bool_select s (map (fun v => Qlt_bool thr v) s)).
Proof.
  induction s as [|v s IH]; simpl; [constructor|].
  destruct (Qlt_bool thr v) eqn:E; [|exact IH].
  constructor; [now apply Qlt_bool_iff|exact IH].
Qed.

(** X18.  With [score_threshold <= 0] (the default)
    [yolact_segm_postprocess] works on the caller's arrays: it returns the
    very [boxes], [score] and [classes] it was given, and the rows of
    [boxes] have been overwritten in place by their shifted, scaled and
    clipped coordinates, which lie in the frame.  Every other array that
    existed before the call is as it was; there is one mask per box. *)
Theorem yolact_segm_postprocess_in_place cv2_resize np_exp
    (boxes score classes : loc) masks proto w h thr sx sy (st : store)
    b r st' :
  thr <= 0 ->
  nth_error st boxes = Some (ABoxes b) ->
  hd 0%nat (shape masks) = length b ->
  yolact_segm_postprocess cv2_resize np_exp boxes masks score classes proto
    w h thr sx sy st = Ok (r, st') ->
  exists lms,
    r = RetTuple boxes score classes lms /\ length lms = length b /\
    nth_error st' boxes = Some (ABoxes (map (sanitize_box w h sx sy) b)) /\
    Forall (in_frame w h) (map (sanitize_box w h sx sy) b) /\
    (forall l, (l < length st)%nat -> l <> boxes ->
               nth_error st' l = nth_error st l).
Proof.
  intros Ht Hb Hn H. unfold yolact_segm_postprocess in H.
  assert (E : Qlt_bool 0 thr = false).
  { destruct (Qlt_bool 0 thr) eqn:E; [|reflexivity].
    apply Qlt_bool_iff in E. lra. }
  rewrite E in H.
  destruct (yolact_segm_body_run_boxes _ _ _ _ _ _ _ _ _ _ _ _ _ _ _ Hb Hn H)
    as [ext [lms [-> [-> [Hl _]]]]].
  assert (Hlt : (boxes < length st)%nat)
    by (apply nth_error_Some; congruence).
  exists lms. split; [reflexivity|]. split; [exact Hl|]. split.
  - rewrite nth_error_app1 by now rewrite set_nth_length.
    now apply nth_error_set_nth_eq.
  - split.
    + apply Forall_map, Forall_forall. intros bx _.
      apply sanitize_box_in_frame.
    + intros l Hlen Hne.
      rewrite nth_error_app1 by now rewrite set_nth_length.
      apply nth_error_set_nth_ne. congruence.
Qed.

Lemma yolact_segm_postprocess_in_place_witness :
  exists lms st',
    yolact_segm_postprocess resize_nearest exp_taylor2 0%nat segm_coeffs
      1%nat 2%nat segm_proto 4 4 0 0 0 segm_store =
      Ok (RetTuple 0%nat 1%nat 2%nat lms, st') /\
    nth_error st' 0 =
      Some (ABoxes (map (sanitize_box 4 4 0 0)
                        [mkBox 0 0 (1 # 2) (1 # 2); mkBox (1 # 2) (1 # 2) 1 1])).
Proof.
  assert (E : exists r st',
             yolact_segm_postprocess resize_nearest exp_taylor2 0%nat
               segm_coeffs 1%nat 2%nat segm_proto 4 4 0 0 0 segm_store =
             Ok (r, st')).
  { eexists. eexists. vm_compute. reflexivity. }
  destruct E as [r [st' E]].
  destruct (yolact_segm_postprocess_in_place resize_nearest exp_taylor2
              0%nat 1%nat 2%nat segm_coeffs segm_proto 4 4 0 0 0 segm_store
              [mkBox 0 0 (1 # 2) (1 # 2); mkBox (1 # 2) (1 # 2) 1 1] r st')
    as [lms [Hr [_ [Hb _]]]];
    [discriminate|reflexivity|reflexivity|exact E|].
  exists lms, st'. subst r. split; [exact E|exact Hb].
Defined.

Lemma set_nth_app_r {A} (l l' : list A) k v :
  set_nth (l ++ l') (length l + k) v = l ++ set_nth l' k v.
Proof. induction l as [|y l IH]; simpl; [reflexivity|]. now rewrite IH. Qed.

Lemma nth_error_app_r {A} (l l' : list A) k :
  nth_error (l ++ l') (length l + k) = nth_error l' k.
Proof. induction l; simpl; auto. Qed.

Lemma np_bool_index_Ok {A} (a : list A) mask r :
  np_bool_index a mask = Ok r ->
  length a = length mask /\ r = bool_select a mask.
Proof.
  unfold np_bool_index. destruct (Nat.eqb_spec (length a) (length mask));
    [|discriminate].
  now intros [= <-].
Qed.

Lemma bool_rows_Ok {A} (d : A) (a : ndarray A) mask r :
  bool_rows d a mask = Ok r ->
  hd 0%nat (shape r) =
  length (bool_select (seq 0 (length mask)) mask).
Proof.
  unfold bool_rows. destruct (shape a) as [|n [|m [|? ?]]]; try discriminate.
  destruct (Nat.eqb_spec n (length mask)); [|discriminate].
  intros [= <-]. subst n. reflexivity.
Qed.

(** X19.  With a positive [score_threshold], [yolact_segm_postprocess]
    works on copies: every array that existed before the call is as it
    was.  It returns either the empty list (no score above the threshold)
    or three new arrays and the masks, holding only the detections whose
    score is above the threshold, with their boxes in the frame. *)
Theorem yolact_segm_postprocess_filtered cv2_resize np_exp
    (boxes score classes : loc) masks proto w h thr sx sy (st : store)
    r st' :
  0 < thr ->
  yolact_segm_postprocess cv2_resize np_exp boxes masks score classes proto
    w h thr sx sy st = Ok (r, st') ->
  (forall l, (l < length st)%nat -> nth_error st' l = nth_error st l) /\
  (r = RetList [] \/
   exists bl sl cl lms bx sc,
     r = RetTuple bl sl cl lms /\
     (length st <= bl)%nat /\ (length st <= sl)%nat /\
     (length st <= cl)%nat /\
     nth_error st' sl = Some (AVec sc) /\ Forall (fun v => thr < v) sc /\
     nth_error st' bl = Some (ABoxes bx) /\ Forall (in_frame w h) bx /\
     length bx = length sc /\ length lms = length sc).
Proof.
  intros Ht H. unfold yolact_segm_postprocess in H.
  apply Qlt_bool_iff in Ht. rewrite Ht in H.
  do 9 step_in H.
  set (keep := map (fun v => Qlt_bool thr v) a) in *.
  set (sel := bool_select a keep) in *.
  rewrite !length_app in H. cbn [length] in H.
  rewrite <- !app_assoc in H. cbn [app] in H.
  apply np_bool_index_Ok in St1. destruct St1 as [La0 ->].
  apply np_bool_index_Ok in St4. destruct St4 as [_ ->].
  apply bool_rows_Ok in St2.
  assert (Lk : length keep = length a) by apply length_map.
  destruct (length sel =? 0)%nat.
  - apply ret_Ok in H. destruct H as [-> ->]. split; [|now left].
    intros l Hl. now apply nth_error_app1.
  - apply yolact_segm_body_run_boxes with (b := bool_select a0 keep) in H.
    2:{ now rewrite nth_error_app_r. }
    2:{ rewrite St2. apply length_bool_select_same.
        rewrite length_seq. congruence. }
    destruct H as [ext [lms [-> [-> [Hl _]]]]].
    rewrite set_nth_app_r. cbn [set_nth]. rewrite <- app_assoc. cbn [app].
    split; [intros l Hl'; now apply nth_error_app1|].
    right.
    exists (length st + 1)%nat, (length st), (length st + 1 + 1)%nat, lms,
      (map (sanitize_box w h sx sy) (bool_select a0 keep)), sel.
    split; [reflexivity|]. split; [lia|]. split; [lia|]. split; [lia|].
    split; [apply nth_error_app_last_cons|].
    split; [apply bool_select_above|].
    split; [now rewrite nth_error_app_r|].
    split.
    { apply Forall_map, Forall_forall. intros bx _.
      apply sanitize_box_in_frame. }
    assert (Lsel : length (bool_select a0 keep) = length sel)
      by (apply length_bool_select_same; congruence).
    split; [now rewrite length_map|congruence].
Qed.

Lemma yolact_segm_postprocess_filtered_witness :
  exists st',
    yolact_segm_postprocess resize_nearest exp_taylor2 0%nat segm_coeffs
      1%nat 2%nat segm_proto 4 4 (1 # 2) 0 0 segm_store =
      Ok (RetTuple 4%nat 3%nat 5%nat [7%nat], st') /\
    forall l, (l < length segm_store)%nat ->
              nth_error st' l = nth_error segm_store l.
Proof.
  eexists. split; [vm_compute; reflexivity|].
  refine (proj1 (yolact_segm_postprocess_filtered resize_nearest exp_taylor2
                   0%nat 1%nat 2%nat segm_coeffs segm_proto 4 4 (1 # 2) 0 0
                   segm_store _ _ _ _));
    [reflexivity|vm_compute; reflexivity].
Defined.

Section YolactResult.
Variable cv2_resize : ndarray Q -> Z -> Z -> result (ndarray Q).
Variable np_exp : Q -> Q.

Lemma yolact_postprocess_values (outputs : list (String.string * loc))
    scale_x scale_y fh fw ih iw thr (st : store) ls lc lb ms st' :
  yolact_postprocess cv2_resize np_exp outputs scale_x scale_y fh fw ih iw thr
    st = Ok (ls, lc, lb, ms, st') ->
  exists (lconf : loc) conf4 conf0 conf boxes idx_lst cls_lst scr_lst bsel
         shx shy,
    dict_get outputs "conf"%string = Ok lconf /\
    nth_error st lconf = Some (ATensor conf4) /\
    index0 conf4 0 = Ok conf0 /\ np_transpose2 0 conf0 = Ok conf /\
    yolact_class_loop boxes conf fh fw thr ([], [], [])
      (seq 1 (nth 0 (shape conf) 0%nat - 1)) = Ok (idx_lst, cls_lst, scr_lst) /\
    length (concat idx_lst) = length (concat cls_lst) /\
    length (concat idx_lst) = length (concat scr_lst) /\
    concat idx_lst <> [] /\
    nth_error st' ls =
      Some (AVec (gather (concat scr_lst) (rev (argsort (concat scr_lst))))) /\
    nth_error st' lc =
      Some (AIVec (map (fun i => nth i (concat cls_lst) 0%Z)
                       (rev (argsort (concat scr_lst))))) /\
    nth_error st' lb = Some (ABoxes (map (sanitize_box fw fh shx shy) bsel)).
Proof.
  intros H. unfold yolact_postprocess in H.
  do 15 step_in H.
  step_in H.
  assert (Hinv : lists_ok a14).
  { eapply yolact_class_loop_ok; [|exact St14].
    simpl. repeat split. now left. }
  destruct a14 as [[idx_lst cls_lst] scr_lst].
  destruct Hinv as [L1 [L2 L3]].
  step_in H. apply np_concatenate_Ok in St15. destruct St15 as [Hne ->].
  step_in H. apply np_concatenate_Ok in St15. destruct St15 as [_ ->].
  step_in H. apply np_concatenate_Ok in St15. destruct St15 as [_ ->].
  destruct L3 as [L3|L3]; [contradiction|].
  set (scores := concat scr_lst) in *.
  set (idx2 := rev (argsort scores)) in *.
  assert (Lidx2 : length idx2 = length (concat idx_lst)).
  { unfold idx2. rewrite length_order. symmetry. exact L2. }
  step_in H. apply take_length in St15. rewrite length_map in St15.
  step_in H. apply take_rows_shape in St16. rewrite length_map in St16.
  step_in H. step_in H. step_in H.
  assert (Hpos : (0 < length a14 * 4)%nat).
  { rewrite St15, Lidx2. destruct (concat idx_lst); [congruence|simpl; lia]. }
  apply Nat.ltb_lt in Hpos. rewrite Hpos in H.
  rewrite !length_app in H. simpl length in H.
  rewrite <- !app_assoc in H. simpl app in H.
  step_in H. rewrite yolact_segm_postprocess_default in St17.
  apply yolact_segm_body_run_boxes with (b := a14) in St17.
  2:{ apply nth_error_app_last_cons. }
  2:{ congruence. }
  destruct St17 as [ext [lms [-> [-> _]]]].
  apply ret_Ok in H. destruct H as [E ->]. injection E as -> -> -> ->.
  rewrite set_nth_app_head. rewrite <- !app_assoc. cbn [app].
  exists a2, a3, a4, a5, a1, idx_lst, cls_lst, scr_lst, a14, a12, a13.
  repeat (split; [assumption|]).
  split; [now rewrite nth_error_app_r|].
  split; [now rewrite <- Nat.add_assoc, nth_error_app_r|].
  apply nth_error_app_last_cons.
Qed.
End YolactResult.

Lemma nms_In_lt x1 y1 x2 y2 scores thresh ib keep_top_k i :
  In i (nms x1 y1 x2 y2 scores thresh ib keep_top_k) ->
  (i < length scores)%nat.
Proof.
  destruct (nms_order_prefix scores keep_top_k) as [m Hm]. rewrite Hm.
  intros Hi. apply nms_loop_incl, In_firstn in Hi. now apply order_In.
Qed.

Lemma gather_Forall (P : Q -> Prop) a keep :
  Forall P a -> Forall (fun i => (i < length a)%nat) keep ->
  Forall P (gather a keep).
Proof.
  intros Ha Hk. unfold gather. apply Forall_map.
  eapply Forall_impl; [|exact Hk]. intros i Hi. unfold at_.
  rewrite Forall_forall in Ha. apply Ha. now apply nth_In.
Qed.

(** What one round of the class loop appends: scores above the threshold
    and the number of the class. *)
Lemma yolact_class_step_values boxes conf fh fw thr il cl sl cls il' cl' sl'
    (nc : nat) :
  yolact_class_step boxes conf fh fw thr (il, cl, sl) cls = Ok (il', cl', sl') ->
  (1 <= cls < nc)%nat ->
  Forall (Forall (fun v => thr < v)) sl ->
  Forall (Forall (fun c => (1 <= c < Z.of_nat nc)%Z)) cl ->
  Forall (Forall (fun v => thr < v)) sl' /\
  Forall (Forall (fun c => (1 <= c < Z.of_nat nc)%Z)) cl'.
Proof.
  intros H Hc Hs Hcl. unfold yolact_class_step in H.
  pose proof (bool_select_above (row2 0 conf cls) thr) as Habove.
  set (sc := bool_select (row2 0 conf cls) _) in *.
  set (ix := bool_select (seq 0 _) _) in *.
  destruct (length sc =? 0)%nat.
  - injection H as <- <- <-. now split.
  - apply rbind_Ok in H. destruct H as [sel [_ H]].
    destruct (sanitize_coordinates (map b0 sel) _ _ _ _) as [x1 x2].
    destruct (sanitize_coordinates (map b1 sel) _ _ _ _) as [y1 y2].
    injection H as <- <- <-. split.
    + apply Forall_app. split; [assumption|]. constructor; [|constructor].
      apply gather_Forall; [exact Habove|].
      apply Forall_forall. intros i Hi. now apply nms_In_lt in Hi.
    + apply Forall_app. split; [assumption|]. constructor; [|constructor].
      apply Forall_forall. intros c Hin. apply repeat_spec in Hin. lia.
Qed.

Lemma yolact_class_loop_values boxes conf fh fw thr (nc : nat) classes :
  forall il cl sl il' cl' sl',
  yolact_class_loop boxes conf fh fw thr (il, cl, sl) classes =
    Ok (il', cl', sl') ->
  Forall (fun cls => (1 <= cls < nc)%nat) classes ->
  Forall (Forall (fun v => thr < v)) sl ->
  Forall (Forall (fun c => (1 <= c < Z.of_nat nc)%Z)) cl ->
  Forall (Forall (fun v => thr < v)) sl' /\
  Forall (Forall (fun c => (1 <= c < Z.of_nat nc)%Z)) cl'.
Proof.
  induction classes as [|cls rest IH]; intros il cl sl il' cl' sl' H Hc Hs Hcl;
    simpl in H.
  - injection H as <- <- <-. now split.
  - apply rbind_Ok in H. destruct H as [[[il1 cl1] sl1] [Hstep H]].
    inversion Hc as [|? ? Hc1 Hc2]; subst.
    destruct (yolact_class_step_values _ _ _ _ _ _ _ _ _ _ _ _ nc Hstep Hc1
                Hs Hcl) as [Hs1 Hcl1].
    exact (IH _ _ _ _ _ _ H Hc2 Hs1 Hcl1).
Qed.

Lemma Forall_concat {A} (P : A -> Prop) (l : list (list A)) :
  Forall (Forall P) l -> Forall P (concat l).
Proof.
  induction 1 as [|x l Hx H IH]; simpl; [constructor|].
  apply Forall_app. now split.
Qed.

Lemma StronglySorted_map {A B} (P : A -> A -> Prop) (R : B -> B -> Prop)
    (f : A -> B) l :
  (forall a c, P a c -> R (f a) (f c)) ->
  StronglySorted P l -> StronglySorted R (map f l).
Proof.
  intros HPR. induction 1 as [|a l Hs IH Ha]; simpl; constructor;
    [assumption|].
  apply Forall_map. eapply Forall_impl; [|exact Ha]. apply HPR.
Qed.

Lemma transposed_conf_classes (conf4 conf0 conf : ndarray Q) :
  index0 conf4 0 = Ok conf0 -> np_transpose2 0 conf0 = Ok conf ->
  nth 0 (shape conf) 0%nat = nth 2 (shape conf4) 0%nat.
Proof.
  unfold index0, np_transpose2, subarray.
  destruct (shape conf4) as [|n0 sh]; [discriminate|].
  destruct (0 <? n0)%nat; [|discriminate]. intros [= <-]. cbn [shape tl].
  destruct sh as [|n [|m [|? ?]]]; try discriminate.
  now intros [= <-].
Qed.

(** X20.  Whenever [yolact_postprocess] returns, the detections it
    returns are not empty, every returned score is above
    [conf_threshold], the scores are in descending order, and every
    returned class is a foreground class: at least 1 and below the number
    of classes of [outputs['conf']]. *)
Theorem yolact_postprocess_scores_classes cv2_resize np_exp
    (outputs : list (String.string * loc)) scale_x scale_y fh fw ih iw thr
    (st : store) (lconf : loc) conf4 ls lc lb ms st' :
  dict_get outputs "conf"%string = Ok lconf ->
  nth_error st lconf = Some (ATensor conf4) ->
  yolact_postprocess cv2_resize np_exp outputs scale_x scale_y fh fw ih iw thr
    st = Ok (ls, lc, lb, ms, st') ->
  exists sc cl,
    nth_error st' ls = Some (AVec sc) /\ nth_error st' lc = Some (AIVec cl) /\
    sc <> [] /\
    Forall (fun v => thr < v) sc /\
    StronglySorted (fun v v' => v' <= v) sc /\
    Forall (fun c => (1 <= c < Z.of_nat (nth 2 (shape conf4) 0%nat))%Z) cl.
Proof.
  intros Hd Hn H.
  destruct (yolact_postprocess_values cv2_resize np_exp _ _ _ _ _ _ _ _ _ _
              _ _ _ _ H)
    as (lconf' & conf4' & conf0 & conf & boxes & il & cl & sl & bsel & shx &
        shy & D & N & I0 & T & Hloop & L1 & L2 & Hne & Hs & Hc & _).
  rewrite Hd in D. injection D as <-. rewrite Hn in N. injection N as <-.
  pose proof (transposed_conf_classes _ _ _ I0 T) as Hnc.
  destruct (yolact_class_loop_values _ _ _ _ _ (nth 0 (shape conf) 0%nat)
              _ _ _ _ _ _ _ Hloop) as [Fs Fc]; try constructor.
  { apply Forall_forall. intros c Hin. apply in_seq in Hin. lia. }
  apply Forall_concat in Fs, Fc. rewrite Hnc in Fc.
  set (scores := concat sl) in *.
  eexists. eexists. split; [exact Hs|]. split; [exact Hc|].
  assert (Hidx : Forall (fun i => (i < length scores)%nat)
                        (rev (argsort scores))).
  { apply Forall_forall. intros i Hi. now apply order_In. }
  split.
  { intros E. apply (f_equal (@length Q)) in E.
    unfold gather in E. rewrite length_map, length_order in E. simpl in E.
    destruct (concat il); [congruence|simpl in L2; lia]. }
  split; [now apply gather_Forall|].
  split.
  - unfold gather.
    apply (StronglySorted_map (fun a c => score_lt scores c a));
      [|apply order_sorted].
    intros a c [Hlt|[Heq _]]; lra.
  - apply Forall_map. eapply Forall_impl; [|exact Hidx].
    intros i Hi. cbv beta in Hi. rewrite Forall_forall in Fc.
    apply Fc, nth_In. lia.
Qed.

Lemma yolact_postprocess_scores_classes_witness :
  exists ls lc lb ms st' sc cl,
    yolact_postprocess resize_nearest exp_taylor2 yolact_outputs 1 1 4 4 4 4
      (1 # 2) (yolact_store (9 # 10) (8 # 10)) = Ok (ls, lc, lb, ms, st') /\
    nth_error st' ls = Some (AVec sc) /\ nth_error st' lc = Some (AIVec cl) /\
    Forall (fun v => 1 # 2 < v) sc /\
    Forall (fun c => (1 <= c < 2)%Z) cl.
Proof.
  assert (E : exists r,
             yolact_postprocess resize_nearest exp_taylor2 yolact_outputs
               1 1 4 4 4 4 (1 # 2) (yolact_store (9 # 10) (8 # 10)) = Ok r).
  { eexists. vm_compute. reflexivity. }
  destruct E as [[[[[ls lc] lb] ms] st'] E].
  destruct (yolact_postprocess_scores_classes resize_nearest exp_taylor2
              yolact_outputs 1 1 4 4 4 4 (1 # 2)
              (yolact_store (9 # 10) (8 # 10)) 1%nat
              (mkArr [1; 2; 2]%nat [1 # 10; 9 # 10; 1 # 10; 8 # 10])
              ls lc lb ms st' eq_refl eq_refl E)
    as [sc [cl [H1 [H2 [_ [H4 [_ H6]]]]]]].
  exists ls, lc, lb, ms, st', sc, cl. auto.
Defined.

(** X21.  Whenever [yolact_postprocess] returns, every returned box lies
    in the frame: its x coordinates are between 0 and [frame_width] and
    its y coordinates between 0 and [frame_height]. *)
Theorem yolact_postprocess_boxes_in_frame cv2_resize np_exp
    (outputs : list (String.string * loc)) scale_x scale_y fh fw ih iw thr
    (st : store) ls lc lb ms st' :
  yolact_postprocess cv2_resize np_exp outputs scale_x scale_y fh fw ih iw thr
    st = Ok (ls, lc, lb, ms, st') ->
  exists bx,
    nth_error st' lb = Some (ABoxes bx) /\ Forall (in_frame fw fh) bx.
Proof.
  intros H.
  destruct (yolact_postprocess_values cv2_resize np_exp _ _ _ _ _ _ _ _ _ _
              _ _ _ _ H)
    as (lconf & conf4 & conf0 & conf & boxes & il & cl & sl & bsel & shx &
        shy & _ & _ & _ & _ & _ & _ & _ & _ & _ & _ & Hb).
  eexists. split; [exact Hb|].
  apply Forall_map, Forall_forall. intros bx _. apply sanitize_box_in_frame.
Qed.

Lemma yolact_postprocess_boxes_in_frame_witness :
  exists ls lc lb ms st' bx,
    yolact_postprocess resize_nearest exp_taylor2 yolact_outputs 1 1 4 4 4 4
      (1 # 2) (yolact_store (9 # 10) (8 # 10)) = Ok (ls, lc, lb, ms, st') /\
    nth_error st' lb = Some (ABoxes bx) /\ Forall (in_frame 4 4) bx.
Proof.
  assert (E : exists r,
             yolact_postprocess resize_nearest exp_taylor2 yolact_outputs
               1 1 4 4 4 4 (1 # 2) (yolact_store (9 # 10) (8 # 10)) = Ok r).
  { eexists. vm_compute. reflexivity. }
  destruct E as [[[[[ls lc] lb] ms] st'] E].
  destruct (yolact_postprocess_boxes_in_frame resize_nearest exp_taylor2
              yolact_outputs 1 1 4 4 4 4 (1 # 2)
              (yolact_store (9 # 10) (8 # 10)) ls lc lb ms st' E)
    as [bx [H1 H2]].
  exists ls, lc, lb, ms, st', bx. auto.
Defined.

(** X22.  [yolact_postprocess] divides by the frame size: with
    [frame_width = 0] or [frame_height = 0] it does not return. *)
Theorem yolact_postprocess_zero_frame cv2_resize np_exp
    (outputs : list (String.string * loc)) scale_x scale_y fh fw ih iw thr
    (st : store) :
  fw = 0%nat \/ fh = 0%nat ->
  forall r, yolact_postprocess cv2_resize np_exp outputs scale_x scale_y
              fh fw ih iw thr st <> Ok r.
Proof.
  intros Hz [r st'] H. unfold yolact_postprocess in H.
  do 15 step_in H.
  destruct Hz as [-> | ->]; simpl in *; discriminate.
Qed.

Lemma yolact_postprocess_zero_frame_witness :
  ~ exists r,
      yolact_postprocess resize_nearest exp_taylor2 yolact_outputs 1 1 4 0 4 4
        (1 # 2) (yolact_store (9 # 10) (8 # 10)) = Ok r.
Proof.
  intros [r H]. revert H.
  apply yolact_postprocess_zero_frame. now left.
Defined.

(** ** Topology validation *)

Lemma py_assert_Ok cond msg u : py_assert cond msg = Ok u -> cond = true.
Proof. unfold py_assert. destruct cond; [reflexivity|discriminate]. Qed.

Lemma py_head_Ok {A} (l : list A) x : py_head l = Ok x -> In x l.
Proof. destruct l; simpl; [discriminate|]. intros [= <-]. now left. Qed.

Lemma In_map_fst_filter {V} (f : String.string * V -> bool) d k :
  In k (map fst (filter f d)) -> exists v, In (k, v) d /\ f (k, v) = true.
Proof.
  intros H. apply in_map_iff in H. destruct H as [[k' v] [<- H]].
  apply filter_In in H. exists v. exact H.
Qed.

(** X23.  What [check_model] accepts, and how it chooses the variant:
    the network has one or two inputs; the image input it returns has a
    four-dimensional shape with batch size 1; with one input it returns no
    image-info input and the prototype-mask postprocessor; with two inputs
    it returns an input whose shape is two-dimensional with last extent 3
    and (unless that input's name is empty) the region-proposal
    postprocessor.  The outputs of the network play no part. *)
Theorem check_model_selects_by_inputs net img info shp pp :
  check_model net = Ok (img, info, shp, pp) ->
  dict_get (input_info net) img = Ok shp /\ nth_error shp 0 = Some 1%nat /\
  (exists shp4, In (img, shp4) (input_info net) /\ length shp4 = 4%nat) /\
  ((length (input_info net) = 1%nat /\ info = None /\ pp = PostYolact) \/
   (length (input_info net) = 2%nat /\
    exists name shp2,
      info = Some name /\ In (name, shp2) (input_info net) /\
      length shp2 = 2%nat /\ last shp2 0%nat = 3%nat /\
      pp = if String.eqb name String.EmptyString then PostYolact
           else PostMaskRcnn)).
Proof.
  intros H. pose proof (check_model_batch _ _ _ _ _ H) as [B1 B2].
  split; [exact B1|]. split; [exact B2|].
  unfold check_model in H.
  apply rbind_Ok in H. destruct H as [u1 [A1 H]]. apply py_assert_Ok in A1.
  apply rbind_Ok in H. destruct H as [u2 [A2 H]]. apply py_assert_Ok in A2.
  apply rbind_Ok in H. destruct H as [img' [Himg H]].
  apply rbind_Ok in H. destruct H as [info' [Hinfo H]].
  apply rbind_Ok in H. destruct H as [attrs [Hattrs H]].
  apply rbind_Ok in H. destruct H as [u3 [_ H]].
  apply rbind_Ok in H. destruct H as [shp' [_ H]].
  apply rbind_Ok in H. destruct H as [batch [_ H]].
  apply rbind_Ok in H. destruct H as [u4 [_ H]].
  injection H as <- <- <- <-.
  split.
  { apply py_head_Ok, In_map_fst_filter in Himg.
    destruct Himg as [shp4 [Hin Hf]]. exists shp4. split; [exact Hin|].
    now apply Nat.eqb_eq in Hf. }
  apply Nat.leb_le in A1. apply Nat.eqb_eq in A2.
  destruct (Nat.eqb_spec (length (input_info net)) 2) as [E2|E2].
  - right. split; [exact E2|].
    apply rbind_Ok in Hinfo. destruct Hinfo as [u5 [_ Hinfo]].
    apply rbind_Ok in Hinfo. destruct Hinfo as [name [Hname Hinfo]].
    injection Hinfo as <-.
    apply py_head_Ok, In_map_fst_filter in Hname.
    destruct Hname as [shp2 [Hin Hf]].
    apply andb_true_iff in Hf. destruct Hf as [F1 F2].
    apply Nat.eqb_eq in F1, F2.
    exists name, shp2. repeat (split; [assumption || reflexivity|]).
    unfold name_truth in Hattrs.
    destruct (String.eqb name String.EmptyString); simpl in Hattrs;
      now injection Hattrs as <-.
  - left. injection Hinfo as <-. simpl in Hattrs. injection Hattrs as <-.
    split; [|now split].
    destruct (input_info net) as [|i1 [|i2 [|i3 rest]]]; simpl in *;
      try lia; discriminate.
Qed.

Lemma check_model_selects_by_inputs_witness :
  let net := mkNet [("im_data"%string, [1; 3; 480; 480]%nat);
                    ("im_info"%string, [1; 3]%nat)] [] in
  dict_get (input_info net) "im_data"%string = Ok [1; 3; 480; 480]%nat /\
  nth_error [1; 3; 480; 480]%nat 0 = Some 1%nat /\
  exists shp4, In ("im_data"%string, shp4) (input_info net) /\
               length shp4 = 4%nat.
Proof.
  intros net.
  destruct (check_model_selects_by_inputs net
              "im_data"%string (Some "im_info"%string) [1; 3; 480; 480]%nat
              PostMaskRcnn eq_refl) as [H1 [H2 [H3 _]]].
  split; [exact H1|]. split; [exact H2|exact H3].
Defined.

Lemma dict_get_In {V} (d : list (String.string * V)) k v :
  NoDup (map fst d) -> In (k, v) d -> dict_get d k = Ok v.
Proof.
  induction d as [|[k' v'] d IH]; intros Hnd Hin; simpl in *; [contradiction|].
  inversion Hnd as [|? ? Hnotin Hnd']; subst.
  destruct Hin as [E|Hin].
  - injection E as -> ->. now rewrite String.eqb_refl.
  - destruct (String.eqb_spec k' k) as [->|Hne]; [|now apply IH].
    exfalso. apply Hnotin. apply in_map_iff. exists (k, v). now split.
Qed.

(** X24.  On a network whose input names are distinct (as the keys of a
    dict are), [check_model] fails in one way only: with an
    [AssertionError] carrying one of its four messages about the inputs.
    It never raises [KeyError] or [IndexError], and never complains about
    the outputs. *)
Theorem check_model_only_asserts net e :
  NoDup (map fst (input_info net)) ->
  check_model net = Raise e ->
  exists msg,
    e = AssertionError msg /\
    In msg ["Demo supports only topologies with 1 or 2 inputs.";
            "Demo supports only model with single input for images";
            "Demo supports only model with single im_info input";
            "Only batch 1 is supported by the demo application"]%string.
Proof.
  intros Hnd H. unfold check_model in H.
  destruct (length (input_info net) <=? 2)%nat; cbn [py_assert rbind] in H;
    [|injection H as <-; eexists; split; [reflexivity|simpl; tauto]].
  set (imgs := filter _ (input_info net)) in *.
  destruct (Nat.eqb_spec (length (map fst imgs)) 1) as [E1|E1];
    cbn [py_assert rbind] in H;
    [|injection H as <-; eexists; split; [reflexivity|simpl; tauto]].
  destruct imgs as [|[img shp4] [|? ?]] eqn:Eimgs; try discriminate.
  cbn [map fst py_head rbind] in H.
  assert (Hin : In (img, shp4) (input_info net) /\ length shp4 = 4%nat).
  { assert (Hf : In (img, shp4) imgs) by (rewrite Eimgs; now left).
    apply filter_In in Hf. destruct Hf as [Hf1 Hf2].
    split; [exact Hf1|now apply Nat.eqb_eq in Hf2]. }
  destruct Hin as [Hin L4].
  assert (Hinfo : forall info : option String.string,
            rbind (dict_get MODEL_ATTRIBUTES
                     (if name_truth info then "mask_rcnn"%string
                      else "yolact"%string))
              (fun model_attreibutes =>
                 rbind (py_assert
                          (tuple_truth
                             (issubset (required_outputs model_attreibutes)
                                       (map fst (outputs net)),
                              "Demo supports only topologies with the following output keys: "%string))
                          String.EmptyString)
                   (fun _ =>
                      rbind (dict_get (input_info net) img)
                        (fun input_shape =>
                           rbind (py_head input_shape)
                             (fun batch =>
                                rbind (py_assert (batch =? 1)%nat
                                         "Only batch 1 is supported by the demo application"%string)
                                  (fun _ =>
                                     Ok (img, info, input_shape,
                                         attr_postprocessor model_attreibutes)))))) =
            Raise e ->
            e = AssertionError
                  "Only batch 1 is supported by the demo application"%string).
  { intros info H'. rewrite (dict_get_In _ _ _ Hnd Hin) in H'.
    destruct shp4 as [|batch shp4]; [discriminate|].
    destruct (name_truth info); cbn in H';
      destruct (batch =? 1)%nat; cbn in H'; congruence. }
  destruct (length (input_info net) =? 2)%nat.
  - set (infos := filter (fun '(_, shp) =>
                            ((length shp =? 2) && (last shp 0 =? 3))%nat)
                         (input_info net)) in *.
    destruct (Nat.eqb_spec (length (map fst infos)) 1) as [E2|E2];
      cbn [py_assert rbind] in H;
      [|injection H as <-; eexists; split; [reflexivity|simpl; tauto]].
    destruct infos as [|[name shp2] [|? ?]]; try discriminate.
    cbn [map fst py_head rbind] in H.
    apply Hinfo in H. subst e. eexists; split; [reflexivity|simpl; tauto].
  - cbn [rbind] in H.
    apply Hinfo in H. subst e. eexists; split; [reflexivity|simpl; tauto].
Qed.

Lemma check_model_only_asserts_witness :
  exists msg,
    AssertionError
      "Demo supports only model with single input for images"%string =
      AssertionError msg /\
    In msg ["Demo supports only topologies with 1 or 2 inputs.";
            "Demo supports only model with single input for images";
            "Demo supports only model with single im_info input";
            "Only batch 1 is supported by the demo application"]%string.
Proof.
  apply (check_model_only_asserts (mkNet [("im_info"%string, [1; 3]%nat)] [])).
  - simpl. constructor; [simpl; tauto|constructor].
  - reflexivity.
Defined.

(* ================================================================== *)
(** * [expand_box] on float64 *)
(* ================================================================== *)

(** An assignment to a slot of the array that was allocated last. *)
Lemma store_item_last st v i x :
  (i < length v)%nat ->
  store_item (length st) i x (st ++ [AVec v]) =
    Ok (tt, st ++ [AVec (set_nth v i x)]).
Proof.
  intros Hi. unfold store_item, load_vec, load, bind.
  rewrite nth_error_app_last. unfold ret.
  apply Nat.ltb_lt in Hi. rewrite Hi. unfold write.
  rewrite length_app. simpl length.
  replace (length st <? length st + 1)%nat with true
    by (symmetry; apply Nat.ltb_lt; lia).
  now rewrite set_nth_app_last.
Qed.

Lemma expand_box_fl_run fl box scale st x1 y1 x2 y2 :
  nth_error st box = Some (AVec [x1; y1; x2; y2]) ->
  expand_box_fl fl box scale st =
    let x_c := fl (fl (x2 + x1) * (1 # 2)) in
    let y_c := fl (fl (y2 + y1) * (1 # 2)) in
    let w_half := fl (fl (fl (x2 - x1) * (1 # 2)) * scale) in
    let h_half := fl (fl (fl (y2 - y1) * (1 # 2)) * scale) in
    Ok (length st,
        st ++ [AVec [fl (x_c - w_half); fl (y_c - h_half);
                     fl (x_c + w_half); fl (y_c + h_half)]]).
Proof.
  intros H. unfold expand_box_fl.
  unfold bind at 1. unfold load_vec, load, bind at 1. rewrite H.
  unfold ret at 1. cbn [py_index nth_error lift bind].
  unfold alloc. cbn [length repeat].
  unfold bind at 1. cbv beta iota.
  do 4 (unfold bind at 1; rewrite store_item_last by (simpl; lia);
        cbv beta iota; cbn [set_nth]).
  reflexivity.
Qed.

(** The error of one rounded operation: [x] approximates [y] within [e]
    and is at most [m] in magnitude. *)
Section RoundingError.
Variable fl : Q -> Q.
Variables u eta omega : Q.
Hypothesis fl_ok : rounds_to fl u eta omega.

Lemma fl_step x y e m um :
  Qabs (x - y) <= e -> Qabs x <= m -> m <= omega -> u * m <= um ->
  Qabs (fl x - y) <= e + um + eta /\ Qabs (fl x) <= 2 * m + eta.
Proof.
  destruct fl_ok as [[U0 U1] [E0 Hfl]].
  intros He Hm Ho Hu. pose proof (Hfl x) as Hx.
  assert (Hum : u * Qabs x <= u * m).
  { rewrite (Qmult_comm u (Qabs x)), (Qmult_comm u m).
    apply Qmult_le_compat_r; assumption. }
  assert (Hm1 : u * m <= m).
  { assert (0 <= m) by (pose proof (Qabs_nonneg x); lra).
    assert (0 <= (1 - u) * m) by (apply Qmult_le_0_compat; lra). lra. }
  assert (Hx' : Qabs (fl x - x) <= u * m + eta).
  { assert (Hxo : Qabs x <= omega) by lra. specialize (Hx Hxo). lra. }
  apply Qabs_Qle_condition in He, Hm.
  apply Qabs_Qle_condition in Hx'.
  split; apply Qabs_Qle_condition; lra.
Qed.

Lemma half_err x y e m :
  Qabs (x - y) <= e -> Qabs x <= m ->
  Qabs (x * (1 # 2) - y * (1 # 2)) <= e * (1 # 2) /\
  Qabs (x * (1 # 2)) <= m * (1 # 2).
Proof.
  intros He Hm. apply Qabs_Qle_condition in He, Hm.
  split; apply Qabs_Qle_condition; lra.
Qed.

Lemma scale_err x y s e m :
  Qabs (x - y) <= e -> Qabs x <= m ->
  Qabs (x * s - y * s) <= e * Qabs s /\ Qabs (x * s) <= m * Qabs s.
Proof.
  intros He Hm. split.
  - setoid_replace (x * s - y * s) with ((x - y) * s) by ring.
    rewrite Qabs_Qmult. apply Qmult_le_compat_r; [assumption|apply Qabs_nonneg].
  - rewrite Qabs_Qmult. apply Qmult_le_compat_r; [assumption|apply Qabs_nonneg].
Qed.

Lemma sum_bound p r :
  Qabs (r + p) <= Qabs p + Qabs r /\ Qabs (r - p) <= Qabs p + Qabs r.
Proof.
  pose proof (Qabs_triangle r p). pose proof (Qabs_triangle r (- p)).
  rewrite Qabs_opp in *. split; [lra|].
  setoid_replace (r - p) with (r + - p) by ring. lra.
Qed.

(** One axis of [expand_box]: both edges are within the bound of their
    exact values. *)
Lemma expand_axis_err p r s :
  4 * (Qabs p + Qabs r + eta) * (1 + Qabs s) <= omega ->
  let x_c := fl (fl (r + p) * (1 # 2)) in
  let w_half := fl (fl (fl (r - p) * (1 # 2)) * s) in
  Qabs (fl (x_c - w_half) - ((r + p) * (1 # 2) - (r - p) * (1 # 2) * s))
    <= rounding_bound u eta p r s /\
  Qabs (fl (x_c + w_half) - ((r + p) * (1 # 2) + (r - p) * (1 # 2) * s))
    <= rounding_bound u eta p r s.
Proof.
  intros Hom x_c w_half. unfold rounding_bound.
  destruct fl_ok as [[U0 U1] [H0 _]].
  destruct (sum_bound p r) as [Bs Bd].
  set (A := Qabs p + Qabs r) in *.
  assert (A0 : 0 <= A)
    by (unfold A; pose proof (Qabs_nonneg p); pose proof (Qabs_nonneg r); lra).
  pose proof (Qabs_nonneg s) as S0. set (S := Qabs s) in *.
  set (P := u * A). set (R := u * A * S). set (T := eta * S).
  set (AS := A * S).
  assert (P0 : 0 <= P) by (apply Qmult_le_0_compat; assumption).
  assert (R0 : 0 <= R) by (apply Qmult_le_0_compat; assumption).
  assert (T0 : 0 <= T) by (apply Qmult_le_0_compat; assumption).
  assert (AS0 : 0 <= AS) by (apply Qmult_le_0_compat; assumption).
  assert (UE : u * eta <= eta).
  { assert (0 <= (1 - u) * eta) by (apply Qmult_le_0_compat; lra). lra. }
  assert (UT : u * T <= T).
  { assert (0 <= (1 - u) * T) by (apply Qmult_le_0_compat; lra). lra. }
  assert (Om : 4 * A + 4 * eta + 4 * AS + 4 * T <= omega).
  { setoid_replace (4 * A + 4 * eta + 4 * AS + 4 * T)
      with (4 * (A + eta) * (1 + S)) by (unfold AS, T; ring). exact Hom. }
  (* centre *)
  assert (E0 : Qabs (r + p - (r + p)) <= 0).
  { setoid_replace (r + p - (r + p)) with 0 by ring. simpl. lra. }
  destruct (fl_step _ _ _ _ P E0 Bs) as [E1 M1]; [lra|unfold P; lra|].
  destruct (half_err _ _ _ _ E1 M1) as [E2 M2].
  destruct (fl_step _ _ _ _ (P + eta * (1 # 2)) E2 M2) as [E3 M3]; [lra| |].
  { unfold P.
    setoid_replace (u * ((2 * A + eta) * (1 # 2)))
      with (u * A + (u * eta) * (1 # 2)) by ring. lra. }
  fold x_c in E3, M3.
  (* half extent *)
  assert (D0 : Qabs (r - p - (r - p)) <= 0).
  { setoid_replace (r - p - (r - p)) with 0 by ring. simpl. lra. }
  destruct (fl_step _ _ _ _ P D0 Bd) as [D1 N1]; [lra|unfold P; lra|].
  destruct (half_err _ _ _ _ D1 N1) as [D2 N2].
  destruct (fl_step _ _ _ _ (P + eta * (1 # 2)) D2 N2) as [D3 N3]; [lra| |].
  { unfold P.
    setoid_replace (u * ((2 * A + eta) * (1 # 2)))
      with (u * A + (u * eta) * (1 # 2)) by ring. lra. }
  destruct (scale_err _ _ s _ _ D3 N3) as [D4 N4]. fold S in D4, N4.
  assert (N4' : Qabs (fl (fl (r - p) * (1 # 2)) * s) <= 2 * AS + 2 * T).
  { setoid_replace (2 * AS + 2 * T)
      with ((2 * ((2 * A + eta) * (1 # 2)) + eta) * S)
      by (unfold AS, T; ring). exact N4. }
  assert (D4' : Qabs (fl (fl (r - p) * (1 # 2)) * s - (r - p) * (1 # 2) * s)
                <= (3 # 2) * R + 2 * T).
  { eapply Qle_trans; [exact D4|].
    setoid_replace (((0 + P + eta) * (1 # 2) + (P + eta * (1 # 2)) + eta) * S)
      with ((3 # 2) * R + 2 * T) by (unfold P, R, T; ring). lra. }
  destruct (fl_step _ _ _ _ (2 * R + 2 * T) D4' N4') as [D5 N5]; [lra| |].
  { setoid_replace (u * (2 * AS + 2 * T)) with (2 * R + 2 * (u * T))
      by (unfold AS, R; ring). lra. }
  fold w_half in D5, N5.
  (* edges *)
  assert (L : Qabs (x_c - w_half - ((r + p) * (1 # 2) - (r - p) * (1 # 2) * s))
              <= (3 # 2) * P + (7 # 2) * R + 4 * T + 3 * eta /\
              Qabs (x_c - w_half) <= 2 * A + 4 * AS + 4 * T + 3 * eta).
  { apply Qabs_Qle_condition in E3, M3, D5, N5.
    split; apply Qabs_Qle_condition; lra. }
  assert (Rt : Qabs (x_c + w_half - ((r + p) * (1 # 2) + (r - p) * (1 # 2) * s))
              <= (3 # 2) * P + (7 # 2) * R + 4 * T + 3 * eta /\
              Qabs (x_c + w_half) <= 2 * A + 4 * AS + 4 * T + 3 * eta).
  { apply Qabs_Qle_condition in E3, M3, D5, N5.
    split; apply Qabs_Qle_condition; lra. }
  destruct L as [L1 L2]. destruct Rt as [R1 R2].
  assert (UM : u * (2 * A + 4 * AS + 4 * T + 3 * eta)
               <= 2 * P + 4 * R + 4 * T + 3 * eta).
  { setoid_replace (u * (2 * A + 4 * AS + 4 * T + 3 * eta))
      with (2 * P + 4 * R + 4 * (u * T) + 3 * (u * eta))
      by (unfold P, R, AS; ring). lra. }
  destruct (fl_step _ _ _ _ (2 * P + 4 * R + 4 * T + 3 * eta) L1 L2) as [L3 _]; [lra|exact UM|].
  destruct (fl_step _ _ _ _ (2 * P + 4 * R + 4 * T + 3 * eta) R1 R2) as [R3 _]; [lra|exact UM|].
  assert (Fin : (3 # 2) * P + (7 # 2) * R + 4 * T + 3 * eta
                + (2 * P + 4 * R + 4 * T + 3 * eta) + eta
                <= 8 * (u * A + eta) * (1 + S)).
  { setoid_replace (8 * (u * A + eta) * (1 + S))
      with (8 * P + 8 * R + 8 * T + 8 * eta) by (unfold P, R, T; ring). lra. }
  split; (eapply Qle_trans; [eassumption|exact Fin]).
Qed.

(** The two edges of one axis give its centre and its extent. *)
Lemma axis_center_extent e0 e2 p r s bd :
  Qabs (e0 - ((r + p) * (1 # 2) - (r - p) * (1 # 2) * s)) <= bd ->
  Qabs (e2 - ((r + p) * (1 # 2) + (r - p) * (1 # 2) * s)) <= bd ->
  Qabs ((e2 + e0) * (1 # 2) - (r + p) * (1 # 2)) <= bd /\
  Qabs (e2 - e0 - s * (r - p)) <= 2 * bd /\
  (s == 1 -> Qabs (e0 - p) <= bd /\ Qabs (e2 - r) <= bd).
Proof.
  intros H0 H2.
  set (t := (r - p) * (1 # 2) * s) in *.
  assert (T : s * (r - p) == 2 * t) by (unfold t; ring).
  apply Qabs_Qle_condition in H0, H2.
  split; [apply Qabs_Qle_condition; lra|].
  split; [apply Qabs_Qle_condition; lra|].
  intros Hs.
  assert (T1 : t == (r - p) * (1 # 2)) by (unfold t; rewrite Hs; ring).
  split; apply Qabs_Qle_condition; lra.
Qed.
End RoundingError.

(** Rounding down to a multiple of [1/1024] has an absolute error of at most
    [1/1024]. *)
Lemma round_down_1024_rounds : rounds_to round_down_1024 0 (1 # 1024) 1000.
Proof.
  split; [lra|]. split; [lra|]. intros x _.
  unfold round_down_1024.
  pose proof (Qfloor_le (x * 1024)) as H1.
  pose proof (Qlt_floor (x * 1024)) as H2.
  rewrite inject_Z_plus in H2.
  set (f := inject_Z (Qfloor (x * 1024))) in *.
  apply Qabs_Qle_condition.
  assert (E : f / 1024 == f * (1 # 1024)) by (field).
  rewrite E. change (inject_Z 1) with 1 in H2. lra.
Qed.

(** C9 (as stated, refuted).  In float64, [expand_box] of
    [(0.1, 0.2, 0.3, 0.4)] with scale [1.0] is
    [(0.10000000000000002, 0.20000000000000004, 0.3, 0.4)], which is not the
    box; with scale [0.1] the width of the result, [0.020000000000000018],
    is not [0.1] times the width of the box. *)
Lemma expand_box_f64_rounds :
  (f0 (expand_box_f64 (mkBox64 0.1 0.2 0.3 0.4) 1) =? 0.1)%float = false /\
  (f1 (expand_box_f64 (mkBox64 0.1 0.2 0.3 0.4) 1) =? 0.2)%float = false /\
  (f2 (expand_box_f64 (mkBox64 0.1 0.2 0.3 0.4) 0.1)
   - f0 (expand_box_f64 (mkBox64 0.1 0.2 0.3 0.4) 0.1)
   =? 0.1 * (0.3 - 0.1))%float = false.
Proof. repeat split; vm_compute; reflexivity. Qed.

(** C9 (amended).  Let [fl] round as float64 does, with relative error [u]
    and absolute error [eta] on results of magnitude at most [omega], and
    let the box [(x1, y1, x2, y2)] and the scale be small enough for no
    intermediate result to exceed [omega].  Then [expand_box] returns, its
    result is a new array, and every array that existed before the call,
    the box included, is unchanged.  The centre of the result is within
    [rounding_bound] of the centre of the box, its width and height are
    within twice that bound of [scale] times those of the box, and for
    [scale = 1] every coordinate of the result is within the bound of the
    coordinate of the box.  No sign condition on [scale] is needed. *)
Theorem expand_box_center_scale fl u eta omega box scale st x1 y1 x2 y2 :
  rounds_to fl u eta omega ->
  4 * (Qabs x1 + Qabs x2 + eta) * (1 + Qabs scale) <= omega ->
  4 * (Qabs y1 + Qabs y2 + eta) * (1 + Qabs scale) <= omega ->
  nth_error st box = Some (AVec [x1; y1; x2; y2]) ->
  exists e,
    expand_box_fl fl box scale st =
      Ok (length st, st ++ [AVec [b0 e; b1 e; b2 e; b3 e]]) /\
    Qabs (box_center_x e - box_center_x (mkBox x1 y1 x2 y2))
      <= rounding_bound u eta x1 x2 scale /\
    Qabs (box_center_y e - box_center_y (mkBox x1 y1 x2 y2))
      <= rounding_bound u eta y1 y2 scale /\
    Qabs (box_width e - scale * box_width (mkBox x1 y1 x2 y2))
      <= 2 * rounding_bound u eta x1 x2 scale /\
    Qabs (box_height e - scale * box_height (mkBox x1 y1 x2 y2))
      <= 2 * rounding_bound u eta y1 y2 scale /\
    (scale == 1 ->
     Qabs (b0 e - x1) <= rounding_bound u eta x1 x2 scale /\
     Qabs (b1 e - y1) <= rounding_bound u eta y1 y2 scale /\
     Qabs (b2 e - x2) <= rounding_bound u eta x1 x2 scale /\
     Qabs (b3 e - y2) <= rounding_bound u eta y1 y2 scale).
Proof.
  intros Hfl Hx Hy Hb.
  rewrite (expand_box_fl_run fl box scale st x1 y1 x2 y2 Hb). cbv zeta.
  destruct (expand_axis_err fl u eta omega Hfl x1 x2 scale Hx) as [X0 X2].
  destruct (expand_axis_err fl u eta omega Hfl y1 y2 scale Hy) as [Y0 Y2].
  cbv zeta in X0, X2, Y0, Y2.
  destruct (axis_center_extent _ _ _ _ _ _ X0 X2) as [Cx [Wx Sx]].
  destruct (axis_center_extent _ _ _ _ _ _ Y0 Y2) as [Cy [Wy Sy]].
  eexists (mkBox _ _ _ _). split; [reflexivity|].
  unfold box_center_x, box_center_y, box_width, box_height. cbn [b0 b1 b2 b3].
  split; [exact Cx|]. split; [exact Cy|].
  split; [exact Wx|]. split; [exact Wy|].
  intros Hs. destruct (Sx Hs) as [? ?]. destruct (Sy Hs) as [? ?].
  repeat split; assumption.
Qed.

Lemma expand_box_center_scale_witness :
  exists e,
    expand_box_fl round_down_1024 0%nat (3 # 2) [AVec [2; 2; 6; 7]] =
      Ok (1%nat, [AVec [2; 2; 6; 7]; AVec [b0 e; b1 e; b2 e; b3 e]]) /\
    Qabs (box_center_x e - box_center_x (mkBox 2 2 6 7))
      <= rounding_bound 0 (1 # 1024) 2 6 (3 # 2) /\
    Qabs (box_width e - (3 # 2) * box_width (mkBox 2 2 6 7))
      <= 2 * rounding_bound 0 (1 # 1024) 2 6 (3 # 2).
Proof.
  destruct (expand_box_center_scale round_down_1024 0 (1 # 1024) 1000
              0%nat (3 # 2) [AVec [2; 2; 6; 7]] 2 2 6 7)
    as [e [He [Cx [_ [Wx _]]]]].
  - exact round_down_1024_rounds.
  - vm_compute. discriminate.
  - vm_compute. discriminate.
  - reflexivity.
  - exists e. split; [exact He|]. split; assumption.
Defined.

(* ================================================================== *)
(** * Effects on the arrays of the caller *)
(* ================================================================== *)








Section YolactMasks.
Variable cv2_resize : ndarray Q -> Z -> Z -> result (ndarray Q).
Variable np_exp : Q -> Q.

End YolactMasks.


